(** * bingo: the global package cache and the request dispatcher

    A shallow embedding of [langserver/internal/cache/cache.go] (the
    [GlobalCache] with its three indices, recursive ingestion and ranked
    traversal) and of the lifecycle part of [langserver/handler.go] and
    [langserver/handler_common.go], followed by the properties of the
    design document that can be checked against them. *)

From Stdlib Require Import String Ascii ZArith List Permutation Lia.
From Stdlib Require Import Sorting.Sorted.
From stdpp Require Import gmap strings list fin_maps sorting.

Open Scope string_scope.

(** ** Go values shared by both packages *)

Module Go.

(** [time.Time] as a number; [time.Time{}] is the zero value. *)
Definition Time := Z.
Definition zeroTime : Time := 0%Z.

(** [strings.HasPrefix(s, prefix)]. *)
Definition HasPrefix (s prefix : string) : bool := String.prefix prefix s.

(** [strings.Contains(s, substr)]. *)
Fixpoint Contains (s substr : string) : bool :=
  String.prefix substr s ||
  match s with
  | EmptyString => false
  | String _ s' => Contains s' substr
  end.

(** Lower-casing of one byte: the ASCII letters [A]..[Z] move to
    [a]..[z], every other byte is kept. *)
Definition lowerByte (a : ascii) : ascii :=
  let n := nat_of_ascii a in
  if Nat.leb 65 n && Nat.leb n 90 then ascii_of_nat (n + 32) else a.

(** [strings.ToLower] on byte strings: the ASCII letters are lowered; the
    case mapping of letters outside ASCII is not modelled. *)
Fixpoint ToLower (s : string) : string :=
  match s with
  | EmptyString => EmptyString
  | String a s' => String (lowerByte a) (ToLower s')
  end.

(** The comparison [idList[i] <= idList[j]] on Go strings: bytewise
    lexicographic order. *)
Definition strLe (s1 s2 : string) : bool := String.leb s1 s2.

(** The inner loop of an insertion sort, on the reversed sorted prefix:
    the new element moves left while [less new prev]. *)
Fixpoint bubble {A} (less : A → A → bool) (x : A) (revPrefix : list A) : list A :=
  match revPrefix with
  | [] => [x]
  | y :: ys => if less x y then y :: bubble less x ys else x :: y :: ys
  end.

(** [sort.Slice] of Go's standard library, which orders the slice by
    [less].  It is modelled by the insertion sort that the library runs on
    slices of fewer than twelve elements: for [i := 1; i < n; i++],
    element [i] is moved left while it is [less] than its left neighbour.
    The properties below use only that the outcome is the input reordered
    and sorted by [less]. *)
Definition sort_Slice {A} (less : A → A → bool) (l : list A) : list A :=
  rev (fold_left (λ acc x, bubble less x acc) l []).

End Go.

(** ** Package cache: [langserver/internal/cache] *)

Module Cache.
Import Go.

(** A [*Package] is an address in the heap of cached packages. *)
Definition loc := positive.

(** [type Package struct].  The loader's payload ([syntax], [errors],
    [types], [typesInfo], [fset]) is copied by [create] and never read by
    the cache; it is left out.  [imports] is the mutable
    [map[string]*Package]. *)
Record Package := mkPackage {
  name : string;
  id : string;
  pkgPath : string;
  files : list string;
  imports : gmap string loc
}.

(** [packages.Package], the loader's node.  [Imports] is a Go map from
    import path to node; it is kept as the list of its entries in the
    order in which [range] yields them. *)
Definition ploc := positive.
Record packages_Package := mkPackages_Package {
  Name : string;
  ID : string;
  PkgPath : string;
  CompiledGoFiles : list string;
  Imports : list (string * ploc)
}.

(** [type GlobalPackage struct { pkg *Package; modTime time.Time }]. *)
Record GlobalPackage := mkGlobalPackage {
  pkg : loc;
  modTime : Time
}.

(** [sync.RWMutex]: one writer or any number of readers. *)
Record RWMutex := mkRWMutex {
  writer : bool;
  readers : nat
}.

(** [type GlobalCache struct].  A [*GlobalPackage] stored in an index is
    never nil; a missing key reads as nil, here [None]. *)
Record GlobalCache := mkGlobalCache {
  mu : RWMutex;
  idMap : gmap string GlobalPackage;
  pathMap : gmap string GlobalPackage;
  fileMap : gmap string GlobalPackage
}.

(** The part of the process the cache operations touch: the heap of
    [Package] objects, the cache behind the receiver [c] ([None] when the
    receiver is nil), the file system ([os.Stat] answers from [fs]) and
    the log of the names [os.Stat] was asked about. *)
Record world := mkWorld {
  heap : gmap loc Package;
  gc : option GlobalCache;
  fs : gmap string Time;
  statLog : list string
}.

(** Outcome of running an operation: it returns, it faults (nil
    dereference, unlock of an unlocked mutex), it blocks on the mutex, or
    the recursion budget of the model is used up. *)
Inductive result (A : Type) : Type :=
| Ok (a : A) (σ : world)
| Fault
| Blocked
| OutOfFuel.
Arguments Ok {A} a σ.
Arguments Fault {A}.
Arguments Blocked {A}.
Arguments OutOfFuel {A}.

Definition M (A : Type) : Type := world → result A.

Definition ret {A} (a : A) : M A := λ σ, Ok a σ.

Definition bind {A B} (m : M A) (k : A → M B) : M B :=
  λ σ, match m σ with
       | Ok a σ' => k a σ'
       | Fault => Fault
       | Blocked => Blocked
       | OutOfFuel => OutOfFuel
       end.

#[global] Instance M_ret : MRet M := @ret.
#[global] Instance M_bind : MBind M := λ A B k m, bind m k.

Definition fault {A} : M A := λ _, Fault.
Definition block {A} : M A := λ _, Blocked.
Definition outOfFuel {A} : M A := λ _, OutOfFuel.

(** [for _, x := range l { body(x) }]. *)
Fixpoint forEach {A} (l : list A) (body : A → M unit) : M unit :=
  match l with
  | [] => ret tt
  | x :: l' => body x;; forEach l' body
  end.

(** The receiver [c]. *)
Definition receiver : M (option GlobalCache) := λ σ, Ok (gc σ) σ.

(** Field accesses through a non-nil receiver; through nil they fault. *)
Definition cache : M GlobalCache :=
  λ σ, match gc σ with Some c => Ok c σ | None => Fault end.

Definition setCache (c : GlobalCache) : M unit :=
  λ σ, match gc σ with
       | Some _ => Ok tt (mkWorld (heap σ) (Some c) (fs σ) (statLog σ))
       | None => Fault
       end.

(** [*pkg]. *)
Definition deref (l : loc) : M Package :=
  λ σ, match heap σ !! l with Some P => Ok P σ | None => Fault end.

(** [&Package{...}]: a fresh address. *)
Definition alloc (P : Package) : M loc :=
  λ σ, let l := fresh (dom (heap σ)) in
       Ok l (mkWorld (<[l := P]> (heap σ)) (gc σ) (fs σ) (statLog σ)).

(** [parent.imports[path] = child]. *)
Definition setImport (parent : loc) (path : string) (child : loc) : M unit :=
  λ σ, match heap σ !! parent with
       | Some P =>
           let P' := mkPackage (name P) (id P) (pkgPath P) (files P)
                               (<[path := child]> (imports P)) in
           Ok tt (mkWorld (<[parent := P']> (heap σ)) (gc σ) (fs σ) (statLog σ))
       | None => Fault
       end.

(** [os.Stat(name)]: [Some t] is a [FileInfo] with [ModTime() = t], [None]
    an error.  Every call is logged. *)
Definition os_Stat (name : string) : M (option Time) :=
  λ σ, Ok (fs σ !! name)
          (mkWorld (heap σ) (gc σ) (fs σ) (statLog σ ++ [name])%list).

(** Modelled from the spec: [util.LowerDriver] (package [util] is not
    part of the sources at hand).  File path comparison is
    case-normalized: the path is lower-cased. *)
Definition LowerDriver (path : string) : string := ToLower path.

(** [func (p *GlobalPackage) Package() *Package]. *)
Definition GlobalPackage_Package (p : option GlobalPackage) : option loc :=
  match p with
  | None => None
  | Some g => Some (pkg g)
  end.

(** [func (p *GlobalPackage) ModTime() time.Time]. *)
Definition GlobalPackage_ModTime (p : option GlobalPackage) : Time :=
  match p with
  | None => zeroTime
  | Some g => modTime g
  end.

(** [func NewCache() *GlobalCache]. *)
Definition NewCache : GlobalCache :=
  mkGlobalCache (mkRWMutex false 0) ∅ ∅ ∅.

(** [func getPackageModTime(pkg *Package) time.Time]. *)
Definition getPackageModTime (pkg : option loc) : M Time :=
  match pkg with
  | None => ret zeroTime
  | Some l =>
      P ← deref l;
      match files P with
      | [] => ret zeroTime
      | dir :: _ =>
          fi ← os_Stat dir;
          match fi with
          | None => ret zeroTime
          | Some t => ret t
          end
      end
  end.

(** [func (c *GlobalCache) delete(id string)]. *)
Definition delete_ (i : string) : M unit :=
  c ← receiver;
  match c with
  | None => ret tt
  | Some c =>
      match idMap c !! i with
      | None => ret tt
      | Some p =>
          setCache (mkGlobalCache (mu c) (delete i (idMap c)) (pathMap c) (fileMap c));;
          P ← deref (pkg p);
          c ← cache;
          setCache (mkGlobalCache (mu c) (idMap c) (delete (pkgPath P) (pathMap c)) (fileMap c));;
          forEach (files P) (λ file,
            c ← cache;
            setCache (mkGlobalCache (mu c) (idMap c) (pathMap c)
                                    (delete (LowerDriver file) (fileMap c))))
      end
  end.

(** [func (c *GlobalCache) put(pkg *Package)]. *)
Definition put (pkg : loc) : M unit :=
  c ← receiver;
  match c with
  | None => P ← deref pkg; ret tt
  | Some _ =>
      P ← deref pkg;
      delete_ (id P);;
      t ← getPackageModTime (Some pkg);
      let p := mkGlobalPackage pkg t in
      c ← cache;
      setCache (mkGlobalCache (mu c) (<[id P := p]> (idMap c)) (pathMap c) (fileMap c));;
      c ← cache;
      setCache (mkGlobalCache (mu c) (idMap c) (<[pkgPath P := p]> (pathMap c)) (fileMap c));;
      forEach (files P) (λ file,
        c ← cache;
        setCache (mkGlobalCache (mu c) (idMap c) (pathMap c)
                                (<[LowerDriver file := p]> (fileMap c))))
  end.

(** [func (c *GlobalCache) get(id string) *Package]. *)
Definition get (i : string) : M (option loc) :=
  c ← receiver;
  match c with
  | None => ret None
  | Some c => ret (GlobalPackage_Package (idMap c !! i))
  end.

(** [c.mu.RLock()], [c.mu.RUnlock()], [c.mu.Lock()], [c.mu.Unlock()]. *)
Definition mu_RLock : M unit :=
  c ← cache;
  if writer (mu c) then block
  else setCache (mkGlobalCache (mkRWMutex false (S (readers (mu c))))
                               (idMap c) (pathMap c) (fileMap c)).

Definition mu_RUnlock : M unit :=
  c ← cache;
  match readers (mu c) with
  | O => fault
  | S n => setCache (mkGlobalCache (mkRWMutex (writer (mu c)) n)
                                   (idMap c) (pathMap c) (fileMap c))
  end.

Definition mu_Lock : M unit :=
  c ← cache;
  if writer (mu c) then block
  else match readers (mu c) with
       | O => setCache (mkGlobalCache (mkRWMutex true 0)
                                      (idMap c) (pathMap c) (fileMap c))
       | S _ => block
       end.

Definition mu_Unlock : M unit :=
  c ← cache;
  if writer (mu c)
  then setCache (mkGlobalCache (mkRWMutex false (readers (mu c)))
                               (idMap c) (pathMap c) (fileMap c))
  else fault.

(** [func (c *GlobalCache) RLock()] and its three siblings. *)
Definition RLock : M unit :=
  c ← receiver; match c with None => ret tt | Some _ => mu_RLock end.

Definition RUnlock : M unit :=
  c ← receiver; match c with None => ret tt | Some _ => mu_RUnlock end.

Definition Lock : M unit :=
  c ← receiver; match c with None => ret tt | Some _ => mu_Lock end.

Definition Unlock : M unit :=
  c ← receiver; match c with None => ret tt | Some _ => mu_Unlock end.

(** [func (c *GlobalCache) clean(idList []string)]. *)
Definition clean (idList : list string) : M unit :=
  c ← receiver;
  match c with
  | None => ret tt
  | Some _ =>
      match idList with
      | [] => ret tt
      | _ => Lock;; forEach idList delete_;; Unlock
      end
  end.

(** [func (c *GlobalCache) Get(pkgPath string) *GlobalPackage]. *)
Definition Get (path : string) : M (option GlobalPackage) :=
  c ← receiver;
  match c with
  | None => ret None
  | Some _ =>
      RLock;;
      c ← cache;
      let p := pathMap c !! path in
      RUnlock;;
      ret p
  end.

(** [func (c *GlobalCache) Put(pkg *Package)]. *)
Definition Put (pkg : loc) : M unit :=
  c ← receiver;
  match c with
  | None => P ← deref pkg; ret tt
  | Some _ => Lock;; put pkg;; Unlock
  end.

(** [func (c *GlobalCache) Delete(id string)]. *)
Definition Delete (i : string) : M unit :=
  c ← receiver;
  match c with
  | None => ret tt
  | Some _ => Lock;; delete_ i;; Unlock
  end.

(** [func (c *GlobalCache) GetByURI(filename string) *Package]. *)
Definition GetByURI (filename : string) : M (option loc) :=
  c ← receiver;
  match c with
  | None => ret None
  | Some _ =>
      RLock;;
      c ← cache;
      let p := fileMap c !! LowerDriver filename in
      RUnlock;;
      ret (GlobalPackage_Package p)
  end.

(** The closure [getRank] of [Walk]. *)
Fixpoint getRankFrom (ranks : list string) (i : nat) (id : string) : nat :=
  match ranks with
  | [] => if Contains id "." then i else i + 1
  | r :: ranks' => if HasPrefix id r then i else getRankFrom ranks' (S i) id
  end.

Definition getRank (ranks : list string) (id : string) : nat :=
  getRankFrom ranks 0 id.

(** The [less] closure handed to [sort.Slice] by [Walk]. *)
Definition walkLess (ranks : list string) (x y : string) : bool :=
  let r1 := getRank ranks x in
  let r2 := getRank ranks y in
  if Nat.ltb r1 r2 then true
  else if Nat.eqb r1 r2 then strLe x y
  else false.

(** [source.WalkFunc]: the visitor is a closure over a state of its own;
    it returns [Some e] for a non-nil error. *)
Definition WalkFunc (S E : Type) : Type := option loc → S → S * option E.

(** [func (c *GlobalCache) walk(idList []string, walkFunc)]. *)
Fixpoint walk {S E} (idList : list string) (walkFunc : WalkFunc S E) (s : S)
  : M (S * option E) :=
  match idList with
  | [] => ret (s, None)
  | i :: idList' =>
      p ← get i;
      match walkFunc p s with
      | (s', Some err) => ret (s', Some err)
      | (s', None) => walk idList' walkFunc s'
      end
  end.

(** [func (c *GlobalCache) Walk(walkFunc, ranks []string) error].
    [rangeOrder] is the order in which [for id := range c.idMap] yields the
    keys of the map, which Go leaves unspecified. *)
Definition Walk {S E} (rangeOrder : list string) (walkFunc : WalkFunc S E)
    (ranks : list string) (s : S) : M (S * option E) :=
  c ← receiver;
  match c with
  | None => ret (s, None)
  | Some _ =>
      RLock;;
      let idList := sort_Slice (walkLess ranks) rangeOrder in
      res ← walk idList walkFunc s;
      RUnlock;;
      ret res
  end.

(** [func create(pkg *packages.Package) *Package]. *)
Definition create (node : packages_Package) : M loc :=
  alloc (mkPackage (Name node) (ID node) (PkgPath node) (CompiledGoFiles node) ∅).

(** The loader's graph: the [*packages.Package] nodes by address. *)
Definition graph := gmap ploc packages_Package.

Definition node_at (G : graph) (a : ploc) : M packages_Package :=
  λ σ, match G !! a with Some n => Ok n σ | None => Fault end.

(** [func (c *GlobalCache) recusiveAdd(pkg *packages.Package, parent *Package)].
    Go recurses without a bound; [fuel] bounds the depth of the calls. *)
Fixpoint recusiveAdd (fuel : nat) (G : graph) (pkg : ploc) (parent : option loc)
  : M unit :=
  match fuel with
  | O => outOfFuel
  | S fuel' =>
      node ← node_at G pkg;
      c ← cache;
      match idMap c !! ID node with
      | Some p =>
          match parent with
          | Some par => setImport par (PkgPath node) (Cache.pkg p)
          | None => ret tt
          end
      | None =>
          p ← create node;
          forEach (Imports node) (λ ip, recusiveAdd fuel' G ip.2 (Some p));;
          put p;;
          match parent with
          | Some par => P ← deref p; setImport par (pkgPath P) p
          | None => ret tt
          end
      end
  end.

(** [func (c *GlobalCache) Add(pkg *packages.Package)]. *)
Definition Add (fuel : nat) (G : graph) (pkg : ploc) : M unit :=
  c ← receiver;
  match c with
  | None => node ← node_at G pkg; ret tt
  | Some _ => Lock;; recusiveAdd fuel G pkg None;; Unlock
  end.

(** *** Notions the properties are stated with *)

(** The world with the cache behind the receiver replaced. *)
Definition withCache (σ : world) (c : GlobalCache) : world :=
  mkWorld (heap σ) (Some c) (fs σ) (statLog σ).

(** Nobody holds the mutex. *)
Definition unlocked (c : GlobalCache) : Prop := mu c = mkRWMutex false 0.

Definition withMu (m : RWMutex) (c : GlobalCache) : GlobalCache :=
  mkGlobalCache m (idMap c) (pathMap c) (fileMap c).

(** The two loops over [pkg.files], on the file index alone. *)
Definition deleteFiles (fl : list string) (m : gmap string GlobalPackage)
  : gmap string GlobalPackage :=
  fold_left (λ m file, delete (LowerDriver file) m) fl m.

Definition putFiles (p : GlobalPackage) (fl : list string)
    (m : gmap string GlobalPackage) : gmap string GlobalPackage :=
  fold_left (λ m file, <[LowerDriver file := p]> m) fl m.

(** What [delete] and [put] make of the three indices. *)
Definition deleted (i : string) (P : Package) (c : GlobalCache) : GlobalCache :=
  mkGlobalCache (mu c) (delete i (idMap c)) (delete (pkgPath P) (pathMap c))
                (deleteFiles (files P) (fileMap c)).

Definition stored (p : GlobalPackage) (P : Package) (c : GlobalCache) : GlobalCache :=
  mkGlobalCache (mu c) (<[id P := p]> (idMap c)) (<[pkgPath P := p]> (pathMap c))
                (putFiles p (files P) (fileMap c)).

(** The cache after [delete(i)]: untouched when the id is not cached;
    [None] when the cached entry points to no package. *)
Definition evicted (h : gmap loc Package) (i : string) (c : GlobalCache)
  : option GlobalCache :=
  match idMap c !! i with
  | None => Some c
  | Some gp =>
      match h !! pkg gp with
      | Some Q => Some (deleted i Q c)
      | None => None
      end
  end.

(** The time [getPackageModTime] finds for a package, and the name it
    asks [os.Stat] about. *)
Definition statName (P : Package) : list string :=
  match files P with
  | [] => []
  | dir :: _ => [dir]
  end.

Definition statTime (fs : gmap string Time) (P : Package) : Time :=
  match files P with
  | [] => zeroTime
  | dir :: _ => default zeroTime (fs !! dir)
  end.

(** Every entry of the id index points to a live package carrying that
    id. *)
Definition wf (σ : world) : Prop :=
  ∀ c i gp, gc σ = Some c → idMap c !! i = Some gp →
            ∃ P, heap σ !! pkg gp = Some P ∧ id P = i.

(** Three-index consistency: a unit found in the id index is found under
    its canonical path and under each of its files, and whatever the path
    index and the file index hold is a unit of the id index, filed under
    its own path and under one of its own files. *)
Definition consistent (σ : world) : Prop :=
  ∀ c, gc σ = Some c →
    (∀ i gp P, idMap c !! i = Some gp → heap σ !! pkg gp = Some P →
       pathMap c !! pkgPath P = Some gp
       ∧ ∀ file, file ∈ files P → fileMap c !! LowerDriver file = Some gp)
    ∧ (∀ k gp P, pathMap c !! k = Some gp → heap σ !! pkg gp = Some P →
         k = pkgPath P ∧ idMap c !! id P = Some gp)
    ∧ (∀ k gp P, fileMap c !! k = Some gp → heap σ !! pkg gp = Some P →
         k ∈ map LowerDriver (files P) ∧ idMap c !! id P = Some gp).

(** The path and the files of a package are free in the cache, or held by
    a unit with the id of the package. *)
Definition unoccupied (σ : world) (P : Package) : Prop :=
  ∀ c gp Q, gc σ = Some c → heap σ !! pkg gp = Some Q →
    (pathMap c !! pkgPath P = Some gp → id Q = id P)
    ∧ (∀ file, file ∈ files P →
         fileMap c !! LowerDriver file = Some gp → id Q = id P).

(** An operation that makes no call of [os.Stat]: the log of the calls
    is the same after it as before. *)
Definition quiet {A} (m : M A) : Prop :=
  ∀ σ a σ', m σ = Ok a σ' → statLog σ' = statLog σ.

(** The id index behind the receiver; empty behind a nil receiver. *)
Definition idIndex (σ : world) : gmap string GlobalPackage :=
  match gc σ with Some c => idMap c | None => ∅ end.

(** The name [os.Stat] is asked about when the package at an address is
    stored: its first file, if it has one. *)
Definition statNameAt (h : gmap loc Package) (l : loc) : list string :=
  match h !! l with Some P => statName P | None => [] end.

(** From [σ] to [σ'] the file system is as it was, a cache is still
    there, and every package is still alive with the files it had. *)
Definition kept (σ σ' : world) : Prop :=
  fs σ' = fs σ
  ∧ (is_Some (gc σ) → is_Some (gc σ'))
  ∧ ∀ l P, heap σ !! l = Some P →
           ∃ P', heap σ' !! l = Some P' ∧ files P' = files P.

(** The calls of [os.Stat] an ingestion from [σ] to [σ'] has made.
    [news] lists the packages made on the way, each once, in the order in
    which they were stored; the log has grown by exactly one call for each
    of them that has a file, on its first file, in that order, and by
    nothing else; and whatever the id index holds that it did not hold
    before is one of them, stamped with the time the file system of [σ]
    has for its first file. *)
Definition ingested (σ σ' : world) (news : list loc) : Prop :=
  NoDup news
  ∧ (∀ l, l ∈ news ↔ heap σ !! l = None ∧ is_Some (heap σ' !! l))
  ∧ statLog σ' = (statLog σ ++ concat (map (statNameAt (heap σ')) news))%list
  ∧ (∀ i gp, idIndex σ' !! i = Some gp →
       idIndex σ !! i = Some gp
       ∨ (pkg gp ∈ news
          ∧ ∃ P, heap σ' !! pkg gp = Some P
                 ∧ modTime gp = statTime (fs σ) P)).

(** A graph of the loader without a cycle: every import of a node is a
    node of strictly smaller rank. *)
Definition acyclic (G : graph) (rk : ploc → nat) : Prop :=
  ∀ a n k b, G !! a = Some n → (k, b) ∈ Imports n →
             is_Some (G !! b) ∧ rk b < rk a.

(** A package after [parent.imports[path] = child]. *)
Definition wired (P : Package) (path : string) (child : loc) : Package :=
  mkPackage (name P) (id P) (pkgPath P) (files P) (<[path := child]> (imports P)).

(** An entry of a dependency map that points to a live package. *)
Definition liveEntry (σ : world) (P : Package) (key : string) : Prop :=
  ∃ l, imports P !! key = Some l ∧ is_Some (heap σ !! l).

(** What a call [recusiveAdd(node, parent)] that returns leaves behind,
    from the world [σ] to the world [σ']: the mutex and the file system
    are as before and the id index is still well formed; the id of the
    node is cached, by a unit [P] carrying that id; when it was cached
    already, the cache and the log of [os.Stat] are untouched; when it
    was not, [P] is a new unit made of the node, found under its path and
    each of its files, stamped with the time of its first file, the last
    name in the log, and every import of the node has an entry in the
    dependency map of [P] that points to a live unit; no package other
    than the parent changes, and the parent gains the entry from the path
    of the node to the cached unit. *)
Definition added (G : graph) (node : packages_Package) (parent : option loc)
    (σ σ' : world) : Prop :=
  ∃ c c' gp P,
    gc σ = Some c ∧ gc σ' = Some c' ∧ mu c' = mu c ∧ fs σ' = fs σ ∧ wf σ'
    ∧ idMap c' !! ID node = Some gp ∧ heap σ' !! pkg gp = Some P
    ∧ id P = ID node
    ∧ (∀ gp0, idMap c !! ID node = Some gp0 →
         c' = c ∧ gp = gp0 ∧ statLog σ' = statLog σ)
    ∧ (idMap c !! ID node = None →
         heap σ !! pkg gp = None
         ∧ pkgPath P = PkgPath node ∧ files P = CompiledGoFiles node
         ∧ pathMap c' !! PkgPath node = Some gp
         ∧ (∀ file, file ∈ CompiledGoFiles node →
              fileMap c' !! LowerDriver file = Some gp)
         ∧ modTime gp = statTime (fs σ) P
         ∧ (∃ pre, statLog σ' = (statLog σ ++ pre ++ statName P)%list)
         ∧ (∀ k b nb, (k, b) ∈ Imports node → G !! b = Some nb →
              liveEntry σ' P (PkgPath nb)))
    ∧ (∀ l, is_Some (heap σ !! l) → parent ≠ Some l →
         heap σ' !! l = heap σ !! l)
    ∧ (∀ par Ppar, parent = Some par → heap σ !! par = Some Ppar →
         heap σ' !! par = Some (wired Ppar (PkgPath node) (pkg gp))).

(** The order [Walk] is claimed to visit in. *)
Definition rankLe (ranks : list string) (x y : string) : Prop :=
  getRank ranks x < getRank ranks y
  ∨ (getRank ranks x = getRank ranks y ∧ strLe x y = true).

(** A visitor that records what it is called with and fails where
    [errAt] says so. *)
Definition recorder {E} (errAt : option loc → option E)
  : WalkFunc (list (option loc)) E :=
  λ p s, ((s ++ [p])%list, errAt p).

(** The units behind a list of ids. *)
Definition units (c : GlobalCache) (ids : list string) : list (option loc) :=
  map (λ i, GlobalPackage_Package (idMap c !! i)) ids.

(** Running a visitor over a list of units, stopping at the first
    error. *)
Fixpoint visit {S E} (walkFunc : WalkFunc S E) (us : list (option loc)) (s : S)
  : S * option E :=
  match us with
  | [] => (s, None)
  | u :: us' =>
      match walkFunc u s with
      | (s', Some err) => (s', Some err)
      | (s', None) => visit walkFunc us' s'
      end
  end.

(** Concrete worlds for the examples. *)
Module Sample.
Definition empty : world := mkWorld ∅ (Some NewCache) ∅ [].
Definition nilCache : world := mkWorld ∅ None ∅ [].

(** Two units with different ids, the same canonical path and the same
    file, as a package and its test variant have. *)
Definition pkgA : Package := mkPackage "a" "a" "pkg/a" ["a.go"] ∅.
Definition pkgA' : Package := mkPackage "a" "a [a.test]" "pkg/a" ["a.go"] ∅.

Definition twoUnits : world :=
  mkWorld (<[1%positive := pkgA]> (<[2%positive := pkgA']> ∅))
          (Some NewCache) ∅ [].

(** Both units put, the plain package first; then the first one
    deleted by its id. *)
Definition afterTwoPuts : result unit :=
  (Put 1%positive;; Put 2%positive) twoUnits.
Definition afterDelete : result unit :=
  (Put 1%positive;; Put 2%positive;; Delete "a") twoUnits.

(** The cycle of the design document: C imports D, D imports C. *)
Definition cycle : graph :=
  <[1%positive := mkPackages_Package "c" "C" "pkg/c" ["c.go"] [("pkg/d", 2%positive)]]>
  (<[2%positive := mkPackages_Package "d" "D" "pkg/d" ["d.go"] [("pkg/c", 1%positive)]]> ∅).

(** A chain: C imports D, D imports nothing. *)
Definition chain : graph :=
  <[1%positive := mkPackages_Package "c" "C" "pkg/c" ["c.go"] [("pkg/d", 2%positive)]]>
  (<[2%positive := mkPackages_Package "d" "D" "pkg/d" ["d.go"] []]> ∅).

Definition chainRank (a : ploc) : nat :=
  match a with 1%positive => 1 | _ => 0 end.

(** A unit whose file is [/Src/a.go], on a file system that knows the
    file. *)
Definition srcUnit : Package := mkPackage "src" "src" "src" ["/Src/a.go"] ∅.
Definition withSrcUnit : world :=
  mkWorld {[1%positive := srcUnit]} (Some NewCache) {["/Src/a.go" := 42%Z]} [].

(** The four ids of the traversal example, cached. *)
Definition walkIds : list string :=
  ["myapp/foo"; "myapp/bar"; "github.com/x/y"; "fmt"].
Definition walkCache : GlobalCache :=
  mkGlobalCache (mkRWMutex false 0)
    (<["myapp/foo" := mkGlobalPackage 1%positive 0%Z]>
     (<["myapp/bar" := mkGlobalPackage 2%positive 0%Z]>
      (<["github.com/x/y" := mkGlobalPackage 3%positive 0%Z]>
       (<["fmt" := mkGlobalPackage 4%positive 0%Z]> ∅)))) ∅ ∅.
Definition walkWorld : world := mkWorld ∅ (Some walkCache) ∅ [].
End Sample.

End Cache.


(** ** Dispatcher: [langserver/handler.go], [langserver/handler_common.go] *)

Module Langserver.

(** A Go [error] value: [errors.New(msg)], a [*jsonrpc2.Error], the error
    [util.Panicf] makes of a recovered panic, or an error of a
    collaborator outside the dispatcher. *)
Inductive error : Type :=
| errors_New (msg : string)
| jsonrpc2_Error (code : Z) (message : string)
| panicError (tag : string) (r : string)
| externalError (e : string).

Definition CodeInvalidParams : Z := (-32602)%Z.
Definition CodeMethodNotFound : Z := (-32601)%Z.

Definition errLanguageServerMustBeInitialized : error :=
  errors_New "languageserver must be initialized".
Definition errLanguageServerAlreadyInitialized : error :=
  errors_New "language server is already initialized".
Definition errCodeInvalidParams : error :=
  jsonrpc2_Error CodeInvalidParams "".
Definition errLanguageServerIsShuttingDown : error :=
  errors_New "language server is shutting down".
Definition errLanguageServerAlreadyShutdown : error :=
  errors_New "language server received a shutdown request after it was already shut down".

(** [jsonrpc2.ID]. *)
Record ID := mkID {
  Num : Z;
  Str : string;
  IsString : bool
}.

#[global] Instance ID_eq_dec : EqDecision ID.
Proof. solve_decision. Defined.

(** [json.RawMessage]. *)
Definition RawMessage := string.

(** [jsonrpc2.Request]; [Params] is a pointer and may be nil. *)
Record Request := mkRequest {
  Method : string;
  Params : option RawMessage;
  ReqID : ID;
  Notif : bool
}.

(** The [interface{}] result of [Handle]: nil, the fixed
    [lsp.InitializeResult], or what a query handler computed. *)
Inductive value : Type :=
| nil
| InitializeResult
| handlerValue (v : string).

(** The [conn jsonrpc2.JSONRPC2] argument: whether its dynamic type is
    [*jsonrpc2.Conn], and whether [Close] has been called on it. *)
Record JSONRPC2 := mkJSONRPC2 {
  isConn : bool;
  closed : bool
}.

(** Modelled from the spec: the [cancel] type behind [h.cancel] is not
    part of the sources at hand.  The registry holds the ids of the
    requests in flight: [WithCancel] registers an id, the function it
    returns deregisters it, [Cancel] triggers and removes a registered id
    and is silent on any other. *)
Definition cancel := list ID.
Definition NewCancel : cancel := [].
Definition cancel_WithCancel (c : cancel) (i : ID) : cancel := i :: c.
Definition cancel_done (c : cancel) (i : ID) : cancel :=
  filter (λ j, j ≠ i) c.
Definition cancel_Cancel (c : cancel) (i : ID) : cancel :=
  filter (λ j, j ≠ i) c.

(** A line of the server's log: [log.Println(err)], or
    [log.Printf(format, arg)] with one argument. *)
Inductive logLine : Type :=
| log_Println (e : error)
| log_Printf (format : string) (arg : string).

(** [LangHandler] with the embedded [HandlerCommon]: the fields of the
    lifecycle, and the server's log.  [init] holds the message the
    parameters of [initialize] were decoded from; the configuration, the
    project and the overlay are not part of the model. *)
Record LangHandler := mkLangHandler {
  shutdown : bool;
  init : option RawMessage;
  cancelManager : option cancel;
  log : list logLine
}.

(** What a call leaves behind: it returns [(result, err)], or it panics
    with a value. *)
Inductive outcome : Type :=
| Returned (result : value) (err : option error)
| Panicked (r : string).

(** A method of [*LangHandler] that is handed the connection: it may
    change the handler and use the connection before it returns or
    panics.  It is given the handler and the connection as they are and
    leaves them as it leaves them. *)
Definition effect : Type :=
  LangHandler → JSONRPC2 → LangHandler * JSONRPC2 * outcome.

(** [func (h *HandlerCommon) ShutDown()]. *)
Definition ShutDown (h : LangHandler) : LangHandler :=
  let log' := if shutdown h
              then (log h ++ [log_Println errLanguageServerAlreadyShutdown])%list
              else log h in
  mkLangHandler true (init h) (cancelManager h) log'.

(** [func (h *HandlerCommon) CheckReady() error]. *)
Definition CheckReady (h : LangHandler) : option error :=
  if shutdown h then Some errLanguageServerIsShuttingDown else None.

(** Modelled from the spec: [util.Panicf] (package [util] is not part of
    the sources at hand).  Given what [recover()] returned, it is nil when
    there was no panic; otherwise the failure is tagged with the formatted
    identification, here the method name, and turned into an error. *)
Definition Panicf (r : option string) (tag : string) : option error :=
  match r with
  | None => None
  | Some v => Some (panicError tag v)
  end.

(** The methods whose case of the [switch] checks [req.Params], decodes
    them and calls the handler of the method. *)
Definition queryMethods : list string :=
  [ "textDocument/hover"; "textDocument/definition";
    "textDocument/typeDefinition"; "textDocument/xdefinition";
    "textDocument/completion"; "textDocument/references";
    "textDocument/implementation"; "textDocument/documentSymbol";
    "textDocument/signatureHelp"; "textDocument/formatting";
    "textDocument/rangeFormatting"; "workspace/symbol";
    "workspace/xreferences"; "textDocument/rename";
    "textDocument/codeAction" ].

Definition fileSystemMethods : list string :=
  [ "textDocument/didOpen"; "textDocument/didChange";
    "textDocument/didClose"; "textDocument/didSave" ].

Definition isMethod (m : string) (l : list string) : bool :=
  existsb (String.eqb m) l.

(** The format of the line [doInit] logs. *)
Definition deprecatedRootPath : string :=
  "initialize: rootPath URI (%q) is deprecated in favour rootUri".

Section Dispatch.

(** The collaborators of the dispatcher, none of which is among the
    sources at hand; the properties hold whatever they do.
    [json.Unmarshal] into the parameter type of a method; the query
    handlers ([h.handleHover] ...) and [h.handleFileSystemRequest],
    methods of the handler that may change it, use the connection (the
    query handlers are handed it, the overlay is made with it) and
    panic; the decoding of the id of [$/cancelRequest]; the field
    [RootPath] of the decoded parameters of [initialize];
    [util.IsURI] and [util.PathToURI]; and the set-up of the project
    at the end of [doInit] ([cache.NewProject], [newOverlay],
    [project.Init]), which is handed the connection but not the
    handler, may write to the log, and may fail or panic. *)
Variable Unmarshal : string → RawMessage → option error.
Variable handleQuery : Request → RawMessage → effect.
Variable handleFileSystemRequest : Request → effect.
Variable cancelParamsID : RawMessage → ID.
Variable RootPath : RawMessage → string.
Variable IsURI : string → bool.
Variable PathToURI : string → string.
Variable projectInit
  : RawMessage → string → JSONRPC2 → list logLine * JSONRPC2 * outcome.

(** The root path [Handle] hands to [doInit]: a root path that is not
    empty and not a URI is made one. *)
Definition rootPathURI (params : RawMessage) : string :=
  let root := RootPath params in
  if negb (String.eqb root "") && negb (IsURI root)
  then PathToURI root else root.

(** [func (h *LangHandler) doInit]: a root path that is a URI is
    reported in the log; the handler's own fields are set before the
    project is set up, so they stay set when that fails. *)
Definition doInit (h : LangHandler) (conn : JSONRPC2) (params : RawMessage)
    (rootPath : string) : LangHandler * JSONRPC2 * outcome :=
  let log1 := if IsURI rootPath
              then (log h ++ [log_Printf deprecatedRootPath rootPath])%list
              else log h in
  match projectInit params rootPath conn with
  | (lines, conn', out) =>
      (mkLangHandler (shutdown h) (Some params) (Some NewCancel)
                     (log1 ++ lines)%list,
       conn', out)
  end.

(** The [switch req.Method] of [Handle]. *)
Definition dispatch (h : LangHandler) (conn : JSONRPC2) (req : Request)
  : LangHandler * JSONRPC2 * outcome :=
  let m := Method req in
  if String.eqb m "initialize" then
    match init h with
    | Some _ => (h, conn, Returned nil (Some errLanguageServerAlreadyInitialized))
    | None =>
        match Params req with
        | None => (h, conn, Returned nil (Some errCodeInvalidParams))
        | Some raw =>
            match Unmarshal m raw with
            | Some err => (h, conn, Returned nil (Some err))
            | None =>
                if isConn conn then
                  match doInit h conn raw (rootPathURI raw) with
                  | (h', conn', Returned _ (Some err)) =>
                      (h', conn', Returned nil (Some err))
                  | (h', conn', Returned _ None) =>
                      (h', conn', Returned InitializeResult None)
                  | (h', conn', Panicked r) => (h', conn', Panicked r)
                  end
                else (h, conn, Panicked "interface conversion")
            end
        end
    end
  else if String.eqb m "initialized" then (h, conn, Returned nil None)
  else if String.eqb m "shutdown" then (ShutDown h, conn, Returned nil None)
  else if String.eqb m "exit" then
    (h, if isConn conn then mkJSONRPC2 true true else conn, Returned nil None)
  else if String.eqb m "$/cancelRequest" then
    match Params req with
    | None => (h, conn, Returned nil None)
    | Some raw =>
        match Unmarshal m raw with
        | Some _ => (h, conn, Returned nil None)
        | None =>
            match cancelManager h with
            | None => (h, conn, Returned nil None)
            | Some c =>
                (mkLangHandler (shutdown h) (init h)
                               (Some (cancel_Cancel c (cancelParamsID raw))) (log h),
                 conn, Returned nil None)
            end
        end
    end
  else if isMethod m queryMethods then
    match Params req with
    | None => (h, conn, Returned nil (Some errCodeInvalidParams))
    | Some raw =>
        match Unmarshal m raw with
        | Some err => (h, conn, Returned nil (Some err))
        | None => handleQuery req raw h conn
        end
    end
  else if isMethod m fileSystemMethods then
    match handleFileSystemRequest req h conn with
    | (h', conn', Returned _ err) => (h', conn', Returned nil err)
    | (h', conn', Panicked r) => (h', conn', Panicked r)
    end
  else
    (h, conn,
     Returned nil (Some (jsonrpc2_Error CodeMethodNotFound
                                        ("method not supported: " ++ m)%string))).

(** The body of [func (h *LangHandler) Handle], up to the deferred
    recovery: the initialization gate, the readiness gate, the
    registration of a request for cancellation with its deferred
    [cancel()], and the [switch]. *)
Definition Handle_body (h : LangHandler) (conn : JSONRPC2) (req : Request)
  : LangHandler * JSONRPC2 * outcome :=
  let cm := cancelManager h in
  if negb (String.eqb (Method req) "initialize") &&
     (match init h with None => true | Some _ => false end)
  then (h, conn, Returned nil (Some errLanguageServerMustBeInitialized))
  else
    match CheckReady h with
    | Some err =>
        (h, conn,
         Returned nil (if String.eqb (Method req) "exit" then None else Some err))
    | None =>
        match cm with
        | Some c =>
            if negb (Notif req) then
              let h1 := mkLangHandler (shutdown h) (init h)
                          (Some (cancel_WithCancel c (ReqID req))) (log h) in
              match dispatch h1 conn req with
              | (h2, conn', out) =>
                  (mkLangHandler (shutdown h2) (init h2)
                     (option_map (λ c', cancel_done c' (ReqID req)) (cancelManager h2))
                     (log h2),
                   conn', out)
              end
            else dispatch h conn req
        | None => dispatch h conn req
        end
    end.

(** [func (h *LangHandler) Handle]: the body under
    [defer func() { if perr := util.Panicf(recover(), "%v", req.Method);
    perr != nil { err = perr } }()]. *)
Definition Handle (h : LangHandler) (conn : JSONRPC2) (req : Request)
  : LangHandler * JSONRPC2 * outcome :=
  match Handle_body h conn req with
  | (h', conn', out) =>
      let recovered := match out with
                       | Panicked r => Some r
                       | Returned _ _ => None
                       end in
      match Panicf recovered (Method req) with
      | Some perr => (h', conn', Returned nil (Some perr))
      | None => (h', conn', out)
      end
  end.

End Dispatch.

(** The handler [NewHandler] builds: nothing initialized, nothing shut
    down. *)
Definition newLangHandler : LangHandler := mkLangHandler false None None [].

(** The lifecycle state the fields of a handler stand for.  The gate on
    [h.init] comes first in [Handle], so a handler without [init] counts as
    uninitialized whatever [shutdown] says. *)
Inductive lifecycle : Type := Uninitialized | Initialized | ShuttingDown.

Definition lifecycle_of (h : LangHandler) : lifecycle :=
  match init h with
  | None => Uninitialized
  | Some _ => if shutdown h then ShuttingDown else Initialized
  end.

(** What the client is answered. *)
Definition response (x : LangHandler * JSONRPC2 * outcome) : outcome := x.2.

(** The handler while a request is served: the request is registered
    for cancellation when there is a registry and the message is not a
    notification. *)
Definition registered (h : LangHandler) (req : Request) : LangHandler :=
  match cancelManager h with
  | Some c =>
      if negb (Notif req)
      then mkLangHandler (shutdown h) (init h)
                         (Some (cancel_WithCancel c (ReqID req))) (log h)
      else h
  | None => h
  end.

(** The handler [h2] the [switch] has left, after the deferred [cancel()]
    of a request that was registered on entry, when the handler was
    [h]. *)
Definition released (h : LangHandler) (req : Request) (h2 : LangHandler)
  : LangHandler :=
  match cancelManager h with
  | Some _ =>
      if negb (Notif req)
      then mkLangHandler (shutdown h2) (init h2)
             (option_map (λ c', cancel_done c' (ReqID req)) (cancelManager h2))
             (log h2)
      else h2
  | None => h2
  end.

(** Collaborators for concrete runs: decoding succeeds; a query handler
    answers with its parameters and touches nothing, unless the
    parameters are ["boom"], in which case it panics; the parameters
    ["{}"] name no root path, any other parameters are their own root
    path; a URI starts with [file://]; and the project loads. *)
Module Sample.
Definition Unmarshal : string → RawMessage → option error := λ _ _, None.
Definition handleQuery : Request → RawMessage → effect :=
  λ _ raw h conn,
    (h, conn, if String.eqb raw "boom" then Panicked "index out of range"
              else Returned (handlerValue raw) None).
Definition handleFileSystemRequest : Request → effect :=
  λ _ h conn, (h, conn, Returned nil None).
Definition cancelParamsID : RawMessage → ID := λ _, mkID 0 "" false.
Definition RootPath : RawMessage → string :=
  λ raw, if String.eqb raw "{}" then "" else raw.
Definition IsURI : string → bool := String.prefix "file://".
Definition PathToURI : string → string := λ p, ("file://" ++ p)%string.
Definition projectInit
  : RawMessage → string → JSONRPC2 → list logLine * JSONRPC2 * outcome :=
  λ _ _ conn, ([], conn, Returned nil None).


Definition Handle : LangHandler → JSONRPC2 → Request → LangHandler * JSONRPC2 * outcome :=
  Langserver.Handle Unmarshal handleQuery handleFileSystemRequest
                    cancelParamsID RootPath IsURI PathToURI projectInit.

Definition conn : JSONRPC2 := mkJSONRPC2 true false.
Definition request (m : string) (params : option RawMessage) : Request :=
  mkRequest m params (mkID 1 "" false) false.
Definition notification (m : string) : Request :=
  mkRequest m None (mkID 0 "" false) true.

(** The handler after a successful [initialize]. *)
Definition initialized : LangHandler :=
  (Handle newLangHandler conn (request "initialize" (Some "{}"))).1.1.
End Sample.

End Langserver.


(** ** Further notions for the cache *)

Module CacheMore.
Import Go Cache.

(** An operation that, when it returns, has left the component [f] of the
    world as it was. *)
Definition preserves {A B} (f : world → B) (m : M A) : Prop :=
  ∀ σ a σ', m σ = Ok a σ' → f σ' = f σ.

(** The state of the mutex of the cache, if there is a cache. *)
Definition muOf (σ : world) : option RWMutex := mu <$> gc σ.

(** Somebody holds the mutex: a writer, or at least one reader. *)
Definition held (c : GlobalCache) : Prop :=
  writer (mu c) = true ∨ readers (mu c) ≠ 0.

(** The id, the path and the files of a package are all free in the
    cache. *)
Definition absent (c : GlobalCache) (P : Package) : Prop :=
  idMap c !! id P = None
  ∧ pathMap c !! pkgPath P = None
  ∧ ∀ file, file ∈ files P → fileMap c !! LowerDriver file = None.

(** The cache after the loop [for _, id := range idList { c.delete(id) }]
    of [clean]; [None] when an entry points to no package. *)
Fixpoint evictedAll (h : gmap loc Package) (ids : list string) (c : GlobalCache)
  : option GlobalCache :=
  match ids with
  | [] => Some c
  | i :: ids' =>
      match evicted h i c with
      | Some c' => evictedAll h ids' c'
      | None => None
      end
  end.

(** A world in which the unit of [Sample.withSrcUnit] is cached. *)
Module Sample.
Definition srcEntry : GlobalPackage := mkGlobalPackage 1%positive 42%Z.
Definition cached : world :=
  mkWorld {[1%positive := Cache.Sample.srcUnit]}
          (Some (stored srcEntry Cache.Sample.srcUnit NewCache))
          {["/Src/a.go" := 42%Z]} ["/Src/a.go"].

(** The same cache while a reader holds the mutex. *)
Definition beingRead : world :=
  mkWorld {[1%positive := Cache.Sample.srcUnit]}
          (Some (mkGlobalCache (mkRWMutex false 1) ∅ ∅ ∅)) ∅ [].

(** A node of the loader with the id of the cached unit and other
    contents. *)
Definition changed : graph :=
  {[1%positive := mkPackages_Package "src" "src" "src/v2" ["/Src/b.go"] []]}.
End Sample.

End CacheMore.

(** ** Further notions for the dispatcher *)

Module LangserverMore.
Import Langserver.

(** The methods the [switch] of [Handle] has a case for. *)
Definition knownMethods : list string :=
  ["initialize"; "initialized"; "shutdown"; "exit"; "$/cancelRequest"]
    ++ queryMethods ++ fileSystemMethods.

(** The lifecycle only moves forward. *)
Definition lifecycleLe (s1 s2 : lifecycle) : bool :=
  match s1, s2 with
  | Uninitialized, _ => true
  | Initialized, Uninitialized => false
  | Initialized, _ => true
  | ShuttingDown, ShuttingDown => true
  | ShuttingDown, _ => false
  end.

(** What the deferred recovery of [Handle] makes of the outcome of the
    body, for a request of method [m]. *)
Definition recovered (m : string) (out : outcome) : outcome :=
  match out with
  | Panicked r => Returned nil (Some (panicError m r))
  | Returned v e => Returned v e
  end.

Module Sample.
(** The set-up of the project fails. *)
Definition brokenProject
  : RawMessage → string → JSONRPC2 → list logLine * JSONRPC2 * outcome :=
  λ _ _ conn, ([], conn, Returned nil (Some (externalError "no go.mod"))).

Definition HandleBroken
  : LangHandler → JSONRPC2 → Request → LangHandler * JSONRPC2 * outcome :=
  Langserver.Handle Langserver.Sample.Unmarshal Langserver.Sample.handleQuery
    Langserver.Sample.handleFileSystemRequest Langserver.Sample.cancelParamsID
    Langserver.Sample.RootPath Langserver.Sample.IsURI
    Langserver.Sample.PathToURI brokenProject.
End Sample.

End LangserverMore.

(** ** Standard input and output as one stream: [conn.go] *)

Module Conn.

(** An [*os.File], as far as closing it goes: open or closed. *)
Record File := mkFile {
  closed : bool
}.

(** [os.ErrClosed]. *)
Inductive error : Type := ErrClosed.

(** [func (f *File) Close() error] of Go's library: it closes the file,
    and returns an error if it has already been called.  Failures of the
    operating system are not modelled. *)
Definition File_Close (f : File) : File * option error :=
  if closed f then (f, Some ErrClosed) else (mkFile true, None).

(** [os.Stdin] and [os.Stdout]. *)
Record stdio := mkStdio {
  Stdin : File;
  Stdout : File
}.

(** [func (stdrwc) Close() error]. *)
Definition Close (p : stdio) : stdio * option error :=
  match File_Close (Stdin p) with
  | (stdin', Some err) => (mkStdio stdin' (Stdout p), Some err)
  | (stdin', None) =>
      match File_Close (Stdout p) with
      | (stdout', err) => (mkStdio stdin' stdout', err)
      end
  end.

End Conn.

(** ** Properties of the package cache *)

Module CacheProofs.
Import Go Cache.
#[local] Open Scope list_scope.

(** *** Running the operations *)

Lemma bind_run {A B} (m : M A) (k : A → M B) σ :
  (m ≫= k) σ = match m σ with
               | Ok a σ' => k a σ'
               | Fault => Fault
               | Blocked => Blocked
               | OutOfFuel => OutOfFuel
               end.
Proof. reflexivity. Qed.

Lemma bind_ok {A B} (m : M A) (k : A → M B) σ a σ' :
  m σ = Ok a σ' → (m ≫= k) σ = k a σ'.
Proof. intros H. rewrite bind_run, H. reflexivity. Qed.

Lemma withCache_id σ c : gc σ = Some c → withCache σ c = σ.
Proof. destruct σ; cbn; intros ->; reflexivity. Qed.

Lemma withCache_twice σ c c' : withCache (withCache σ c) c' = withCache σ c'.
Proof. reflexivity. Qed.

Lemma receiver_run σ : receiver σ = Ok (gc σ) σ.
Proof. reflexivity. Qed.

Lemma cache_run σ c : gc σ = Some c → cache σ = Ok c σ.
Proof. unfold cache. intros ->. reflexivity. Qed.

Lemma setCache_run σ c c' : gc σ = Some c → setCache c' σ = Ok tt (withCache σ c').
Proof. unfold setCache. intros ->. reflexivity. Qed.

Lemma deref_run σ l P : heap σ !! l = Some P → deref l σ = Ok P σ.
Proof. unfold deref. intros ->. reflexivity. Qed.

(** One step of a run: the first action of a sequence is a primitive
    whose outcome is known. *)
Ltac mstep :=
  rewrite bind_run;
  first [ rewrite receiver_run
        | erewrite cache_run by (first [eassumption | reflexivity])
        | erewrite setCache_run by (first [eassumption | reflexivity])
        | erewrite deref_run by eassumption ].

(** The loop of [delete] over the files of the package. *)
Lemma forEach_deleteFiles fl σ c :
  gc σ = Some c →
  forEach fl (λ file,
    c ← cache;
    setCache (mkGlobalCache (mu c) (idMap c) (pathMap c)
                            (delete (LowerDriver file) (fileMap c)))) σ
  = Ok tt (withCache σ (mkGlobalCache (mu c) (idMap c) (pathMap c)
                                      (deleteFiles fl (fileMap c)))).
Proof.
  revert σ c. induction fl as [|file fl IH]; intros σ c Hc.
  - cbn. destruct c; cbn. rewrite withCache_id; [reflexivity|exact Hc].
  - cbn [forEach]. rewrite bind_run. mstep.
    erewrite setCache_run by eassumption.
    erewrite IH by reflexivity. reflexivity.
Qed.

(** The loop of [put] over the files of the package. *)
Lemma forEach_putFiles p fl σ c :
  gc σ = Some c →
  forEach fl (λ file,
    c ← cache;
    setCache (mkGlobalCache (mu c) (idMap c) (pathMap c)
                            (<[LowerDriver file := p]> (fileMap c)))) σ
  = Ok tt (withCache σ (mkGlobalCache (mu c) (idMap c) (pathMap c)
                                      (putFiles p fl (fileMap c)))).
Proof.
  revert σ c. induction fl as [|file fl IH]; intros σ c Hc.
  - cbn. destruct c; cbn. rewrite withCache_id; [reflexivity|exact Hc].
  - cbn [forEach]. rewrite bind_run. mstep.
    erewrite setCache_run by eassumption.
    erewrite IH by reflexivity. reflexivity.
Qed.

(** [delete] on a non-nil cache. *)
Lemma delete_run σ c i :
  gc σ = Some c →
  delete_ i σ =
  match evicted (heap σ) i c with
  | Some c' => Ok tt (withCache σ c')
  | None => Fault
  end.
Proof.
  intros Hc. unfold delete_, evicted. mstep. rewrite Hc.
  destruct (idMap c !! i) as [gp|];
    [|rewrite withCache_id by exact Hc; reflexivity].
  mstep. rewrite bind_run.
  unfold deref at 1. cbn [heap withCache].
  destruct (heap σ !! pkg gp) as [P|]; [|reflexivity].
  mstep. mstep. rewrite withCache_twice.
  erewrite forEach_deleteFiles by reflexivity. reflexivity.
Qed.

Lemma delete_nil σ i : gc σ = None → delete_ i σ = Ok tt σ.
Proof. intros Hc. unfold delete_. mstep. rewrite Hc. reflexivity. Qed.

Lemma getPackageModTime_run σ l P :
  heap σ !! l = Some P →
  getPackageModTime (Some l) σ
  = Ok (statTime (fs σ) P)
       (mkWorld (heap σ) (gc σ) (fs σ) (statLog σ ++ statName P)).
Proof.
  intros Hl. unfold getPackageModTime, statTime, statName.
  mstep.
  destruct (files P) as [|dir fl].
  - cbn. rewrite app_nil_r. destruct σ; reflexivity.
  - rewrite bind_run. cbn. destruct (fs σ !! dir); reflexivity.
Qed.

(** [put] on a non-nil cache: the old unit of the id is deleted, the
    first file is looked up on the file system, and the new unit goes into
    the three indices. *)
Lemma put_run σ c l P :
  gc σ = Some c → heap σ !! l = Some P →
  put l σ =
  match evicted (heap σ) (id P) c with
  | Some c1 =>
      Ok tt (mkWorld (heap σ)
               (Some (stored (mkGlobalPackage l (statTime (fs σ) P)) P c1))
               (fs σ) (statLog σ ++ statName P))
  | None => Fault
  end.
Proof.
  intros Hc Hl. unfold put. mstep. rewrite Hc. mstep. rewrite bind_run.
  rewrite (delete_run _ _ _ Hc).
  destruct (evicted (heap σ) (id P) c) as [c1|]; [|reflexivity].
  rewrite bind_run, (getPackageModTime_run _ _ P) by exact Hl.
  cbn [heap withCache gc fs statLog].
  mstep. mstep. mstep. mstep.
  erewrite forEach_putFiles by reflexivity. reflexivity.
Qed.

Lemma put_nil σ l P : gc σ = None → heap σ !! l = Some P → put l σ = Ok tt σ.
Proof. intros Hc Hl. unfold put. mstep. rewrite Hc. mstep. reflexivity. Qed.

Lemma get_run σ i :
  get i σ = Ok (match gc σ with
                | None => None
                | Some c => GlobalPackage_Package (idMap c !! i)
                end) σ.
Proof. unfold get. mstep. destruct (gc σ); reflexivity. Qed.

(** *** The mutex around the exported operations *)

Lemma evicted_withMu h i m c :
  evicted h i (withMu m c) = withMu m <$> evicted h i c.
Proof.
  unfold evicted, withMu. cbn.
  destruct (idMap c !! i) as [gp|]; [|reflexivity].
  destruct (h !! pkg gp); reflexivity.
Qed.

Lemma evicted_mu h i c c1 : evicted h i c = Some c1 → mu c1 = mu c.
Proof.
  unfold evicted. destruct (idMap c !! i) as [gp|].
  - destruct (h !! pkg gp); [|discriminate]. intros [= <-]. reflexivity.
  - intros [= <-]. reflexivity.
Qed.

Lemma withMu_unlocked c : unlocked c → withMu (mkRWMutex false 0) c = c.
Proof. unfold unlocked, withMu. destruct c; cbn. intros ->. reflexivity. Qed.

Lemma Lock_run σ c :
  gc σ = Some c → unlocked c →
  Lock σ = Ok tt (withCache σ (withMu (mkRWMutex true 0) c)).
Proof.
  intros Hc Hu. unfold Lock, mu_Lock. mstep. rewrite Hc. mstep.
  rewrite Hu. cbn [writer readers]. erewrite setCache_run by eassumption.
  reflexivity.
Qed.

Lemma Unlock_run σ c :
  gc σ = Some c → mu c = mkRWMutex true 0 →
  Unlock σ = Ok tt (withCache σ (withMu (mkRWMutex false 0) c)).
Proof.
  intros Hc Hu. unfold Unlock, mu_Unlock. mstep. rewrite Hc. mstep.
  rewrite Hu. cbn [writer readers]. erewrite setCache_run by eassumption.
  reflexivity.
Qed.

Lemma RLock_run σ c :
  gc σ = Some c → writer (mu c) = false →
  RLock σ = Ok tt (withCache σ (withMu (mkRWMutex false (S (readers (mu c)))) c)).
Proof.
  intros Hc Hu. unfold RLock, mu_RLock. mstep. rewrite Hc. mstep.
  rewrite Hu. erewrite setCache_run by eassumption. reflexivity.
Qed.

Lemma RUnlock_run σ c n :
  gc σ = Some c → mu c = mkRWMutex false (S n) →
  RUnlock σ = Ok tt (withCache σ (withMu (mkRWMutex false n) c)).
Proof.
  intros Hc Hu. unfold RUnlock, mu_RUnlock. mstep. rewrite Hc. mstep.
  rewrite Hu. cbn [writer readers]. erewrite setCache_run by eassumption.
  reflexivity.
Qed.

Lemma withMu_reader c : writer (mu c) = false →
  withMu (mkRWMutex false (readers (mu c))) c = c.
Proof. destruct c as [[w r] ? ? ?]; cbn. intros ->. reflexivity. Qed.

(** With the mutex free, an exported mutation is the internal one. *)
Lemma Put_run σ c l P :
  gc σ = Some c → unlocked c → heap σ !! l = Some P →
  Put l σ = put l σ.
Proof.
  intros Hc Hu Hl. unfold Put. mstep. rewrite Hc.
  rewrite bind_run, (Lock_run _ _ Hc Hu), bind_run.
  erewrite put_run by (first [reflexivity | exact Hl]).
  erewrite (put_run σ) by eassumption.
  cbn [heap withCache]. rewrite evicted_withMu.
  destruct (evicted (heap σ) (id P) c) as [c1|] eqn:He; [|reflexivity].
  cbn. erewrite Unlock_run by reflexivity.
  apply evicted_mu in He. rewrite Hu in He.
  unfold withCache, stored, withMu. cbn. rewrite <- He. reflexivity.
Qed.

Lemma Delete_run σ c i :
  gc σ = Some c → unlocked c → Delete i σ = delete_ i σ.
Proof.
  intros Hc Hu. unfold Delete. mstep. rewrite Hc.
  rewrite bind_run, (Lock_run _ _ Hc Hu), bind_run.
  erewrite delete_run by reflexivity. erewrite (delete_run σ) by eassumption.
  cbn [heap withCache]. rewrite evicted_withMu.
  destruct (evicted (heap σ) i c) as [c1|] eqn:He; [|reflexivity].
  cbn. erewrite Unlock_run by reflexivity.
  apply evicted_mu in He. rewrite Hu in He.
  unfold withCache, withMu. cbn. rewrite <- He. destruct c1; reflexivity.
Qed.

Lemma Get_run σ c path :
  gc σ = Some c → writer (mu c) = false →
  Get path σ = Ok (pathMap c !! path) σ.
Proof.
  intros Hc Hw. unfold Get. mstep. rewrite Hc.
  rewrite bind_run, (RLock_run _ _ Hc Hw). mstep.
  rewrite bind_run. erewrite RUnlock_run by reflexivity.
  cbn. unfold withCache, withMu. cbn.
  rewrite <- (withMu_reader c Hw) in Hc. unfold withMu in Hc.
  rewrite <- Hc. destruct σ; reflexivity.
Qed.

Lemma GetByURI_run σ c filename :
  gc σ = Some c → writer (mu c) = false →
  GetByURI filename σ
  = Ok (GlobalPackage_Package (fileMap c !! LowerDriver filename)) σ.
Proof.
  intros Hc Hw. unfold GetByURI. mstep. rewrite Hc.
  rewrite bind_run, (RLock_run _ _ Hc Hw). mstep.
  rewrite bind_run. erewrite RUnlock_run by reflexivity.
  cbn. unfold withCache, withMu. cbn.
  rewrite <- (withMu_reader c Hw) in Hc. unfold withMu in Hc.
  rewrite <- Hc. destruct σ; reflexivity.
Qed.

Lemma forEach_delete_nil ids σ : gc σ = None → forEach ids delete_ σ = Ok tt σ.
Proof.
  intros Hc. induction ids as [|i ids IH]; [reflexivity|].
  cbn [forEach]. rewrite bind_run, (delete_nil _ _ Hc). exact IH.
Qed.

Lemma walk_run {S E} ids (walkFunc : WalkFunc S E) s σ c :
  gc σ = Some c →
  walk ids walkFunc s σ = Ok (visit walkFunc (units c ids) s) σ.
Proof.
  intros Hc. revert s. induction ids as [|i ids IH]; intros s; [reflexivity|].
  cbn [walk units visit map]. rewrite bind_run, get_run, Hc.
  destruct (walkFunc _ s) as [s' [err|]]; [reflexivity|]. apply IH.
Qed.

Lemma Walk_run {S E} order (walkFunc : WalkFunc S E) ranks s σ c :
  gc σ = Some c → writer (mu c) = false →
  Walk order walkFunc ranks s σ
  = Ok (visit walkFunc (units c (sort_Slice (walkLess ranks) order)) s) σ.
Proof.
  intros Hc Hw. unfold Walk. mstep. rewrite Hc.
  rewrite bind_run, (RLock_run _ _ Hc Hw), bind_run.
  erewrite walk_run by reflexivity.
  rewrite bind_run. erewrite RUnlock_run by reflexivity.
  cbn. unfold withCache, withMu, units. cbn.
  rewrite <- (withMu_reader c Hw) in Hc. unfold withMu in Hc.
  rewrite <- Hc. destruct σ; reflexivity.
Qed.

(** *** The file index after [put] *)

Lemma putFiles_lookup p fl m k :
  m !! k = Some p ∨ k ∈ map LowerDriver fl →
  putFiles p fl m !! k = Some p.
Proof.
  revert m. induction fl as [|file fl IH]; intros m H; cbn.
  - destruct H as [H|H]; [exact H|]. inversion H.
  - apply IH. destruct (decide (LowerDriver file = k)) as [<-|Hne].
    + left. apply lookup_insert_eq.
    + rewrite lookup_insert_ne by exact Hne.
      destruct H as [H|H]; [left; exact H|].
      apply elem_of_cons in H as [H|H]; [congruence|right; exact H].
Qed.

Lemma putFiles_lookup_file p fl m file :
  file ∈ fl → putFiles p fl m !! LowerDriver file = Some p.
Proof.
  intros H. apply putFiles_lookup. right.
  apply list_elem_of_fmap. exists file. split; [reflexivity|exact H].
Qed.

(** *** Well-formedness is kept *)

Lemma wf_evicted σ c i :
  wf σ → gc σ = Some c → ∃ c1, evicted (heap σ) i c = Some c1.
Proof.
  intros Hwf Hc. unfold evicted.
  destruct (idMap c !! i) as [gp|] eqn:Hi; [|eauto].
  destruct (Hwf c i gp Hc Hi) as (Q & -> & _). eauto.
Qed.

Lemma evicted_idMap h i c c1 :
  evicted h i c = Some c1 → idMap c1 = delete i (idMap c).
Proof.
  unfold evicted. destruct (idMap c !! i) as [gp|] eqn:Hi.
  - destruct (h !! pkg gp); [|discriminate]. intros [= <-]. reflexivity.
  - intros [= <-]. symmetry. apply delete_id. exact Hi.
Qed.

(** [put] of a live package on a well-formed world goes through, and
    says what it leaves. *)
Lemma put_wf σ c l P :
  wf σ → gc σ = Some c → heap σ !! l = Some P →
  ∃ c1 σ',
    evicted (heap σ) (id P) c = Some c1
    ∧ put l σ = Ok tt σ'
    ∧ σ' = mkWorld (heap σ)
             (Some (stored (mkGlobalPackage l (statTime (fs σ) P)) P c1))
             (fs σ) (statLog σ ++ statName P)
    ∧ wf σ'.
Proof.
  intros Hwf Hc Hl.
  destruct (wf_evicted σ c (id P) Hwf Hc) as [c1 He].
  eexists c1, _. split; [exact He|]. split.
  { rewrite (put_run _ _ _ _ Hc Hl), He. reflexivity. }
  split; [reflexivity|].
  intros c' i gp [= <-]. cbn. rewrite (evicted_idMap _ _ _ _ He).
  rewrite insert_delete_eq.
  destruct (decide (id P = i)) as [<-|Hne].
  - rewrite lookup_insert_eq. intros [= <-]. cbn. eauto.
  - rewrite lookup_insert_ne by exact Hne. intros Hi.
    exact (Hwf c i gp Hc Hi).
Qed.

(** *** Operations that leave the file system alone *)

Lemma quiet_ret {A} (a : A) : quiet (mret a).
Proof. intros σ a' σ' [= _ <-]. reflexivity. Qed.

Lemma quiet_bind {A B} (m : M A) (k : A → M B) :
  quiet m → (∀ a, quiet (k a)) → quiet (m ≫= k).
Proof.
  intros Hm Hk σ b σ'. rewrite bind_run.
  destruct (m σ) as [a σ1| | |] eqn:E; try discriminate.
  intros H. rewrite (Hk a _ _ _ H). exact (Hm _ _ _ E).
Qed.

Lemma quiet_forEach {A} (l : list A) (body : A → M unit) :
  (∀ x, quiet (body x)) → quiet (forEach l body).
Proof.
  intros Hb. induction l as [|x l IH]; cbn [forEach].
  - apply (quiet_ret tt).
  - apply quiet_bind; [apply Hb|intros _; exact IH].
Qed.

Lemma quiet_receiver : quiet receiver.
Proof. intros σ a σ' [= _ <-]. reflexivity. Qed.

Lemma quiet_cache : quiet cache.
Proof. intros σ a σ'. unfold cache. destruct (gc σ); [|discriminate]. intros [= _ <-]. reflexivity. Qed.

Lemma quiet_setCache c : quiet (setCache c).
Proof. intros σ a σ'. unfold setCache. destruct (gc σ); [|discriminate]. intros [= _ <-]. reflexivity. Qed.

Lemma quiet_deref l : quiet (deref l).
Proof. intros σ a σ'. unfold deref. destruct (heap σ !! l); [|discriminate]. intros [= _ <-]. reflexivity. Qed.

Lemma quiet_fault {A} : quiet (@fault A).
Proof. intros σ a σ'. discriminate. Qed.

Lemma quiet_block {A} : quiet (@block A).
Proof. intros σ a σ'. discriminate. Qed.

Create HintDb quiet.
#[local] Hint Resolve quiet_receiver quiet_cache quiet_setCache quiet_deref : quiet.

Ltac quiet_step :=
  lazymatch goal with
  | |- quiet (mret _) => apply quiet_ret
  | |- quiet (ret _) => apply quiet_ret
  | |- quiet fault => apply quiet_fault
  | |- quiet block => apply quiet_block
  | |- quiet (_ ≫= _) => apply quiet_bind; [|intros ?]
  | |- quiet (forEach _ _) => apply quiet_forEach; intros ?
  | |- quiet (match ?x with _ => _ end) => destruct x
  | |- quiet _ => solve [auto with quiet]
  end.

Lemma quiet_delete i : quiet (delete_ i).
Proof. unfold delete_. repeat quiet_step. Qed.

Lemma quiet_get i : quiet (get i).
Proof. unfold get. repeat quiet_step. Qed.

Lemma quiet_RLock : quiet RLock.
Proof. unfold RLock, mu_RLock. repeat quiet_step. Qed.

Lemma quiet_RUnlock : quiet RUnlock.
Proof. unfold RUnlock, mu_RUnlock. repeat quiet_step. Qed.

Lemma quiet_Lock : quiet Lock.
Proof. unfold Lock, mu_Lock. repeat quiet_step. Qed.

Lemma quiet_Unlock : quiet Unlock.
Proof. unfold Unlock, mu_Unlock. repeat quiet_step. Qed.

#[local] Hint Resolve quiet_delete quiet_get quiet_RLock quiet_RUnlock
  quiet_Lock quiet_Unlock : quiet.

Lemma quiet_Get path : quiet (Get path).
Proof. unfold Get. repeat quiet_step. Qed.

Lemma quiet_GetByURI filename : quiet (GetByURI filename).
Proof. unfold GetByURI. repeat quiet_step. Qed.

Lemma quiet_Delete i : quiet (Delete i).
Proof. unfold Delete. repeat quiet_step. Qed.

Lemma quiet_clean ids : quiet (clean ids).
Proof. unfold clean. repeat quiet_step. Qed.

Lemma quiet_walk {S E} ids (walkFunc : WalkFunc S E) s : quiet (walk ids walkFunc s).
Proof.
  revert s. induction ids as [|i ids IH]; intros s; cbn [walk].
  - apply quiet_ret.
  - apply quiet_bind; [apply quiet_get|]. intros p.
    destruct (walkFunc p s) as [s' [err|]]; [apply quiet_ret|apply IH].
Qed.

Lemma quiet_Walk {S E} order (walkFunc : WalkFunc S E) ranks s :
  quiet (Walk order walkFunc ranks s).
Proof.
  unfold Walk. pose proof (@quiet_walk S E) as Hw. repeat quiet_step.
Qed.

(** *** The order of the traversal *)

Lemma ascii_compare_refl a : Ascii.compare a a = Eq.
Proof. unfold Ascii.compare. apply N.compare_refl. Qed.

Lemma ascii_compare_lt_trans a b c :
  Ascii.compare a b = Lt → Ascii.compare b c = Lt → Ascii.compare a c = Lt.
Proof.
  unfold Ascii.compare. rewrite !N.compare_lt_iff. intros ? ?.
  eapply N.lt_trans; eassumption.
Qed.

Lemma string_compare_refl s : String.compare s s = Eq.
Proof.
  induction s as [|a s IH]; [reflexivity|].
  cbn. rewrite ascii_compare_refl. exact IH.
Qed.

Lemma string_compare_lt_trans s1 s2 s3 :
  String.compare s1 s2 = Lt → String.compare s2 s3 = Lt →
  String.compare s1 s3 = Lt.
Proof.
  revert s2 s3. induction s1 as [|a s1 IH]; intros [|b s2] [|c s3]; cbn;
    try congruence.
  destruct (Ascii.compare a b) eqn:Hab; try discriminate;
    destruct (Ascii.compare b c) eqn:Hbc; try discriminate.
  - apply Ascii.compare_eq_iff in Hab, Hbc. subst.
    rewrite ascii_compare_refl. apply IH.
  - apply Ascii.compare_eq_iff in Hab. subst. rewrite Hbc. reflexivity.
  - apply Ascii.compare_eq_iff in Hbc. subst. rewrite Hab. reflexivity.
  - rewrite (ascii_compare_lt_trans _ _ _ Hab Hbc). reflexivity.
Qed.

Lemma strLe_refl s : strLe s s = true.
Proof. unfold strLe, String.leb. rewrite string_compare_refl. reflexivity. Qed.

Lemma strLe_trans s1 s2 s3 :
  strLe s1 s2 = true → strLe s2 s3 = true → strLe s1 s3 = true.
Proof.
  unfold strLe, String.leb.
  destruct (String.compare s1 s2) eqn:H12; try discriminate;
    destruct (String.compare s2 s3) eqn:H23; try discriminate; intros _ _.
  - apply String.compare_eq_iff in H12, H23. subst.
    rewrite string_compare_refl. reflexivity.
  - apply String.compare_eq_iff in H12. subst. rewrite H23. reflexivity.
  - apply String.compare_eq_iff in H23. subst. rewrite H12. reflexivity.
  - rewrite (string_compare_lt_trans _ _ _ H12 H23). reflexivity.
Qed.

(** The comparison handed to [sort.Slice] decides [rankLe]. *)
Lemma walkLess_rankLe ranks x y :
  walkLess ranks x y = true ↔ rankLe ranks x y.
Proof.
  unfold walkLess, rankLe.
  destruct (Nat.ltb_spec (getRank ranks x) (getRank ranks y)) as [Hlt|Hge].
  - split; [left; exact Hlt|reflexivity].
  - destruct (Nat.eqb_spec (getRank ranks x) (getRank ranks y)) as [Heq|Hne].
    + split; [intros H; right; split; assumption|].
      intros [Hlt|[_ H]]; [lia|exact H].
    + split; [discriminate|]. intros [Hlt|[Heq _]]; [lia|contradiction].
Qed.

#[local] Instance rankLe_trans ranks : Transitive (rankLe ranks).
Proof.
  intros x y z [Hxy|[Hxy Lxy]] [Hyz|[Hyz Lyz]]; unfold rankLe.
  - left. lia.
  - left. lia.
  - left. lia.
  - right. split; [lia|]. eapply strLe_trans; eassumption.
Qed.

#[local] Instance rankLe_total ranks : Total (rankLe ranks).
Proof.
  intros x y. unfold rankLe.
  destruct (lt_eq_lt_dec (getRank ranks x) (getRank ranks y)) as [[H|H]|H].
  - left. left. exact H.
  - destruct (String.leb_total x y) as [L|L].
    + left. right. split; assumption.
    + right. right. split; [symmetry; exact H|exact L].
  - right. left. exact H.
Qed.

#[local] Instance rankLe_antisym ranks : AntiSymm (=) (rankLe ranks).
Proof.
  intros x y [Hxy|[Hxy Lxy]] [Hyx|[Hyx Lyx]]; try lia.
  apply String.leb_antisym; assumption.
Qed.

Section InsertionSort.
Context {A : Type} (less : A → A → bool) (R : relation A).
Hypothesis less_R : ∀ x y, less x y = true ↔ R x y.
Context `{!Transitive R, !Total R}.

Lemma bubble_Permutation x l : bubble less x l ≡ₚ x :: l.
Proof.
  induction l as [|y ys IH]; cbn; [reflexivity|].
  destruct (less x y); [|reflexivity].
  rewrite IH. apply perm_swap.
Qed.

Lemma bubble_sorted x l :
  StronglySorted (flip R) l → StronglySorted (flip R) (bubble less x l).
Proof.
  induction l as [|y ys IH]; cbn; intros Hs.
  - repeat constructor.
  - apply StronglySorted_cons in Hs as [Hy Hs].
    destruct (less x y) eqn:Hxy.
    + apply less_R in Hxy. apply StronglySorted_cons. split; [|auto].
      rewrite (bubble_Permutation x ys). constructor; assumption.
    + assert (R y x) as Hyx.
      { destruct (total R x y) as [H|H]; [|exact H].
        apply less_R in H. congruence. }
      apply StronglySorted_cons. split.
      * constructor; [exact Hyx|].
        eapply Forall_impl; [exact Hy|]. intros z Hz. unfold flip in *.
        etransitivity; eassumption.
      * apply StronglySorted_cons. split; assumption.
Qed.

Lemma insertion_loop acc l :
  StronglySorted (flip R) acc →
  StronglySorted (flip R) (fold_left (λ acc x, bubble less x acc) l acc)
  ∧ fold_left (λ acc x, bubble less x acc) l acc ≡ₚ l ++ acc.
Proof.
  revert acc. induction l as [|x l IH]; intros acc Hs; cbn.
  - split; [exact Hs|reflexivity].
  - destruct (IH (bubble less x acc) (bubble_sorted x acc Hs)) as [H1 H2].
    split; [exact H1|]. rewrite H2, bubble_Permutation.
    symmetry. apply Permutation_middle.
Qed.

Lemma rev_sorted l : StronglySorted (flip R) l → StronglySorted R (rev l).
Proof.
  induction l as [|x l IH]; cbn; intros Hs; [constructor|].
  apply StronglySorted_cons in Hs as [Hx Hs].
  apply StronglySorted_app_2; [|auto|repeat constructor].
  intros a b Ha Hb. apply list_elem_of_singleton in Hb as ->.
  rewrite Forall_forall in Hx. apply Hx.
  apply list_elem_of_In. apply in_rev. apply list_elem_of_In. exact Ha.
Qed.

Lemma sort_Slice_sorted l : StronglySorted R (sort_Slice less l).
Proof.
  unfold sort_Slice. apply rev_sorted.
  apply (insertion_loop [] l). constructor.
Qed.

Lemma sort_Slice_Permutation l : sort_Slice less l ≡ₚ l.
Proof.
  unfold sort_Slice. rewrite <- Permutation_rev.
  destruct (insertion_loop [] l) as [_ H]; [constructor|].
  rewrite H, app_nil_r. reflexivity.
Qed.

(** Whatever order the input comes in, the output is the same. *)
Lemma sort_Slice_order `{!AntiSymm (=) R} l1 l2 :
  l1 ≡ₚ l2 → sort_Slice less l1 = sort_Slice less l2.
Proof.
  intros H. apply (StronglySorted_unique R); try apply sort_Slice_sorted.
  rewrite !sort_Slice_Permutation. exact H.
Qed.
End InsertionSort.

(** The rank of an id: the position of the first prefix it starts with,
    and past the prefixes the length of the list, plus one when the id has
    no dot. *)
Lemma getRankFrom_prefix ranks i id k r :
  ranks !! k = Some r → HasPrefix id r = true →
  (∀ j r', j < k → ranks !! j = Some r' → HasPrefix id r' = false) →
  getRankFrom ranks i id = i + k.
Proof.
  revert i k. induction ranks as [|r0 ranks IH]; intros i k Hk Hp Hfirst.
  - discriminate.
  - destruct k as [|k]; cbn in *.
    + injection Hk as ->. rewrite Hp. lia.
    + rewrite (Hfirst 0 r0) by (lia || reflexivity).
      rewrite (IH (S i) k Hk Hp); [lia|].
      intros j r' Hj Hr'. apply (Hfirst (S j) r'); [lia|exact Hr'].
Qed.

Lemma getRankFrom_none ranks i id :
  (∀ r, r ∈ ranks → HasPrefix id r = false) →
  getRankFrom ranks i id
  = if Contains id "." then i + length ranks else i + length ranks + 1.
Proof.
  revert i. induction ranks as [|r0 ranks IH]; intros i Hnone; cbn.
  - destruct (Contains id "."); lia.
  - rewrite (Hnone r0) by (left; reflexivity).
    rewrite IH by (intros r Hr; apply Hnone; right; exact Hr).
    destruct (Contains id "."); lia.
Qed.

(** A visit without errors goes over all the units in order; a visit
    whose first error is at a unit stops there. *)
Lemma visit_recorder_all {E} (errAt : option loc → option E) us s :
  Forall (λ u, errAt u = None) us →
  visit (recorder errAt) us s = (s ++ us, None).
Proof.
  revert s. induction us as [|u us IH]; intros s Hall; cbn.
  - rewrite app_nil_r. reflexivity.
  - apply Forall_cons in Hall as [Hu Hall]. unfold recorder at 1.
    rewrite Hu, (IH _ Hall), <- app_assoc. reflexivity.
Qed.

Lemma visit_recorder_error {E} (errAt : option loc → option E) us1 u us2 e s :
  Forall (λ u, errAt u = None) us1 → errAt u = Some e →
  visit (recorder errAt) (us1 ++ u :: us2) s = (s ++ us1 ++ [u], Some e).
Proof.
  revert s. induction us1 as [|v us1 IH]; intros s Hall He; cbn.
  - unfold recorder. rewrite He. reflexivity.
  - apply Forall_cons in Hall as [Hv Hall]. unfold recorder at 1.
    rewrite Hv, (IH _ Hall He), <- app_assoc. reflexivity.
Qed.

(** *** Recursive ingestion *)

Lemma fresh_loc (h : gmap loc Package) : h !! fresh (dom h) = None.
Proof. apply not_elem_of_dom, is_fresh. Qed.

Lemma setImport_run σ par P path child :
  heap σ !! par = Some P →
  setImport par path child σ
  = Ok tt (mkWorld (<[par := wired P path child]> (heap σ))
                   (gc σ) (fs σ) (statLog σ)).
Proof. unfold setImport. intros ->. reflexivity. Qed.

Lemma node_at_run G a n σ : G !! a = Some n → node_at G a σ = Ok n σ.
Proof. unfold node_at. intros ->. reflexivity. Qed.

(** A change of the heap that keeps every package alive with its id
    keeps the id index well formed. *)
Lemma wf_heap σ h' :
  wf σ →
  (∀ l P, heap σ !! l = Some P → ∃ P', h' !! l = Some P' ∧ id P' = id P) →
  wf (mkWorld h' (gc σ) (fs σ) (statLog σ)).
Proof.
  intros Hwf Hh c i gp Hc Hi. cbn in *.
  destruct (Hwf c i gp Hc Hi) as (P & HP & Hid).
  destruct (Hh _ _ HP) as (P' & HP' & Hid'). exists P'. split; congruence.
Qed.

Lemma wf_setImport σ par P path child :
  wf σ → heap σ !! par = Some P →
  wf (mkWorld (<[par := wired P path child]> (heap σ)) (gc σ) (fs σ) (statLog σ)).
Proof.
  intros Hwf Hpar. apply wf_heap; [exact Hwf|]. intros l Q Hl.
  destruct (decide (par = l)) as [<-|Hne].
  - rewrite lookup_insert_eq. exists (wired P path child).
    split; [reflexivity|]. cbn. congruence.
  - rewrite lookup_insert_ne by exact Hne. eauto.
Qed.

Lemma wf_alloc σ P :
  wf σ → wf (mkWorld (<[fresh (dom (heap σ)) := P]> (heap σ)) (gc σ) (fs σ) (statLog σ)).
Proof.
  intros Hwf. apply wf_heap; [exact Hwf|]. intros l Q Hl.
  rewrite lookup_insert_ne; [eauto|]. intros <-. rewrite fresh_loc in Hl. discriminate.
Qed.

Section Children.
Variables (G : graph) (rk : ploc → nat) (n : nat).

(** The calls with one unit of fuel less do what is claimed. *)
Hypothesis calls :
  ∀ a node parent σ c,
    G !! a = Some node → rk a < n → gc σ = Some c → wf σ →
    (∀ par, parent = Some par → is_Some (heap σ !! par)) →
    ∃ σ', recusiveAdd n G a parent σ = Ok tt σ' ∧ added G node parent σ σ'.

(** The loop over the imports of a node, with the new unit [p] as the
    parent. *)
Lemma children_loop (ch : list (string * ploc)) p :
  ∀ σa ca Pa,
    (∀ k b, (k, b) ∈ ch → is_Some (G !! b) ∧ rk b < n) →
    gc σa = Some ca → wf σa → heap σa !! p = Some Pa →
    ∃ σb cb Pb,
      forEach ch (λ ip, recusiveAdd n G ip.2 (Some p)) σa = Ok tt σb
      ∧ gc σb = Some cb ∧ mu cb = mu ca ∧ fs σb = fs σa ∧ wf σb
      ∧ heap σb !! p = Some Pb
      ∧ id Pb = id Pa ∧ pkgPath Pb = pkgPath Pa ∧ files Pb = files Pa
      ∧ (∀ l, is_Some (heap σa !! l) → l ≠ p → heap σb !! l = heap σa !! l)
      ∧ (∃ extra, statLog σb = statLog σa ++ extra)
      ∧ (∀ key, liveEntry σa Pa key → liveEntry σb Pb key)
      ∧ (∀ k b nb, (k, b) ∈ ch → G !! b = Some nb →
           liveEntry σb Pb (PkgPath nb)).
Proof.
  induction ch as [|[k b] ch IH]; intros σa ca Pa Hch Hca Hwf Hp.
  - exists σa, ca, Pa. cbn. repeat split; try done.
    + exists []. rewrite app_nil_r. reflexivity.
    + intros k b nb Hin. inversion Hin.
  - destruct (Hch k b) as [[nb Hnb] Hrk]; [left|].
    destruct (calls b nb (Some p) σa ca Hnb Hrk Hca Hwf) as (σ1 & Hrun & Hadd).
    { intros par [= <-]. eauto. }
    destruct Hadd as (c0 & c1 & gp & Q & Hc0 & Hc1 & Hmu & Hfs & Hwf1 & Hid & HQ
                      & HidQ & Hold & Hnew & Hframe & Hwire).
    rewrite Hca in Hc0. injection Hc0 as <-.
    specialize (Hwire p Pa eq_refl Hp).
    assert (Hstat : ∃ extra, statLog σ1 = statLog σa ++ extra).
    { destruct (idMap ca !! ID nb) as [gp0|] eqn:E.
      - destruct (Hold gp0 eq_refl) as (_ & _ & ->). exists [].
        rewrite app_nil_r. reflexivity.
      - destruct (Hnew eq_refl) as (_ & _ & _ & _ & _ & _ & [pre ->] & _).
        eexists. reflexivity. }
    assert (Hlive1 : ∀ l, is_Some (heap σa !! l) → is_Some (heap σ1 !! l)).
    { intros l Hl. destruct (decide (l = p)) as [->|Hne].
      - rewrite Hwire. eauto.
      - rewrite Hframe; [exact Hl|exact Hl|congruence]. }
    destruct (IH σ1 c1 (wired Pa (PkgPath nb) (pkg gp)))
      as (σb & cb & Pb & Hrunb & Hcb & Hmub & Hfsb & Hwfb & Hpb & Hidb & Hpathb
          & Hfilesb & Hframeb & Hstatb & Hkeep & Hall); try assumption.
    { intros k' b' Hin. apply (Hch k' b'). right. exact Hin. }
    exists σb, cb, Pb. cbn [forEach]. rewrite bind_run. cbn [snd]. rewrite Hrun.
    split; [exact Hrunb|]. split; [exact Hcb|]. split; [congruence|].
    split; [congruence|]. split; [exact Hwfb|]. split; [exact Hpb|].
    split; [exact Hidb|]. split; [exact Hpathb|]. split; [exact Hfilesb|].
    split.
    { intros l Hl Hne. rewrite Hframeb; [|apply Hlive1; exact Hl|exact Hne].
      apply Hframe; [exact Hl|congruence]. }
    split.
    { destruct Hstat as [e1 He1], Hstatb as [e2 He2]. exists (e1 ++ e2).
      rewrite He2, He1, app_assoc. reflexivity. }
    assert (Hfirst : liveEntry σ1 (wired Pa (PkgPath nb) (pkg gp)) (PkgPath nb)).
    { exists (pkg gp). cbn. rewrite lookup_insert_eq. split; [reflexivity|].
      rewrite HQ. eauto. }
    split.
    { intros key (l & Hl & Hlive). apply Hkeep.
      destruct (decide (PkgPath nb = key)) as [<-|Hne]; [exact Hfirst|].
      exists l. cbn. rewrite lookup_insert_ne by exact Hne.
      split; [exact Hl|apply Hlive1; exact Hlive]. }
    intros k' b' nb' Hin Hnb'.
    apply elem_of_cons in Hin as [[= -> ->]|Hin].
    + rewrite Hnb in Hnb'. injection Hnb' as <-. apply Hkeep, Hfirst.
    + exact (Hall k' b' nb' Hin Hnb').
Qed.
End Children.

(** On a graph without a cycle, [recusiveAdd] returns once the fuel
    exceeds the rank of the node, and leaves what [added] says. *)
Lemma recusiveAdd_acyclic G rk :
  acyclic G rk →
  ∀ fuel a node parent σ c,
    G !! a = Some node → rk a < fuel → gc σ = Some c → wf σ →
    (∀ par, parent = Some par → is_Some (heap σ !! par)) →
    ∃ σ', recusiveAdd fuel G a parent σ = Ok tt σ' ∧ added G node parent σ σ'.
Proof.
  intros Hacyc. induction fuel as [|n IH];
    intros a node parent σ c Ha Hrk Hc Hwf Hpar; [lia|].
  cbn [recusiveAdd]. rewrite bind_run, (node_at_run _ _ _ _ Ha). mstep.
  destruct (idMap c !! ID node) as [gp0|] eqn:Hid.
  - (* the id is cached: the unit is reused and the recursion stops *)
    destruct (Hwf c _ gp0 Hc Hid) as (P0 & HP0 & HidP0).
    destruct parent as [par|].
    + destruct (Hpar par eq_refl) as [Ppar HPpar].
      rewrite (setImport_run _ _ _ _ _ HPpar). eexists. split; [reflexivity|].
      assert (Hwf' := wf_setImport σ par Ppar (PkgPath node) (pkg gp0) Hwf HPpar).
      destruct (Hwf' c _ gp0 Hc Hid) as (P0' & HP0' & HidP0').
      exists c, c, gp0, P0'. cbn [gc heap fs statLog].
      split; [exact Hc|]. split; [exact Hc|]. split; [reflexivity|].
      split; [reflexivity|]. split; [exact Hwf'|]. split; [exact Hid|].
      split; [exact HP0'|]. split; [exact HidP0'|].
      split. { intros g' Hg'. split; [reflexivity|]. split; congruence. }
      split; [congruence|].
      split. { intros l _ Hne. rewrite lookup_insert_ne; [reflexivity|congruence]. }
      intros par' Ppar' [= <-] HP. rewrite lookup_insert_eq. congruence.
    + exists σ. split; [reflexivity|].
      exists c, c, gp0, P0.
      split; [exact Hc|]. split; [exact Hc|]. split; [reflexivity|].
      split; [reflexivity|]. split; [exact Hwf|]. split; [exact Hid|].
      split; [exact HP0|]. split; [exact HidP0|].
      split. { intros g' Hg'. split; [reflexivity|]. split; congruence. }
      split; [congruence|].
      split; [reflexivity|]. intros par Ppar [=].
  - (* the id is new *)
    unfold create. rewrite bind_run. unfold alloc at 1.
    set (p := fresh (dom (heap σ))).
    set (Pnew := mkPackage (Name node) (ID node) (PkgPath node)
                           (CompiledGoFiles node) ∅).
    set (σ1 := mkWorld (<[p := Pnew]> (heap σ)) (gc σ) (fs σ) (statLog σ)).
    assert (Hfresh : heap σ !! p = None) by apply fresh_loc.
    assert (Hwf1 : wf σ1) by apply wf_alloc, Hwf.
    assert (Hp1 : heap σ1 !! p = Some Pnew) by apply lookup_insert_eq.
    destruct (children_loop G rk n IH (Imports node) p σ1 c Pnew)
      as (σ2 & c2 & P2 & Hrun2 & Hc2 & Hmu2 & Hfs2 & Hwf2 & Hp2 & Hid2 & Hpath2
          & Hfiles2 & Hframe2 & [extra Hstat2] & _ & Hall2); try assumption.
    { intros k b Hin. destruct (Hacyc a node k b Ha Hin) as [Hb Hlt].
      split; [exact Hb|lia]. }
    cbn in Hid2, Hpath2, Hfiles2.
    change (fs σ1) with (fs σ) in Hfs2.
    change (statLog σ1) with (statLog σ) in Hstat2.
    rewrite bind_run, Hrun2.
    destruct (put_wf σ2 c2 p P2 Hwf2 Hc2 Hp2) as (c3 & σ3 & Hev & Hput & Hσ3 & Hwf3).
    rewrite bind_run, Hput.
    set (gp := mkGlobalPackage p (statTime (fs σ2) P2)) in *.
    assert (Hheap3 : heap σ3 = heap σ2) by (rewrite Hσ3; reflexivity).
    assert (Hgc3 : gc σ3 = Some (stored gp P2 c3)) by (rewrite Hσ3; reflexivity).
    assert (Hold : ∀ l, is_Some (heap σ !! l) → heap σ3 !! l = heap σ !! l).
    { intros l Hl. assert (l ≠ p) by (intros ->; rewrite Hfresh in Hl; by destruct Hl).
      rewrite Hheap3, Hframe2; [|cbn; rewrite lookup_insert_ne by done; exact Hl|done].
      cbn. apply lookup_insert_ne. done. }
    assert (Hnew : heap σ !! pkg gp = None
              ∧ pkgPath P2 = PkgPath node ∧ files P2 = CompiledGoFiles node
              ∧ pathMap (stored gp P2 c3) !! PkgPath node = Some gp
              ∧ (∀ file, file ∈ CompiledGoFiles node →
                   fileMap (stored gp P2 c3) !! LowerDriver file = Some gp)
              ∧ modTime gp = statTime (fs σ) P2
              ∧ (∃ pre, statLog σ3 = statLog σ ++ pre ++ statName P2)).
    { split; [exact Hfresh|]. split; [exact Hpath2|]. split; [exact Hfiles2|].
      split. { cbn. rewrite Hpath2. apply lookup_insert_eq. }
      split. { intros file Hin. cbn. apply putFiles_lookup_file. congruence. }
      split. { cbn. rewrite Hfs2. reflexivity. }
      exists extra. rewrite Hσ3. cbn. rewrite Hstat2, app_assoc. reflexivity. }
    assert (Hmu3 : mu (stored gp P2 c3) = mu c).
    { cbn. rewrite (evicted_mu _ _ _ _ Hev). exact Hmu2. }
    assert (Hid3 : idMap (stored gp P2 c3) !! ID node = Some gp).
    { cbn. rewrite Hid2. apply lookup_insert_eq. }
    destruct Hnew as (N1 & N2 & N3 & N4 & N5 & N6 & N7).
    destruct parent as [par|].
    + destruct (Hpar par eq_refl) as [Ppar HPpar].
      assert (Hne : par ≠ p) by (intros ->; congruence).
      assert (HPpar3 : heap σ3 !! par = Some Ppar) by (rewrite Hold; eauto).
      rewrite bind_run. erewrite deref_run by (rewrite Hheap3; exact Hp2).
      rewrite (setImport_run _ _ _ _ _ HPpar3). eexists. split; [reflexivity|].
      exists c, (stored gp P2 c3), gp, P2. cbn [gc heap fs statLog].
      split; [exact Hc|]. split; [exact Hgc3|]. split; [exact Hmu3|].
      split; [rewrite Hσ3; cbn; congruence|].
      split. { apply wf_setImport; assumption. }
      split; [exact Hid3|].
      split. { cbn. rewrite lookup_insert_ne by exact Hne. rewrite Hheap3. exact Hp2. }
      split; [cbn; congruence|].
      split. { intros gp0 Hgp0. congruence. }
      split.
      { intros _. repeat split; try assumption.
        intros k b nb Hin Hnb. destruct (Hall2 k b nb Hin Hnb) as (l & Hl & Hlive).
        exists l. split; [exact Hl|]. cbn.
        destruct (decide (par = l)) as [<-|Hne'].
        - rewrite lookup_insert_eq. eauto.
        - rewrite lookup_insert_ne by exact Hne'. rewrite Hheap3. exact Hlive. }
      split.
      { intros l Hl Hnpar. rewrite lookup_insert_ne by congruence.
        apply Hold, Hl. }
      intros par' Ppar' [= <-] HP. rewrite lookup_insert_eq.
      rewrite N2. cbn. congruence.
    + eexists. split; [reflexivity|].
      exists c, (stored gp P2 c3), gp, P2.
      split; [exact Hc|]. split; [exact Hgc3|]. split; [exact Hmu3|].
      split; [rewrite Hσ3; cbn; congruence|].
      split; [exact Hwf3|]. split; [exact Hid3|].
      split; [rewrite Hheap3; exact Hp2|].
      split; [cbn; congruence|].
      split. { intros gp0 Hgp0. congruence. }
      split.
      { intros _. repeat split; try assumption.
        intros k b nb Hin Hnb. destruct (Hall2 k b nb Hin Hnb) as (l & Hl & Hlive).
        exists l. split; [exact Hl|]. rewrite Hheap3. exact Hlive. }
      split; [intros l Hl _; apply Hold, Hl|]. intros par Ppar [=].
Qed.

(** The guard of [recusiveAdd]: for an id that is cached, one unit of
    fuel is enough, no unit is made, and without a parent nothing
    changes at all. *)
Lemma recusiveAdd_cached G fuel a node σ c gp :
  G !! a = Some node → gc σ = Some c → idMap c !! ID node = Some gp →
  recusiveAdd (S fuel) G a None σ = Ok tt σ.
Proof.
  intros Ha Hc Hid. cbn [recusiveAdd].
  rewrite bind_run, (node_at_run _ _ _ _ Ha). mstep. rewrite Hid. reflexivity.
Qed.

(** [Add] on a graph without a cycle. *)
Lemma Add_acyclic G rk fuel a node σ c :
  acyclic G rk → G !! a = Some node → rk a < fuel →
  gc σ = Some c → unlocked c → wf σ →
  ∃ σ', Add fuel G a σ = Ok tt σ' ∧ added G node None σ σ'.
Proof.
  intros Hacyc Ha Hrk Hc Hu Hwf. unfold Add. mstep. rewrite Hc.
  rewrite bind_run, (Lock_run _ _ Hc Hu), bind_run.
  set (cL := withMu (mkRWMutex true 0) c).
  assert (HwfL : wf (withCache σ cL)).
  { intros c0 i gp [= <-] Hi. exact (Hwf c i gp Hc Hi). }
  destruct (recusiveAdd_acyclic G rk Hacyc fuel a node None (withCache σ cL) cL
              Ha Hrk eq_refl HwfL) as (σ1 & Hrun & Hadd); [discriminate|].
  rewrite Hrun.
  destruct Hadd as (c0 & c1 & gp & P & [= <-] & Hc1 & Hmu & Hfs & Hwf1 & Hid & HP
                    & HidP & Hold & Hnew & Hframe & _).
  erewrite Unlock_run by eassumption.
  eexists. split; [reflexivity|].
  exists c, (withMu (mkRWMutex false 0) c1), gp, P.
  split; [exact Hc|]. split; [reflexivity|]. split; [symmetry; exact Hu|].
  split; [exact Hfs|].
  split. { intros c' i gp' [= <-] Hi. exact (Hwf1 c1 i gp' Hc1 Hi). }
  split; [exact Hid|]. split; [exact HP|]. split; [exact HidP|].
  split.
  { intros gp0 Hgp0. destruct (Hold gp0 Hgp0) as (-> & -> & Hlog).
    split; [|split; [reflexivity|exact Hlog]].
    transitivity (withMu (mkRWMutex false 0) c);
      [reflexivity|apply withMu_unlocked, Hu]. }
  split.
  { intros Hnone. destruct (Hnew Hnone) as (N1 & N2 & N3 & N4 & N5 & N6 & N7 & N8).
    repeat split; assumption. }
  split; [exact Hframe|]. intros par Ppar [=].
Qed.

(** The cycle of the design document: as long as neither id is cached,
    each call makes a unit and calls on, whatever the fuel. *)
Lemma recusiveAdd_cycle fuel :
  ∀ a parent σ c,
    a = 1%positive ∨ a = 2%positive →
    gc σ = Some c → idMap c !! "C" = None → idMap c !! "D" = None →
    recusiveAdd fuel Sample.cycle a parent σ = OutOfFuel.
Proof.
  induction fuel as [|n IH]; intros a parent σ c Ha Hc HC HD; [reflexivity|].
  cbn [recusiveAdd].
  destruct Ha as [-> | ->].
  - rewrite bind_run, (node_at_run _ _ _ _ (eq_refl : Sample.cycle !! 1%positive = Some _)).
    mstep. cbn [ID Imports]. rewrite HC.
    rewrite bind_run. unfold create, alloc at 1. rewrite bind_run.
    cbn [forEach snd]. rewrite bind_run.
    erewrite IH; [reflexivity|right; reflexivity|exact Hc|exact HC|exact HD].
  - rewrite bind_run, (node_at_run _ _ _ _ (eq_refl : Sample.cycle !! 2%positive = Some _)).
    mstep. cbn [ID Imports]. rewrite HD.
    rewrite bind_run. unfold create, alloc at 1. rewrite bind_run.
    cbn [forEach snd]. rewrite bind_run.
    erewrite IH; [reflexivity|left; reflexivity|exact Hc|exact HC|exact HD].
Qed.

Lemma chain_acyclic : acyclic Sample.chain Sample.chainRank.
Proof.
  intros a n k b Ha Hin. unfold Sample.chain, graph, ploc in *.
  destruct (decide (a = 1%positive)) as [->|H1].
  - rewrite lookup_insert_eq in Ha. injection Ha as <-. cbn in Hin.
    apply list_elem_of_singleton in Hin as [= -> ->].
    split; [eexists; reflexivity|cbn; lia].
  - rewrite lookup_insert_ne in Ha by congruence.
    destruct (decide (a = 2%positive)) as [->|H2].
    + rewrite lookup_insert_eq in Ha. injection Ha as <-. inversion Hin.
    + rewrite lookup_insert_ne, lookup_empty in Ha by congruence. discriminate.
Qed.

Lemma wf_empty_index σ c : gc σ = Some c → idMap c = ∅ → wf σ.
Proof.
  intros Hc He c' i gp Hc' Hi. rewrite Hc in Hc'. injection Hc' as <-.
  rewrite He, lookup_empty in Hi. discriminate.
Qed.

(** *** Three-index consistency *)

Lemma deleteFiles_lookup fl m k :
  deleteFiles fl m !! k
  = if decide (k ∈ map LowerDriver fl) then None else m !! k.
Proof.
  revert m. induction fl as [|file fl IH]; intros m.
  - cbn. destruct (decide (k ∈ [])) as [H|_]; [inversion H|reflexivity].
  - change (deleteFiles fl (delete (LowerDriver file) m) !! k
            = if decide (k ∈ LowerDriver file :: map LowerDriver fl) then None
              else m !! k).
    rewrite IH.
    destruct (decide (k ∈ map LowerDriver fl)) as [Hin|Hnin].
    + rewrite decide_True by (right; exact Hin). reflexivity.
    + destruct (decide (LowerDriver file = k)) as [<-|Hne].
      * rewrite decide_True by left. apply lookup_delete_eq.
      * rewrite lookup_delete_ne by exact Hne.
        rewrite decide_False; [reflexivity|].
        intros [H|H]%elem_of_cons; [congruence|contradiction].
Qed.

Lemma putFiles_lookup_other p fl m k :
  k ∉ map LowerDriver fl → putFiles p fl m !! k = m !! k.
Proof.
  revert m. induction fl as [|file fl IH]; intros m Hk; [reflexivity|].
  change (putFiles p fl (<[LowerDriver file := p]> m) !! k = m !! k).
  rewrite IH by (intros H; apply Hk; right; exact H).
  apply lookup_insert_ne. intros <-. apply Hk. left.
Qed.

(** What [evicted] leaves in the three indices. *)
Lemma evicted_lookups σ c i c1 :
  wf σ → consistent σ → gc σ = Some c → evicted (heap σ) i c = Some c1 →
  idMap c1 = delete i (idMap c)
  ∧ (∀ j gp P, j ≠ i → idMap c !! j = Some gp → heap σ !! pkg gp = Some P →
       pathMap c1 !! pkgPath P = Some gp
       ∧ ∀ file, file ∈ files P → fileMap c1 !! LowerDriver file = Some gp)
  ∧ (∀ k gp P, pathMap c1 !! k = Some gp → heap σ !! pkg gp = Some P →
       pathMap c !! k = Some gp ∧ id P ≠ i)
  ∧ (∀ k gp P, fileMap c1 !! k = Some gp → heap σ !! pkg gp = Some P →
       fileMap c !! k = Some gp ∧ id P ≠ i).
Proof.
  intros Hwf Hcons Hc Hev. destruct (Hcons c Hc) as (C1 & C2 & C3).
  split; [exact (evicted_idMap _ _ _ _ Hev)|].
  unfold evicted in Hev. destruct (idMap c !! i) as [gp0|] eqn:Hi.
  - destruct (Hwf c i gp0 Hc Hi) as (P0 & HP0 & HidP0). rewrite HP0 in Hev.
    injection Hev as <-. cbn [deleted pathMap fileMap].
    destruct (C1 i gp0 P0 Hi HP0) as [Hpath0 Hfiles0].
    assert (Hother : ∀ gp P, heap σ !! pkg gp = Some P →
              idMap c !! id P = Some gp → id P ≠ i → gp ≠ gp0).
    { intros gp P HP Hgp Hne ->. rewrite HP0 in HP. injection HP as <-. congruence. }
    split; [|split].
    + intros j gp P Hj Hgp HP. destruct (C1 j gp P Hgp HP) as [Hpath Hfiles].
      destruct (Hwf c j gp Hc Hgp) as (P' & HP' & HidP').
      rewrite HP in HP'. injection HP' as <-.
      assert (gp ≠ gp0) as Hgp0.
      { apply (Hother gp P HP); congruence. }
      split.
      * rewrite lookup_delete_ne; [exact Hpath|]. intros Heq.
        rewrite Heq, Hpath in Hpath0. congruence.
      * intros file Hfile. rewrite deleteFiles_lookup.
        destruct (decide (LowerDriver file ∈ map LowerDriver (files P0))) as [Hin|_];
          [|exact (Hfiles file Hfile)].
        apply list_elem_of_fmap in Hin as (file0 & Heq & Hin0).
        pose proof (Hfiles0 file0 Hin0) as H0. rewrite <- Heq in H0.
        rewrite (Hfiles file Hfile) in H0. congruence.
    + intros k gp P Hk HP.
      destruct (decide (pkgPath P0 = k)) as [<-|Hne];
        [rewrite lookup_delete_eq in Hk; discriminate|].
      rewrite lookup_delete_ne in Hk by exact Hne. split; [exact Hk|].
      destruct (C2 k gp P Hk HP) as [-> Hgp]. intros Heq.
      rewrite Heq, Hi in Hgp. injection Hgp as ->.
      rewrite HP0 in HP. injection HP as <-. congruence.
    + intros k gp P Hk HP. rewrite deleteFiles_lookup in Hk.
      destruct (decide (k ∈ map LowerDriver (files P0))) as [Hin|Hnin];
        [discriminate|].
      split; [exact Hk|]. destruct (C3 k gp P Hk HP) as [Hkin Hgp]. intros Heq.
      rewrite Heq, Hi in Hgp. injection Hgp as ->.
      rewrite HP0 in HP. injection HP as <-. contradiction.
  - injection Hev as <-. split; [|split].
    + intros j gp P _ Hgp HP. exact (C1 j gp P Hgp HP).
    + intros k gp P Hk HP. split; [exact Hk|].
      destruct (C2 k gp P Hk HP) as [_ Hgp]. congruence.
    + intros k gp P Hk HP. split; [exact Hk|].
      destruct (C3 k gp P Hk HP) as [_ Hgp]. congruence.
Qed.

(** [Delete] keeps a consistent cache consistent. *)
Lemma Delete_keeps_consistent σ c i :
  gc σ = Some c → unlocked c → wf σ → consistent σ →
  ∃ σ', Delete i σ = Ok tt σ' ∧ wf σ' ∧ consistent σ'.
Proof.
  intros Hc Hu Hwf Hcons.
  destruct (wf_evicted σ c i Hwf Hc) as [c1 Hev].
  destruct (evicted_lookups σ c i c1 Hwf Hcons Hc Hev) as (E1 & E2 & E3 & E4).
  destruct (Hcons c Hc) as (C1 & C2 & C3).
  exists (withCache σ c1). rewrite (Delete_run _ _ _ Hc Hu), (delete_run _ _ _ Hc), Hev.
  split; [reflexivity|]. split.
  - intros c' j gp [= <-] Hj. rewrite E1 in Hj.
    apply lookup_delete_Some in Hj as [_ Hj]. exact (Hwf c j gp Hc Hj).
  - intros c' [= <-]. cbn [heap withCache]. split; [|split].
    + intros j gp P Hj HP. rewrite E1 in Hj.
      apply lookup_delete_Some in Hj as [Hne Hj]. apply (E2 j gp P); congruence.
    + intros k gp P Hk HP. destruct (E3 k gp P Hk HP) as [Hk' Hne].
      destruct (C2 k gp P Hk' HP) as [-> Hgp]. split; [reflexivity|].
      rewrite E1, lookup_delete_ne by congruence. exact Hgp.
    + intros k gp P Hk HP. destruct (E4 k gp P Hk HP) as [Hk' Hne].
      destruct (C3 k gp P Hk' HP) as [Hin Hgp]. split; [exact Hin|].
      rewrite E1, lookup_delete_ne by congruence. exact Hgp.
Qed.

(** [Put] keeps a consistent cache consistent when the path and the files
    of the unit are not held by a unit with another id. *)
Lemma Put_keeps_consistent σ c l P :
  gc σ = Some c → unlocked c → wf σ → consistent σ →
  heap σ !! l = Some P → unoccupied σ P →
  ∃ σ', Put l σ = Ok tt σ' ∧ wf σ' ∧ consistent σ'.
Proof.
  intros Hc Hu Hwf Hcons Hl Hfree.
  destruct (put_wf σ c l P Hwf Hc Hl) as (c1 & σ' & Hev & Hput & Hσ' & Hwf').
  destruct (evicted_lookups σ c (id P) c1 Hwf Hcons Hc Hev) as (E1 & E2 & E3 & E4).
  destruct (Hcons c Hc) as (C1 & C2 & C3).
  exists σ'. rewrite (Put_run _ _ _ _ Hc Hu Hl). split; [exact Hput|].
  split; [exact Hwf'|]. rewrite Hσ'. intros c' [= <-].
  cbn [heap stored idMap pathMap fileMap].
  set (gp := mkGlobalPackage l (statTime (fs σ) P)).
  split; [|split].
  - intros j g Q Hj HQ. destruct (decide (id P = j)) as [<-|Hne].
    + rewrite lookup_insert_eq in Hj. injection Hj as <-. cbn in HQ.
      rewrite Hl in HQ. injection HQ as <-.
      split; [apply lookup_insert_eq|]. intros file Hf.
      apply putFiles_lookup_file, Hf.
    + rewrite lookup_insert_ne in Hj by exact Hne. rewrite E1 in Hj.
      apply lookup_delete_Some in Hj as [_ Hj].
      destruct (Hwf c j g Hc Hj) as (Q' & HQ' & HidQ').
      rewrite HQ in HQ'. injection HQ' as <-.
      destruct (E2 j g Q) as [Hpath Hfiles]; [congruence|exact Hj|exact HQ|].
      destruct (E3 _ _ _ Hpath HQ) as [Hpath0 _].
      destruct (Hfree c g Q Hc HQ) as [F1 F2].
      split.
      * rewrite lookup_insert_ne; [exact Hpath|]. intros Heq.
        rewrite <- Heq in Hpath0. apply F1 in Hpath0. congruence.
      * intros file Hf. rewrite putFiles_lookup_other; [exact (Hfiles file Hf)|].
        intros Hin. apply list_elem_of_fmap in Hin as (file0 & Heq & Hin0).
        destruct (E4 _ _ _ (Hfiles file Hf) HQ) as [Hfile0 _].
        rewrite Heq in Hfile0. apply (F2 file0 Hin0) in Hfile0. congruence.
  - intros k g Q Hk HQ. destruct (decide (pkgPath P = k)) as [<-|Hne].
    + rewrite lookup_insert_eq in Hk. injection Hk as <-. cbn in HQ.
      rewrite Hl in HQ. injection HQ as <-.
      split; [reflexivity|apply lookup_insert_eq].
    + rewrite lookup_insert_ne in Hk by exact Hne.
      destruct (E3 k g Q Hk HQ) as [Hk' HneQ].
      destruct (C2 k g Q Hk' HQ) as [-> Hg]. split; [reflexivity|].
      rewrite lookup_insert_ne by congruence.
      rewrite E1, lookup_delete_ne by congruence. exact Hg.
  - intros k g Q Hk HQ.
    destruct (decide (k ∈ map LowerDriver (files P))) as [Hin|Hnin].
    + rewrite putFiles_lookup in Hk by (right; exact Hin). injection Hk as <-.
      cbn in HQ. rewrite Hl in HQ. injection HQ as <-.
      split; [exact Hin|apply lookup_insert_eq].
    + rewrite putFiles_lookup_other in Hk by exact Hnin.
      destruct (E4 k g Q Hk HQ) as [Hk' HneQ].
      destruct (C3 k g Q Hk' HQ) as [Hkin Hg]. split; [exact Hkin|].
      rewrite lookup_insert_ne by congruence.
      rewrite E1, lookup_delete_ne by congruence. exact Hg.
Qed.

(** *** The claims about the cache *)

Lemma afterTwoPuts_run :
  Sample.afterTwoPuts
  = Ok tt (mkWorld (heap Sample.twoUnits)
             (Some (mkGlobalCache (mkRWMutex false 0)
                      (<["a [a.test]" := mkGlobalPackage 2%positive zeroTime]>
                         {["a" := mkGlobalPackage 1%positive zeroTime]})
                      {["pkg/a" := mkGlobalPackage 2%positive zeroTime]}
                      {["a.go" := mkGlobalPackage 2%positive zeroTime]}))
             ∅ ["a.go"; "a.go"]).
Proof. vm_compute. reflexivity. Qed.

Lemma afterDelete_run :
  Sample.afterDelete
  = Ok tt (mkWorld (heap Sample.twoUnits)
             (Some (mkGlobalCache (mkRWMutex false 0)
                      {["a [a.test]" := mkGlobalPackage 2%positive zeroTime]} ∅ ∅))
             ∅ ["a.go"; "a.go"]).
Proof. vm_compute. reflexivity. Qed.

(** C1.  The three indices can disagree.  Two units with different ids,
    the same canonical path and the same file are put one after the other:
    the first unit stays in the id index while the path index and the file
    index hold the second, so the world is not [consistent].  A [Delete]
    of the first id then empties the path and the file index, and the
    second unit is left in the id index alone. *)
Theorem put_on_occupied_path_strands_unit :
  match Sample.afterTwoPuts with
  | Ok _ σ =>
      match gc σ with
      | Some c =>
          idMap c !! "a" = Some (mkGlobalPackage 1%positive zeroTime)
          ∧ idMap c !! "a [a.test]" = Some (mkGlobalPackage 2%positive zeroTime)
          ∧ pathMap c !! "pkg/a" = Some (mkGlobalPackage 2%positive zeroTime)
          ∧ fileMap c !! LowerDriver "a.go" = Some (mkGlobalPackage 2%positive zeroTime)
          ∧ ¬ consistent σ
      | None => False
      end
  | _ => False
  end
  ∧ match Sample.afterDelete with
    | Ok _ σ =>
        match gc σ with
        | Some c =>
            idMap c !! "a" = None
            ∧ idMap c !! "a [a.test]" = Some (mkGlobalPackage 2%positive zeroTime)
            ∧ pathMap c !! "pkg/a" = None
            ∧ fileMap c !! LowerDriver "a.go" = None
            ∧ ¬ consistent σ
        | None => False
        end
    | _ => False
    end.
Proof.
  rewrite afterTwoPuts_run, afterDelete_run. cbn [gc]. split.
  - repeat (split; [vm_compute; reflexivity|]).
    intros Hcons. destruct (Hcons _ eq_refl) as (Hid & _).
    destruct (Hid "a" (mkGlobalPackage 1%positive zeroTime) Sample.pkgA) as [Hp _];
      [vm_compute; reflexivity..|].
    vm_compute in Hp. discriminate.
  - repeat (split; [vm_compute; reflexivity|]).
    intros Hcons. destruct (Hcons _ eq_refl) as (Hid & _).
    destruct (Hid "a [a.test]" (mkGlobalPackage 2%positive zeroTime) Sample.pkgA') as [Hp _];
      [vm_compute; reflexivity..|].
    vm_compute in Hp. discriminate.
Qed.

Lemma cycle_exhausts_fuel fuel :
  Add fuel Sample.cycle 1%positive Sample.empty = OutOfFuel.
Proof.
  unfold Add. mstep. cbn [gc Sample.empty].
  rewrite bind_run. erewrite Lock_run by reflexivity. rewrite bind_run.
  erewrite recusiveAdd_cycle; [reflexivity|left; reflexivity|reflexivity|..];
    reflexivity.
Qed.

(** C2, the claim as written fails: on the cycle where C imports D and D
    imports C, with neither cached, there is no depth of recursion within
    which [Add] returns. *)
Lemma Add_on_cycle_never_returns :
  ¬ ∃ fuel σ', Add fuel Sample.cycle 1%positive Sample.empty = Ok tt σ'.
Proof. intros (fuel & σ' & H). rewrite cycle_exhausts_fuel in H. discriminate. Qed.

(** C2, as the code has it.  On a graph without a cycle [Add] returns as
    soon as the recursion may go deeper than the rank of the root, and so
    does every call [recusiveAdd(node, parent)]; what is left is described
    by [added]: the id of the node is cached by exactly the unit that
    carries it, a unit that was cached is reused, a new unit is found in
    all three indices and has an entry for each of its imports, and the
    parent's dependency map gets the unit under the canonical path of the
    node.  The guard: a node whose id is cached is not descended into, one
    level of recursion suffices and nothing changes. *)
Theorem Add_terminates_on_acyclic_graph G rk fuel a node σ c :
  acyclic G rk → G !! a = Some node → rk a < fuel →
  gc σ = Some c → unlocked c → wf σ →
  (∃ σ', Add fuel G a σ = Ok tt σ' ∧ added G node None σ σ')
  ∧ (∀ parent σ0 c0,
       gc σ0 = Some c0 → wf σ0 →
       (∀ par, parent = Some par → is_Some (heap σ0 !! par)) →
       ∃ σ', recusiveAdd fuel G a parent σ0 = Ok tt σ'
             ∧ added G node parent σ0 σ')
  ∧ (∀ gp n, idMap c !! ID node = Some gp →
       recusiveAdd (S n) G a None σ = Ok tt σ).
Proof.
  intros Hacyc Ha Hrk Hc Hu Hwf. split; [|split].
  - eapply Add_acyclic; eassumption.
  - intros parent σ0 c0 Hc0 Hwf0 Hpar.
    eapply recusiveAdd_acyclic; eassumption.
  - intros gp n Hid. eapply recusiveAdd_cached; eassumption.
Qed.

Lemma Add_terminates_on_acyclic_graph_witness :
  acyclic Sample.chain Sample.chainRank
  ∧ Sample.chain !! 1%positive
    = Some (mkPackages_Package "c" "C" "pkg/c" ["c.go"] [("pkg/d", 2%positive)])
  ∧ Sample.chainRank 1%positive < 2
  ∧ unlocked NewCache ∧ wf Sample.empty
  ∧ ∃ σ', Add 2 Sample.chain 1%positive Sample.empty = Ok tt σ'
          ∧ added Sample.chain
              (mkPackages_Package "c" "C" "pkg/c" ["c.go"] [("pkg/d", 2%positive)])
              None Sample.empty σ'.
Proof.
  pose proof (wf_empty_index Sample.empty NewCache eq_refl eq_refl) as Hwf.
  split; [exact chain_acyclic|]. split; [reflexivity|].
  split; [cbn; lia|]. split; [reflexivity|]. split; [exact Hwf|].
  exact (proj1 (Add_terminates_on_acyclic_graph Sample.chain Sample.chainRank 2
                  1%positive _ Sample.empty NewCache chain_acyclic eq_refl
                  (le_n 2) eq_refl eq_refl Hwf)).
Defined.

(** C3.  [Walk] on a cache whose mutex no writer holds, whatever order
    [range] yields the ids in: the ids are visited in the order [order],
    which holds every cached id once and is sorted by rank and then by id
    (distinct ids are distinct units in a well-formed world);
    the rank of an id is the position of the first prefix it starts with,
    else the number of prefixes when the id has a dot, else that number
    plus one; every visited unit is a cached one; a visitor that never
    fails sees all of them and [Walk] returns no error; a visitor whose
    first failure is at some unit sees the units up to that one and [Walk]
    returns that error; the world is as before.  With the prefix
    [myapp/] and the four ids of the example the order is [myapp/bar],
    [myapp/foo], [github.com/x/y], [fmt]. *)
Theorem Walk_visits_by_rank_then_id {E} σ c ranks rangeOrder
    (errAt : option loc → option E) :
  gc σ = Some c → writer (mu c) = false →
  rangeOrder ≡ₚ (map_to_list (idMap c)).*1 →
  let order := sort_Slice (walkLess ranks) rangeOrder in
  order ≡ₚ (map_to_list (idMap c)).*1
  ∧ NoDup order
  ∧ StronglySorted (rankLe ranks) order
  ∧ (∀ id k r,
       ranks !! k = Some r → HasPrefix id r = true →
       (∀ j r', j < k → ranks !! j = Some r' → HasPrefix id r' = false) →
       getRank ranks id = k)
  ∧ (∀ id,
       (∀ r, r ∈ ranks → HasPrefix id r = false) →
       getRank ranks id
       = if Contains id "." then length ranks else length ranks + 1)
  ∧ Forall (λ i, ∃ gp, idMap c !! i = Some gp) order
  ∧ (wf σ → NoDup (units c order))
  ∧ (Forall (λ u, errAt u = None) (units c order) →
     Walk rangeOrder (recorder errAt) ranks [] σ = Ok (units c order, None) σ)
  ∧ (∀ ids1 i ids2 e,
       order = ids1 ++ i :: ids2 →
       Forall (λ u, errAt u = None) (units c ids1) →
       errAt (GlobalPackage_Package (idMap c !! i)) = Some e →
       Walk rangeOrder (recorder errAt) ranks [] σ
       = Ok (units c (ids1 ++ [i]), Some e) σ)
  ∧ (ranks = ["myapp/"] → rangeOrder ≡ₚ Sample.walkIds →
     order = ["myapp/bar"; "myapp/foo"; "github.com/x/y"; "fmt"]).
Proof.
  intros Hc Hw Hperm order.
  assert (Hord : order ≡ₚ (map_to_list (idMap c)).*1).
  { unfold order.
    rewrite (sort_Slice_Permutation (walkLess ranks) (rankLe ranks)
               (walkLess_rankLe ranks)).
    exact Hperm. }
  split; [exact Hord|]. split.
  { rewrite Hord. apply NoDup_fst_map_to_list. }
  split.
  { apply (sort_Slice_sorted (walkLess ranks) (rankLe ranks) (walkLess_rankLe ranks)). }
  split.
  { intros id k r Hk Hp Hfirst. unfold getRank.
    rewrite (getRankFrom_prefix ranks 0 id k r Hk Hp Hfirst). reflexivity. }
  split.
  { intros id Hnone. unfold getRank. rewrite (getRankFrom_none ranks 0 id Hnone).
    reflexivity. }
  split.
  { apply Forall_forall. intros i Hi. rewrite Hord in Hi.
    apply list_elem_of_fmap in Hi as ([i' gp] & -> & Hin).
    apply elem_of_map_to_list in Hin. exists gp. exact Hin. }
  split.
  { intros Hwf. apply NoDup_fmap_2_strong; [|rewrite Hord; apply NoDup_fst_map_to_list].
    intros x y Hx Hy Hxy. rewrite Hord in Hx, Hy.
    apply list_elem_of_fmap in Hx as ([x' gx] & -> & Hx).
    apply list_elem_of_fmap in Hy as ([y' gy] & -> & Hy).
    apply elem_of_map_to_list in Hx, Hy. cbn in *. rewrite Hx, Hy in Hxy.
    injection Hxy as Hxy.
    destruct (Hwf c _ _ Hc Hx) as (P & HP & <-).
    destruct (Hwf c _ _ Hc Hy) as (Q & HQ & <-). congruence. }
  split.
  { intros Hall. rewrite (Walk_run _ _ _ _ _ _ Hc Hw). fold order.
    rewrite (visit_recorder_all errAt _ [] Hall). reflexivity. }
  split.
  { intros ids1 i ids2 e Horder Hall He.
    rewrite (Walk_run _ _ _ _ _ _ Hc Hw). fold order. rewrite Horder.
    unfold units. rewrite !map_app. cbn [map].
    rewrite (visit_recorder_error errAt _ _ _ e [] Hall He). reflexivity. }
  intros -> Hex. unfold order.
  rewrite (sort_Slice_order (walkLess ["myapp/"]) (rankLe ["myapp/"])
             (walkLess_rankLe _) rangeOrder Sample.walkIds Hex).
  vm_compute. reflexivity.
Qed.

Lemma Walk_visits_by_rank_then_id_witness :
  gc Sample.walkWorld = Some Sample.walkCache
  ∧ writer (mu Sample.walkCache) = false
  ∧ Walk (map_to_list (idMap Sample.walkCache)).*1
         (recorder (λ _, @None string)) ["myapp/"] [] Sample.walkWorld
    = Ok ([Some 2%positive; Some 1%positive; Some 3%positive; Some 4%positive], None)
         Sample.walkWorld.
Proof.
  split; [reflexivity|]. split; [reflexivity|].
  pose proof (Walk_visits_by_rank_then_id Sample.walkWorld Sample.walkCache
                ["myapp/"] (map_to_list (idMap Sample.walkCache)).*1
                (λ _, @None string) eq_refl eq_refl (Permutation_refl _)) as H.
  destruct H as (_ & _ & _ & _ & _ & _ & _ & H & _).
  rewrite H; [reflexivity|].
  apply Forall_forall. intros; reflexivity.
Defined.

(** *** The calls of [os.Stat] made by an ingestion *)

Lemma statTime_files fs0 P P' :
  files P' = files P → statTime fs0 P' = statTime fs0 P.
Proof. unfold statTime. intros ->. reflexivity. Qed.

Lemma statNameAt_kept (h h' : gmap loc Package) l :
  (∀ x P, h !! x = Some P → ∃ P', h' !! x = Some P' ∧ files P' = files P) →
  is_Some (h !! l) → statNameAt h' l = statNameAt h l.
Proof.
  intros Hk [P HP]. destruct (Hk l P HP) as (P' & HP' & Hf).
  unfold statNameAt, statName. rewrite HP, HP', Hf. reflexivity.
Qed.

Lemma kept_refl σ : kept σ σ.
Proof. split; [reflexivity|]. split; [tauto|]. intros l P HP. eauto. Qed.

Lemma kept_trans σ1 σ2 σ3 : kept σ1 σ2 → kept σ2 σ3 → kept σ1 σ3.
Proof.
  intros (F1 & G1 & H1) (F2 & G2 & H2). split; [congruence|].
  split; [tauto|]. intros l P HP.
  destruct (H1 l P HP) as (P' & HP' & Hf'). destruct (H2 l P' HP') as (P'' & HP'' & Hf'').
  exists P''. split; [exact HP''|congruence].
Qed.

(** A step that makes no package, asks nothing and leaves the id index
    alone. *)
Lemma ingested_silent σ σ' :
  (∀ l, heap σ !! l = None → heap σ' !! l = None) →
  statLog σ' = statLog σ → idIndex σ' = idIndex σ →
  ingested σ σ' [].
Proof.
  intros Hh Hlog Hidx. split; [constructor|]. split.
  { intros l. split; [intros H; inversion H|].
    intros [Hn [P HP]]. rewrite (Hh l Hn) in HP. discriminate. }
  split; [cbn; rewrite app_nil_r; exact Hlog|].
  intros i gp Hi. left. rewrite <- Hidx. exact Hi.
Qed.

Lemma ingested_trans σ1 σ2 σ3 n1 n2 :
  ingested σ1 σ2 n1 → kept σ1 σ2 →
  ingested σ2 σ3 n2 → kept σ2 σ3 →
  ingested σ1 σ3 (n1 ++ n2).
Proof.
  intros (D1 & M1 & L1 & I1) (F1 & _ & K1) (D2 & M2 & L2 & I2) (F2 & _ & K2).
  split.
  { apply NoDup_app. split; [exact D1|]. split; [|exact D2].
    intros x Hx1 Hx2. apply M1 in Hx1 as [_ [P HP]]. apply M2 in Hx2 as [Hn _].
    congruence. }
  split.
  { intros l. rewrite elem_of_app, M1, M2. split.
    - intros [[Hn [P HP]]|[Hn Hs]].
      + split; [exact Hn|]. destruct (K2 l P HP) as (P' & HP' & _). eauto.
      + split; [|exact Hs]. destruct (heap σ1 !! l) as [P|] eqn:HP; [|reflexivity].
        destruct (K1 l P HP) as (P' & HP' & _). congruence.
    - intros [Hn Hs]. destruct (heap σ2 !! l) as [P|] eqn:HP.
      + left. split; [exact Hn|eauto].
      + right. split; [reflexivity|exact Hs]. }
  split.
  { rewrite L2, L1, map_app, concat_app, <- app_assoc. f_equal. f_equal. f_equal.
    apply map_ext_in. intros x Hx%list_elem_of_In.
    symmetry. apply statNameAt_kept; [exact K2|]. apply M1 in Hx as [_ Hs]. exact Hs. }
  intros i gp Hi. destruct (I2 i gp Hi) as [Hi2|(Hin & P & HP & Ht)].
  - destruct (I1 i gp Hi2) as [Hi1|(Hin & P & HP & Ht)]; [left; exact Hi1|].
    right. split; [apply elem_of_app; left; exact Hin|].
    destruct (K2 _ P HP) as (P' & HP' & Hf). exists P'. split; [exact HP'|].
    rewrite Ht. symmetry. apply statTime_files, Hf.
  - right. split; [apply elem_of_app; right; exact Hin|].
    exists P. split; [exact HP|]. rewrite Ht, F1. reflexivity.
Qed.

(** Whenever [recusiveAdd] returns, it has asked [os.Stat] once for each
    package it made, when it stored it. *)
Lemma recusiveAdd_ingested G fuel :
  ∀ a parent σ σ',
    recusiveAdd fuel G a parent σ = Ok tt σ' →
    ∃ news, ingested σ σ' news ∧ kept σ σ'.
Proof.
  induction fuel as [|n IH]; intros a parent σ σ' Hrun; [discriminate|].
  cbn [recusiveAdd] in Hrun. rewrite bind_run in Hrun.
  unfold node_at at 1 in Hrun. destruct (G !! a) as [node|]; [|discriminate].
  rewrite bind_run in Hrun. unfold cache at 1 in Hrun.
  destruct (gc σ) as [c|] eqn:Hc; [|discriminate].
  assert (Hsilent : ∀ par Ppar path child,
            heap σ !! par = Some Ppar →
            let σ1 := mkWorld (<[par := wired Ppar path child]> (heap σ))
                              (gc σ) (fs σ) (statLog σ) in
            ingested σ σ1 [] ∧ kept σ σ1).
  { intros par Ppar path child Hpar σ1. split.
    - apply ingested_silent; [|reflexivity|reflexivity].
      intros l Hl. cbn. rewrite lookup_insert_ne; [exact Hl|congruence].
    - split; [reflexivity|]. split; [tauto|]. intros l P HP. cbn.
      destruct (decide (par = l)) as [<-|Hne].
      + rewrite lookup_insert_eq. eexists. split; [reflexivity|].
        rewrite Hpar in HP. injection HP as <-. reflexivity.
      + rewrite lookup_insert_ne by exact Hne. eauto. }
  destruct (idMap c !! ID node) as [gp0|] eqn:Hid.
  - destruct parent as [par|].
    + destruct (heap σ !! par) as [Ppar|] eqn:Hpar.
      * rewrite (setImport_run _ _ _ _ _ Hpar) in Hrun. injection Hrun as <-.
        exists []. apply Hsilent, Hpar.
      * unfold setImport in Hrun. rewrite Hpar in Hrun. discriminate.
    + injection Hrun as <-. exists []. split; [|apply kept_refl].
      apply ingested_silent; auto.
  - rewrite bind_run in Hrun. unfold create, alloc at 1 in Hrun.
    set (l := fresh (dom (heap σ))) in Hrun.
    set (P0 := mkPackage (Name node) (ID node) (PkgPath node)
                         (CompiledGoFiles node) ∅) in Hrun.
    set (σ1 := mkWorld (<[l := P0]> (heap σ)) (gc σ) (fs σ) (statLog σ)) in Hrun.
    assert (Hfresh : heap σ !! l = None) by apply fresh_loc.
    rewrite bind_run in Hrun.
    destruct (forEach (Imports node) (λ ip, recusiveAdd n G ip.2 (Some l)) σ1)
      as [[] σ2| | |] eqn:Hch; try discriminate.
    assert (Hloop : ∀ ch σa σb,
              forEach ch (λ ip : string * ploc, recusiveAdd n G ip.2 (Some l)) σa
              = Ok tt σb →
              ∃ news, ingested σa σb news ∧ kept σa σb).
    { clear -IH. induction ch as [|ip ch IHch]; intros σa σb Hrun.
      - injection Hrun as <-. exists []. split; [|apply kept_refl].
        apply ingested_silent; auto.
      - cbn [forEach] in Hrun. rewrite bind_run in Hrun.
        destruct (recusiveAdd n G ip.2 (Some l) σa) as [[] σm| | |] eqn:Hfirst;
          try discriminate.
        destruct (IH _ _ _ _ Hfirst) as (n1 & I1 & K1).
        destruct (IHch _ _ Hrun) as (n2 & I2 & K2).
        exists (n1 ++ n2). split; [exact (ingested_trans _ _ _ _ _ I1 K1 I2 K2)|].
        exact (kept_trans _ _ _ K1 K2). }
    destruct (Hloop _ _ _ Hch) as (newsc & (D1 & M1 & L1 & I1) & (F1 & G1 & K1)).
    clear Hloop Hch.
    destruct (K1 l P0) as (P2 & HP2 & Hf2); [apply lookup_insert_eq|].
    destruct G1 as [c2 Hc2]; [cbn; rewrite Hc; eauto|].
    rewrite bind_run, (put_run _ _ _ _ Hc2 HP2) in Hrun.
    destruct (evicted (heap σ2) (id P2) c2) as [c1|] eqn:Hev; [|discriminate].
    set (gp := mkGlobalPackage l (statTime (fs σ2) P2)) in Hrun.
    set (σ3 := mkWorld (heap σ2) (Some (stored gp P2 c1)) (fs σ2)
                       (statLog σ2 ++ statName P2)) in Hrun.
    assert (H3 : ingested σ σ3 (newsc ++ [l]) ∧ kept σ σ3).
    { split; [split; [|split; [|split]]|].
      - apply NoDup_app. split; [exact D1|]. split; [|apply NoDup_singleton].
        intros x Hx Hxl. apply list_elem_of_singleton in Hxl as ->.
        apply M1 in Hx as [Hn _]. cbn in Hn. rewrite lookup_insert_eq in Hn.
        discriminate.
      - intros x. rewrite elem_of_app, list_elem_of_singleton, M1. cbn [heap σ1 σ3].
        split.
        + intros [[Hn Hs]| ->].
          * destruct (decide (l = x)) as [<-|Hne];
              [rewrite lookup_insert_eq in Hn; discriminate|].
            rewrite lookup_insert_ne in Hn by exact Hne. split; assumption.
          * split; [exact Hfresh|eauto].
        + intros [Hn Hs]. destruct (decide (l = x)) as [<-|Hne]; [right; reflexivity|].
          left. rewrite lookup_insert_ne by exact Hne. split; assumption.
      - cbn [statLog heap σ3]. rewrite L1, map_app, concat_app. cbn [statLog σ1].
        rewrite <- app_assoc. do 2 f_equal. cbn. unfold statNameAt at 1.
        rewrite HP2, app_nil_r. reflexivity.
      - intros i gp' Hi. cbn in Hi.
        rewrite (evicted_idMap _ _ _ _ Hev) in Hi.
        apply lookup_insert_Some in Hi as [[<- <-]|[Hne Hi]].
        + right. split; [apply elem_of_app; right; left|].
          exists P2. split; [exact HP2|]. cbn. rewrite F1. reflexivity.
        + apply lookup_delete_Some in Hi as [_ Hi].
          destruct (I1 i gp') as [Hold|(Hin & P & HP & Ht)].
          * unfold idIndex. rewrite Hc2. exact Hi.
          * left. exact Hold.
          * right. split; [apply elem_of_app; left; exact Hin|].
            exists P. split; [exact HP|exact Ht].
      - split; [exact F1|]. split; [cbn; eauto|]. intros x P HP. cbn.
        apply K1. cbn. rewrite lookup_insert_ne; [exact HP|congruence]. }
    destruct H3 as [I3 K3].
    destruct parent as [par|].
    + rewrite bind_run in Hrun. unfold deref at 1 in Hrun. cbn [heap σ3] in Hrun.
      rewrite HP2 in Hrun.
      destruct (heap σ3 !! par) as [Ppar|] eqn:Hpar.
      * rewrite (setImport_run _ _ _ _ _ Hpar) in Hrun. injection Hrun as <-.
        exists (newsc ++ [l]). split.
        -- rewrite <- (app_nil_r (newsc ++ [l])).
           refine (ingested_trans _ _ _ _ _ I3 K3 _ _).
           ++ apply ingested_silent; [|reflexivity|reflexivity].
              intros x Hx. cbn. rewrite lookup_insert_ne; [exact Hx|congruence].
           ++ split; [reflexivity|]. split; [tauto|]. intros x P HP. cbn.
              destruct (decide (par = x)) as [<-|Hne].
              ** rewrite lookup_insert_eq. eexists. split; [reflexivity|].
                 rewrite Hpar in HP. injection HP as <-. reflexivity.
              ** rewrite lookup_insert_ne by exact Hne. eauto.
        -- refine (kept_trans _ _ _ K3 _).
           split; [reflexivity|]. split; [tauto|]. intros x P HP. cbn.
           destruct (decide (par = x)) as [<-|Hne].
           ++ rewrite lookup_insert_eq. eexists. split; [reflexivity|].
              rewrite Hpar in HP. injection HP as <-. reflexivity.
           ++ rewrite lookup_insert_ne by exact Hne. eauto.
      * unfold setImport in Hrun. rewrite Hpar in Hrun. discriminate.
    + injection Hrun as <-. exists (newsc ++ [l]). split; assumption.
Qed.

(** The same for [Add]: taking and giving back the mutex asks nothing. *)
Lemma Add_ingested G fuel a σ σ' :
  Add fuel G a σ = Ok tt σ' → ∃ news, ingested σ σ' news ∧ kept σ σ'.
Proof.
  unfold Add. rewrite bind_run, receiver_run.
  destruct (gc σ) as [c|] eqn:Hc.
  - rewrite bind_run. unfold Lock, mu_Lock. rewrite bind_run, receiver_run, Hc.
    rewrite bind_run, (cache_run _ _ Hc).
    destruct (writer (mu c)); [discriminate|].
    destruct (readers (mu c)); [|discriminate].
    rewrite (setCache_run _ _ _ Hc), bind_run.
    set (σL := withCache σ _).
    destruct (recusiveAdd fuel G a None σL) as [[] σ1| | |] eqn:Hrec; try discriminate.
    destruct (recusiveAdd_ingested _ _ _ _ _ _ Hrec) as (news & I1 & K1).
    unfold Unlock, mu_Unlock. rewrite bind_run, receiver_run.
    destruct (gc σ1) as [c1|] eqn:Hc1.
    + rewrite bind_run, (cache_run _ _ Hc1).
      destruct (writer (mu c1)); [|discriminate].
      rewrite (setCache_run _ _ _ Hc1). intros [= <-].
      exists news.
      assert (IL : ingested σ σL [] ∧ kept σ σL).
      { split; [apply ingested_silent; try reflexivity; auto|].
        - unfold idIndex. cbn. rewrite Hc. reflexivity.
        - split; [reflexivity|]. split; [cbn; eauto|]. intros l P HP. eauto. }
      assert (IU : ingested σ1 (withCache σ1 (mkGlobalCache (mkRWMutex false (readers (mu c1)))
                                   (idMap c1) (pathMap c1) (fileMap c1))) []
                   ∧ kept σ1 (withCache σ1 (mkGlobalCache (mkRWMutex false (readers (mu c1)))
                                   (idMap c1) (pathMap c1) (fileMap c1)))).
      { split; [apply ingested_silent; try reflexivity; auto|].
        - unfold idIndex. cbn. rewrite Hc1. reflexivity.
        - split; [reflexivity|]. split; [cbn; eauto|]. intros l P HP. eauto. }
      destruct IL as [IL KL]. destruct IU as [IU KU].
      split.
      * rewrite <- (app_nil_r news).
        refine (ingested_trans _ _ _ _ _ (ingested_trans _ _ _ [] news IL KL I1 K1) _ IU KU).
        exact (kept_trans _ _ _ KL K1).
      * exact (kept_trans _ _ _ (kept_trans _ _ _ KL K1) KU).
    + destruct K1 as (_ & G1 & _). destruct G1 as [c1 Hc1']; [cbn; eauto|]. congruence.
  - rewrite bind_run. unfold node_at. destruct (G !! a); [|discriminate].
    intros [= <-]. exists []. split; [|apply kept_refl].
    apply ingested_silent; auto.
Qed.

(** C6.  [GetByURI] finds a unit under any spelling of one of its files
    that lower-cases to the same path: after [Put] of the unit, and after
    [Add] of a node whose id was not cached.  [/Src/a.go] and
    [/src/A.GO] are such a pair. *)
Theorem GetByURI_is_case_insensitive σ c f q :
  gc σ = Some c → unlocked c → wf σ →
  ToLower q = ToLower f →
  (∀ l P, heap σ !! l = Some P → f ∈ files P →
     ∃ σ', Put l σ = Ok tt σ' ∧ GetByURI q σ' = Ok (Some l) σ')
  ∧ (∀ G rk fuel a node,
       acyclic G rk → G !! a = Some node → rk a < fuel →
       idMap c !! ID node = None → f ∈ CompiledGoFiles node →
       ∃ σ' l P, Add fuel G a σ = Ok tt σ'
                 ∧ GetByURI q σ' = Ok (Some l) σ'
                 ∧ heap σ' !! l = Some P
                 ∧ id P = ID node ∧ files P = CompiledGoFiles node)
  ∧ ToLower "/src/A.GO" = ToLower "/Src/a.go".
Proof.
  intros Hc Hu Hwf Hq. split; [|split; [|reflexivity]].
  - intros l P Hl Hf.
    destruct (put_wf σ c l P Hwf Hc Hl) as (c1 & σ' & Hev & Hput & Hσ' & _).
    exists σ'. rewrite (Put_run _ _ _ _ Hc Hu Hl). split; [exact Hput|].
    erewrite GetByURI_run; [|rewrite Hσ'; reflexivity|].
    + unfold LowerDriver. rewrite Hq. cbn [fileMap stored].
      rewrite (putFiles_lookup_file _ _ _ f Hf). reflexivity.
    + cbn. rewrite (evicted_mu _ _ _ _ Hev), Hu. reflexivity.
  - intros G rk fuel a node Hacyc Ha Hrk Hnone Hf.
    destruct (Add_acyclic G rk fuel a node σ c Hacyc Ha Hrk Hc Hu Hwf)
      as (σ' & Hadd & Hpost).
    destruct Hpost as (c0 & c' & gp & P & Hc0 & Hc' & Hmu & _ & _ & _ & HP
                       & HidP & _ & Hnew & _).
    rewrite Hc in Hc0. injection Hc0 as <-.
    destruct (Hnew Hnone) as (_ & _ & Hfiles & _ & Hfile & _).
    exists σ', (pkg gp), P. split; [exact Hadd|].
    split; [|split; [exact HP|split; [exact HidP|exact Hfiles]]].
    erewrite GetByURI_run; [|exact Hc'|rewrite Hmu, Hu; reflexivity].
    unfold LowerDriver in *. rewrite Hq, (Hfile f Hf). reflexivity.
Qed.

Lemma GetByURI_is_case_insensitive_witness :
  unlocked NewCache ∧ wf Sample.withSrcUnit
  ∧ ToLower "/src/A.GO" = ToLower "/Src/a.go"
  ∧ ∃ σ', Put 1%positive Sample.withSrcUnit = Ok tt σ'
          ∧ GetByURI "/src/A.GO" σ' = Ok (Some 1%positive) σ'.
Proof.
  pose proof (wf_empty_index Sample.withSrcUnit NewCache eq_refl eq_refl) as Hwf.
  split; [reflexivity|]. split; [exact Hwf|]. split; [reflexivity|].
  refine (proj1 (GetByURI_is_case_insensitive Sample.withSrcUnit NewCache
                   "/Src/a.go" "/src/A.GO" eq_refl eq_refl Hwf eq_refl)
                1%positive Sample.srcUnit eq_refl _).
  left.
Defined.

(** C7, the claim as written fails: [Put] asks the file system about the
    first file of the unit. *)
Lemma Put_calls_os_Stat :
  statLog Sample.withSrcUnit = []
  ∧ ∃ σ', Put 1%positive Sample.withSrcUnit = Ok tt σ'
          ∧ statLog σ' = ["/Src/a.go"]
          ∧ Get "src" σ' = Ok (Some (mkGlobalPackage 1%positive 42%Z)) σ'.
Proof.
  split; [reflexivity|]. eexists. split; [vm_compute; reflexivity|].
  split; vm_compute; reflexivity.
Qed.

(** C7, as the code has it.  [Get], [GetByURI], [Delete], [clean] and
    [Walk] make no call of [os.Stat].  [Put] makes one, at ingestion, for
    the first file of the unit (none for a unit without files), and stores
    the time it is told.  [Add] does the same for each unit it stores and
    makes no other call: on a graph without a cycle it returns, and then
    the log has grown by exactly one call for each package it made, on
    the first file of that package, in the order in which the packages
    were stored; every entry the id index has gained is one of these
    packages, stamped with the time found; for a node whose id was not
    cached the call for its own unit is the last one, and for one whose
    id was cached there is no call at all.  The stored time is what [Get]
    serves afterwards, whatever the file system has become. *)
Theorem only_ingestion_reads_the_file_system :
  (∀ path, quiet (Get path))
  ∧ (∀ filename, quiet (GetByURI filename))
  ∧ (∀ i, quiet (Delete i))
  ∧ (∀ ids, quiet (clean ids))
  ∧ (∀ S E order (walkFunc : WalkFunc S E) ranks s,
       quiet (Walk order walkFunc ranks s))
  ∧ (∀ σ c l P,
       gc σ = Some c → unlocked c → wf σ → heap σ !! l = Some P →
       ∃ σ', Put l σ = Ok tt σ'
             ∧ statLog σ' = statLog σ ++ statName P
             ∧ fs σ' = fs σ
             ∧ ∀ fs',
                 let later := mkWorld (heap σ') (gc σ') fs' (statLog σ') in
                 Get (pkgPath P) later
                 = Ok (Some (mkGlobalPackage l (statTime (fs σ) P))) later)
  ∧ (∀ G rk fuel a node σ c,
       acyclic G rk → G !! a = Some node → rk a < fuel →
       gc σ = Some c → unlocked c → wf σ →
       ∃ σ' news,
         Add fuel G a σ = Ok tt σ'
         ∧ ingested σ σ' news
         ∧ fs σ' = fs σ
         ∧ (∀ gp0, idMap c !! ID node = Some gp0 → statLog σ' = statLog σ)
         ∧ (idMap c !! ID node = None →
            ∃ gp P pre,
              pkg gp ∈ news
              ∧ heap σ' !! pkg gp = Some P
              ∧ files P = CompiledGoFiles node
              ∧ statLog σ' = statLog σ ++ pre ++ statName P
              ∧ modTime gp = statTime (fs σ) P
              ∧ ∀ fs',
                  let later := mkWorld (heap σ') (gc σ') fs' (statLog σ') in
                  Get (PkgPath node) later = Ok (Some gp) later))
  ∧ (∀ G fuel a σ σ',
       Add fuel G a σ = Ok tt σ' → ∃ news, ingested σ σ' news ∧ fs σ' = fs σ).
Proof.
  split; [exact quiet_Get|]. split; [exact quiet_GetByURI|].
  split; [exact quiet_Delete|]. split; [exact quiet_clean|].
  split; [intros; apply quiet_Walk|]. split; [|split].
  - intros σ c l P Hc Hu Hwf Hl.
    destruct (put_wf σ c l P Hwf Hc Hl) as (c1 & σ' & Hev & Hput & Hσ' & _).
    exists σ'. rewrite (Put_run _ _ _ _ Hc Hu Hl). split; [exact Hput|].
    rewrite Hσ'. cbn [statLog fs heap gc]. split; [reflexivity|].
    split; [reflexivity|]. intros fs'. cbv zeta.
    erewrite Get_run; [|reflexivity|].
    + cbn [pathMap stored]. rewrite lookup_insert_eq. reflexivity.
    + cbn. rewrite (evicted_mu _ _ _ _ Hev), Hu. reflexivity.
  - intros G rk fuel a node σ c Hacyc Ha Hrk Hc Hu Hwf.
    destruct (Add_acyclic G rk fuel a node σ c Hacyc Ha Hrk Hc Hu Hwf)
      as (σ' & Hadd & Hpost).
    destruct (Add_ingested _ _ _ _ _ Hadd) as (news & Hing & Hfs & _).
    destruct Hpost as (c0 & c' & gp & P & Hc0 & Hc' & Hmu & _ & _ & Hgp & HP
                       & HidP & Hold & Hnew & _).
    rewrite Hc in Hc0. injection Hc0 as <-.
    exists σ', news. split; [exact Hadd|]. split; [exact Hing|].
    split; [exact Hfs|]. split.
    { intros gp0 Hgp0. destruct (Hold gp0 Hgp0) as (_ & _ & Hlog). exact Hlog. }
    intros Hnone.
    destruct (Hnew Hnone) as (_ & _ & Hfiles & Hpath & _ & Htime & [pre Hlog] & _).
    exists gp, P, pre. split.
    { destruct Hing as (_ & _ & _ & Hidx). destruct (Hidx (ID node) gp) as [Hin|[Hin _]].
      - unfold idIndex. rewrite Hc'. exact Hgp.
      - unfold idIndex in Hin. rewrite Hc, Hnone in Hin. discriminate.
      - exact Hin. }
    split; [exact HP|]. split; [exact Hfiles|].
    split; [exact Hlog|]. split; [exact Htime|]. intros fs'. cbv zeta.
    erewrite Get_run; [|exact Hc'|rewrite Hmu, Hu; reflexivity].
    rewrite Hpath. reflexivity.
  - intros G fuel a σ σ' Hadd.
    destruct (Add_ingested _ _ _ _ _ Hadd) as (news & Hing & Hfs & _).
    exists news. split; assumption.
Qed.

Lemma only_ingestion_reads_the_file_system_witness :
  unlocked NewCache ∧ wf Sample.withSrcUnit
  ∧ (∃ σ', Put 1%positive Sample.withSrcUnit = Ok tt σ'
           ∧ statLog σ' = statLog Sample.withSrcUnit ++ statName Sample.srcUnit
           ∧ fs σ' = fs Sample.withSrcUnit
           ∧ ∀ fs',
               let later := mkWorld (heap σ') (gc σ') fs' (statLog σ') in
               Get "src" later
               = Ok (Some (mkGlobalPackage 1%positive
                             (statTime (fs Sample.withSrcUnit) Sample.srcUnit))) later)
  ∧ acyclic Sample.chain Sample.chainRank ∧ wf Sample.empty
  ∧ ∃ σ' news, Add 2 Sample.chain 1%positive Sample.empty = Ok tt σ'
               ∧ ingested Sample.empty σ' news
               ∧ statLog σ' = ["d.go"; "c.go"].
Proof.
  pose proof (wf_empty_index Sample.withSrcUnit NewCache eq_refl eq_refl) as Hwf.
  pose proof (wf_empty_index Sample.empty NewCache eq_refl eq_refl) as Hwf0.
  split; [reflexivity|]. split; [exact Hwf|].
  destruct only_ingestion_reads_the_file_system as (_ & _ & _ & _ & _ & H & HAdd & _).
  split.
  { exact (H Sample.withSrcUnit NewCache 1%positive Sample.srcUnit
             eq_refl eq_refl Hwf eq_refl). }
  split; [exact chain_acyclic|]. split; [exact Hwf0|].
  destruct (HAdd Sample.chain Sample.chainRank 2 1%positive _ Sample.empty NewCache
              chain_acyclic eq_refl (le_n 2) eq_refl eq_refl Hwf0)
    as (σ' & news & Hrun & Hing & _).
  exists σ', news. split; [exact Hrun|]. split; [exact Hing|].
  vm_compute in Hrun. injection Hrun as <-. reflexivity.
Defined.

Lemma delete_absent σ c i :
  gc σ = Some c → idMap c !! i = None → delete_ i σ = Ok tt σ.
Proof.
  intros Hc Hi. rewrite (delete_run _ _ _ Hc). unfold evicted. rewrite Hi.
  rewrite (withCache_id _ _ Hc). reflexivity.
Qed.

Lemma forEach_delete_absent ids σ c :
  gc σ = Some c → (∀ i, i ∈ ids → idMap c !! i = None) →
  forEach ids delete_ σ = Ok tt σ.
Proof.
  intros Hc Hnone. induction ids as [|i ids IH]; [reflexivity|].
  cbn [forEach]. rewrite bind_run, (delete_absent _ _ _ Hc) by (apply Hnone; left).
  apply IH. intros j Hj. apply Hnone. right. exact Hj.
Qed.

Lemma clean_absent ids σ c :
  gc σ = Some c → unlocked c → (∀ i, i ∈ ids → idMap c !! i = None) →
  clean ids σ = Ok tt σ.
Proof.
  intros Hc Hu Hnone. unfold clean. mstep. rewrite Hc.
  destruct ids as [|i ids]; [reflexivity|].
  rewrite bind_run, (Lock_run _ _ Hc Hu), bind_run.
  erewrite forEach_delete_absent; [|reflexivity|exact Hnone].
  erewrite Unlock_run by reflexivity.
  rewrite withCache_twice. unfold withMu at 1. cbn [idMap pathMap fileMap withMu].
  fold (withMu (mkRWMutex false 0) c).
  rewrite (withMu_unlocked _ Hu), (withCache_id _ _ Hc). reflexivity.
Qed.

(** C8, the claim as written fails: the cache [NewCache] makes is empty
    and not nil, and on it the operations are not all safe no-ops.
    [Unlock] and [RUnlock] without a lock held are fatal errors of the
    mutex, and [Put] is not a no-op: the unit is found afterwards. *)
Lemma empty_cache_is_not_inert :
  gc Sample.empty = Some NewCache
  ∧ Unlock Sample.empty = Fault
  ∧ RUnlock Sample.empty = Fault
  ∧ gc Sample.withSrcUnit = Some NewCache
  ∧ get "src" Sample.withSrcUnit = Ok None Sample.withSrcUnit
  ∧ ∃ σ', Put 1%positive Sample.withSrcUnit = Ok tt σ'
          ∧ σ' ≠ Sample.withSrcUnit
          ∧ get "src" σ' = Ok (Some 1%positive) σ'.
Proof.
  split; [reflexivity|]. split; [reflexivity|]. split; [reflexivity|].
  split; [reflexivity|]. split; [reflexivity|].
  eexists. split; [vm_compute; reflexivity|]. split; [discriminate|].
  vm_compute. reflexivity.
Qed.

(** C8, as the code has it.  On a nil receiver every operation returns
    at once and leaves the world as it is: the lookups find nothing,
    [Walk] reports no error and calls no visitor, the mutations and the
    four lock methods do nothing.  On the cache [NewCache] makes, which
    holds nothing, the lookups find nothing, [Delete] and [clean] change
    nothing, [Walk] visits nothing and reports no error, and a lock that
    is taken can be given back.  The rest is no no-op there: [Lock] and
    [RLock] take the mutex; [Unlock] and [RUnlock] without a lock held
    are fatal; [Put] stores the unit; [Add] stores the units of a graph
    without a cycle, and on the cycle where C imports D and D imports C
    it does not return within any depth of recursion. *)
Theorem nil_cache_degrades_empty_cache_does_not σ :
  (gc σ = None →
     (∀ path, Get path σ = Ok None σ)
     ∧ (∀ filename, GetByURI filename σ = Ok None σ)
     ∧ (∀ i, get i σ = Ok None σ)
     ∧ (∀ l P, heap σ !! l = Some P → Put l σ = Ok tt σ ∧ put l σ = Ok tt σ)
     ∧ (∀ fuel G a node, G !! a = Some node → Add fuel G a σ = Ok tt σ)
     ∧ (∀ i, Delete i σ = Ok tt σ ∧ delete_ i σ = Ok tt σ)
     ∧ (∀ ids, clean ids σ = Ok tt σ)
     ∧ (∀ S E order (walkFunc : WalkFunc S E) ranks s,
          Walk order walkFunc ranks s σ = Ok (s, None) σ)
     ∧ RLock σ = Ok tt σ ∧ RUnlock σ = Ok tt σ
     ∧ Lock σ = Ok tt σ ∧ Unlock σ = Ok tt σ)
  ∧ (gc σ = Some NewCache →
       (∀ path, Get path σ = Ok None σ)
       ∧ (∀ filename, GetByURI filename σ = Ok None σ)
       ∧ (∀ i, get i σ = Ok None σ)
       ∧ (∀ i, Delete i σ = Ok tt σ)
       ∧ (∀ ids, clean ids σ = Ok tt σ)
       ∧ (∀ S E (walkFunc : WalkFunc S E) ranks s,
            Walk (map_to_list (idMap NewCache)).*1 walkFunc ranks s σ
            = Ok (s, None) σ)
       ∧ (RLock;; RUnlock) σ = Ok tt σ
       ∧ (Lock;; Unlock) σ = Ok tt σ
       ∧ RLock σ = Ok tt (withCache σ (withMu (mkRWMutex false 1) NewCache))
       ∧ Lock σ = Ok tt (withCache σ (withMu (mkRWMutex true 0) NewCache))
       ∧ RUnlock σ = Fault
       ∧ Unlock σ = Fault
       ∧ (∀ l P, heap σ !! l = Some P →
            ∃ σ', Put l σ = Ok tt σ' ∧ get (id P) σ' = Ok (Some l) σ')
       ∧ (∀ G rk fuel a node,
            acyclic G rk → G !! a = Some node → rk a < fuel →
            ∃ σ' l, Add fuel G a σ = Ok tt σ'
                    ∧ get (ID node) σ' = Ok (Some l) σ'
                    ∧ heap σ !! l = None)
       ∧ (∀ fuel, Add fuel Sample.cycle 1%positive σ = OutOfFuel)).
Proof.
  split.
  - intros Hc.
    split. { intros path. unfold Get. mstep. rewrite Hc. reflexivity. }
    split. { intros filename. unfold GetByURI. mstep. rewrite Hc. reflexivity. }
    split. { intros i. rewrite get_run, Hc. reflexivity. }
    split.
    { intros l P Hl. split; [|exact (put_nil _ _ _ Hc Hl)].
      unfold Put. mstep. rewrite Hc. mstep. reflexivity. }
    split.
    { intros fuel G a node Ha. unfold Add. mstep. rewrite Hc.
      rewrite bind_run, (node_at_run _ _ _ _ Ha). reflexivity. }
    split.
    { intros i. split; [|exact (delete_nil _ _ Hc)].
      unfold Delete. mstep. rewrite Hc. reflexivity. }
    split. { intros ids. unfold clean. mstep. rewrite Hc. reflexivity. }
    split.
    { intros S E order walkFunc ranks s. unfold Walk. mstep. rewrite Hc.
      reflexivity. }
    unfold RLock, RUnlock, Lock, Unlock. rewrite !bind_run, !receiver_run, Hc.
    repeat split.
  - intros Hc.
    assert (Hu : unlocked NewCache) by reflexivity.
    assert (Hw : writer (mu NewCache) = false) by reflexivity.
    split. { intros path. rewrite (Get_run _ _ _ Hc Hw). reflexivity. }
    split. { intros filename. rewrite (GetByURI_run _ _ _ Hc Hw). reflexivity. }
    split. { intros i. rewrite get_run, Hc. reflexivity. }
    split.
    { intros i. rewrite (Delete_run _ _ _ Hc Hu).
      apply (delete_absent _ _ _ Hc). reflexivity. }
    split. { intros ids. apply (clean_absent _ _ _ Hc Hu). reflexivity. }
    split.
    { intros S E walkFunc ranks s. rewrite (Walk_run _ _ _ _ _ _ Hc Hw).
      reflexivity. }
    split.
    { rewrite bind_run, (RLock_run _ _ Hc Hw).
      erewrite RUnlock_run by reflexivity.
      rewrite withCache_twice. apply f_equal, (withCache_id _ _ Hc). }
    split.
    { rewrite bind_run, (Lock_run _ _ Hc Hu).
      erewrite Unlock_run by reflexivity.
      rewrite withCache_twice. apply f_equal, (withCache_id _ _ Hc). }
    split. { exact (RLock_run _ _ Hc Hw). }
    split. { exact (Lock_run _ _ Hc Hu). }
    split.
    { unfold RUnlock, mu_RUnlock. mstep. rewrite Hc. mstep. reflexivity. }
    split.
    { unfold Unlock, mu_Unlock. mstep. rewrite Hc. mstep. reflexivity. }
    split.
    { intros l P Hl.
      destruct (put_wf σ NewCache l P (wf_empty_index _ _ Hc eq_refl) Hc Hl)
        as (c1 & σ' & _ & Hput & Hσ' & _).
      exists σ'. rewrite (Put_run _ _ _ _ Hc Hu Hl). split; [exact Hput|].
      rewrite get_run, Hσ'. cbn [gc stored idMap].
      rewrite lookup_insert_eq. reflexivity. }
    split.
    { intros G rk fuel a node Hacyc Ha Hrk.
      destruct (Add_acyclic G rk fuel a node σ NewCache Hacyc Ha Hrk Hc Hu
                  (wf_empty_index _ _ Hc eq_refl)) as (σ' & Hadd & Hpost).
      destruct Hpost as (c0 & c' & gp & P & Hc0 & Hc' & _ & _ & _ & Hgp & _
                         & _ & _ & Hnew & _).
      rewrite Hc in Hc0. injection Hc0 as <-.
      destruct (Hnew eq_refl) as (Hfresh & _).
      exists σ', (pkg gp). split; [exact Hadd|].
      split; [|exact Hfresh]. rewrite get_run, Hc', Hgp. reflexivity. }
    intros fuel. unfold Add. mstep. rewrite Hc.
    rewrite bind_run, (Lock_run _ _ Hc Hu), bind_run.
    erewrite recusiveAdd_cycle; [reflexivity|left; reflexivity|reflexivity|..];
      reflexivity.
Qed.

Lemma nil_cache_degrades_empty_cache_does_not_witness :
  gc Sample.nilCache = None
  ∧ Get "pkg/a" Sample.nilCache = Ok None Sample.nilCache
  ∧ gc Sample.empty = Some NewCache
  ∧ GetByURI "a.go" Sample.empty = Ok None Sample.empty
  ∧ Unlock Sample.empty = Fault.
Proof.
  split; [reflexivity|]. split.
  { exact (proj1 (proj1 (nil_cache_degrades_empty_cache_does_not Sample.nilCache) eq_refl) "pkg/a"). }
  split; [reflexivity|]. split.
  { exact (proj1 (proj2 (proj2 (nil_cache_degrades_empty_cache_does_not Sample.empty) eq_refl)) "a.go"). }
  pose proof (proj2 (nil_cache_degrades_empty_cache_does_not Sample.empty) eq_refl)
    as (_ & _ & _ & _ & _ & _ & _ & _ & _ & _ & _ & HU & _).
  exact HU.
Defined.

Lemma GetByURI_blocked σ c filename :
  gc σ = Some c → writer (mu c) = true → GetByURI filename σ = Blocked.
Proof.
  intros Hc Hw. unfold GetByURI, RLock, mu_RLock. mstep. rewrite Hc.
  rewrite !bind_run, receiver_run, Hc, !bind_run, (cache_run _ _ Hc), Hw.
  reflexivity.
Qed.

Lemma Get_blocked σ c path :
  gc σ = Some c → writer (mu c) = true → Get path σ = Blocked.
Proof.
  intros Hc Hw. unfold Get, RLock, mu_RLock. mstep. rewrite Hc.
  rewrite !bind_run, receiver_run, Hc, !bind_run, (cache_run _ _ Hc), Hw.
  reflexivity.
Qed.

(** C10.  On a non-nil cache a file that is not in the file index, an id
    that is not in the id index and a path that is not in the path index
    are answered with nil and the world is as it was; the exported lookups
    first wait while a writer holds the mutex.  Nothing faults: the nil
    [*GlobalPackage] read from the index goes through [Package()], which
    gives nil for a nil receiver, and [ModTime()] of the nil entry is the
    zero time. *)
Theorem absent_lookups_return_nil σ c :
  gc σ = Some c →
  (∀ filename, fileMap c !! LowerDriver filename = None →
     GetByURI filename σ = if writer (mu c) then Blocked else Ok None σ)
  ∧ (∀ i, idMap c !! i = None → get i σ = Ok None σ)
  ∧ (∀ path, pathMap c !! path = None →
       Get path σ = if writer (mu c) then Blocked else Ok None σ)
  ∧ (∀ S E (walkFunc : WalkFunc S E) i s,
       idMap c !! i = None →
       walk [i] walkFunc s σ = Ok (walkFunc None s) σ)
  ∧ GlobalPackage_Package None = None
  ∧ GlobalPackage_ModTime None = zeroTime.
Proof.
  intros Hc.
  split.
  { intros filename Hf. destruct (writer (mu c)) eqn:Hw.
    - exact (GetByURI_blocked _ _ _ Hc Hw).
    - rewrite (GetByURI_run _ _ _ Hc Hw), Hf. reflexivity. }
  split. { intros i Hi. rewrite get_run, Hc, Hi. reflexivity. }
  split.
  { intros path Hp. destruct (writer (mu c)) eqn:Hw.
    - exact (Get_blocked _ _ _ Hc Hw).
    - rewrite (Get_run _ _ _ Hc Hw), Hp. reflexivity. }
  split.
  { intros S E walkFunc i s Hi. rewrite (walk_run _ _ _ _ _ Hc).
    cbn. rewrite Hi. cbn. destruct (walkFunc None s) as [s' [e|]]; reflexivity. }
  split; reflexivity.
Qed.

Lemma absent_lookups_return_nil_witness :
  gc Sample.walkWorld = Some Sample.walkCache
  ∧ fileMap Sample.walkCache !! LowerDriver "/tmp/x.go" = None
  ∧ GetByURI "/tmp/x.go" Sample.walkWorld = Ok None Sample.walkWorld.
Proof.
  split; [reflexivity|]. split; [reflexivity|].
  exact (proj1 (absent_lookups_return_nil Sample.walkWorld Sample.walkCache
                  eq_refl) "/tmp/x.go" eq_refl).
Defined.

End CacheProofs.

(** ** Properties of the dispatcher *)

Module LangserverProofs.
Import Langserver.

Section WithCollaborators.

Variable Unmarshal : string → RawMessage → option error.
Variable handleQuery : Request → RawMessage → effect.
Variable handleFileSystemRequest : Request → effect.
Variable cancelParamsID : RawMessage → ID.
Variable RootPath : RawMessage → string.
Variable IsURI : string → bool.
Variable PathToURI : string → string.
Variable projectInit
  : RawMessage → string → JSONRPC2 → list logLine * JSONRPC2 * outcome.

Abbreviation Handle :=
  (Handle Unmarshal handleQuery handleFileSystemRequest cancelParamsID
          RootPath IsURI PathToURI projectInit).
Abbreviation Handle_body :=
  (Handle_body Unmarshal handleQuery handleFileSystemRequest cancelParamsID
               RootPath IsURI PathToURI projectInit).
Abbreviation dispatch :=
  (dispatch Unmarshal handleQuery handleFileSystemRequest cancelParamsID
            RootPath IsURI PathToURI projectInit).

(** The recovery turns a panic of the body into an error carrying the
    method name, and lets a normal return through. *)
Lemma Handle_of_body h conn req :
  Handle h conn req =
  match Handle_body h conn req with
  | (h', conn', Panicked r) =>
      (h', conn', Returned nil (Some (panicError (Method req) r)))
  | (h', conn', Returned v e) => (h', conn', Returned v e)
  end.
Proof.
  unfold Langserver.Handle.
  destruct (Handle_body h conn req) as [[h' conn'] [v e | r]]; reflexivity.
Qed.

Lemma dispatch_exit h conn req :
  Method req = "exit" →
  dispatch h conn req =
  (h, if isConn conn then mkJSONRPC2 true true else conn, Returned nil None).
Proof. intros Hm. unfold Langserver.dispatch. rewrite Hm. reflexivity. Qed.

Lemma dispatch_shutdown h conn req :
  Method req = "shutdown" →
  dispatch h conn req = (ShutDown h, conn, Returned nil None).
Proof. intros Hm. unfold Langserver.dispatch. rewrite Hm. reflexivity. Qed.

(** Past both gates the body is the [switch], wrapped in the
    registration of the request when there is a registry and the message
    is not a notification. *)
Lemma Handle_body_ready h conn req raw :
  init h = Some raw → shutdown h = false →
  Handle_body h conn req =
  match cancelManager h with
  | Some c =>
      if negb (Notif req) then
        match dispatch (mkLangHandler (shutdown h) (init h)
                          (Some (cancel_WithCancel c (ReqID req))) (log h))
                       conn req with
        | (h2, conn', out) =>
            (mkLangHandler (shutdown h2) (init h2)
               (option_map (λ c', cancel_done c' (ReqID req)) (cancelManager h2))
               (log h2), conn', out)
        end
      else dispatch h conn req
  | None => dispatch h conn req
  end.
Proof.
  intros Hi Hs. unfold Langserver.Handle_body, CheckReady.
  rewrite Hi, Hs, andb_false_r. reflexivity.
Qed.

Lemma Handle_body_uninitialized h conn req :
  init h = None → Method req ≠ "initialize" →
  Handle_body h conn req =
  (h, conn, Returned nil (Some errLanguageServerMustBeInitialized)).
Proof.
  intros Hi Hm. unfold Langserver.Handle_body. rewrite Hi.
  apply String.eqb_neq in Hm. rewrite Hm. reflexivity.
Qed.

Lemma Handle_body_shut_down h conn req raw :
  init h = Some raw → shutdown h = true →
  Handle_body h conn req =
  (h, conn,
   Returned nil (if String.eqb (Method req) "exit" then None
                 else Some errLanguageServerIsShuttingDown)).
Proof.
  intros Hi Hs. unfold Langserver.Handle_body, CheckReady.
  rewrite Hi, Hs, andb_false_r. reflexivity.
Qed.

(** Past the two gates the body of [Handle] is the [switch] on the
    handler with the request registered, followed by the deferred
    [cancel()]. *)
Lemma Handle_body_served h conn req :
  Method req = "initialize" ∨ init h ≠ None → shutdown h = false →
  Handle_body h conn req
  = (released h req (dispatch (registered h req) conn req).1.1,
     (dispatch (registered h req) conn req).1.2,
     (dispatch (registered h req) conn req).2).
Proof.
  intros Hgate Hs.
  unfold Langserver.Handle_body, CheckReady, registered, released. cbv zeta.
  rewrite Hs.
  assert (negb (Method req =? "initialize") &&
          match init h with Some _ => false | None => true end = false) as ->.
  { destruct Hgate as [->|Hi]; [reflexivity|].
    destruct (init h); [apply andb_false_r|contradiction]. }
  destruct (cancelManager h) as [c|]; [destruct (negb (Notif req))|];
    destruct (dispatch _ conn req) as [[h2 c2] o]; reflexivity.
Qed.

(** Otherwise it answers at a gate and leaves everything as it is. *)
Lemma Handle_body_cases h conn req :
  (∃ e, Handle_body h conn req = (h, conn, Returned nil e))
  ∨ ((Method req = "initialize" ∨ init h ≠ None) ∧ shutdown h = false
     ∧ Handle_body h conn req
       = (released h req (dispatch (registered h req) conn req).1.1,
          (dispatch (registered h req) conn req).1.2,
          (dispatch (registered h req) conn req).2)).
Proof.
  destruct (String.eqb (Method req) "initialize") eqn:Hm.
  - apply String.eqb_eq in Hm. destruct (shutdown h) eqn:Hs.
    + left. unfold Langserver.Handle_body, CheckReady. rewrite Hm, Hs. eauto.
    + right. split; [left; exact Hm|]. split; [reflexivity|].
      apply Handle_body_served; [left; exact Hm|exact Hs].
  - destruct (init h) as [raw|] eqn:Hi.
    + destruct (shutdown h) eqn:Hs.
      * left. rewrite (Handle_body_shut_down _ _ _ raw Hi Hs). eauto.
      * right. split; [right; congruence|]. split; [reflexivity|].
        apply Handle_body_served; [right; congruence|exact Hs].
    + left. apply String.eqb_neq in Hm.
      rewrite (Handle_body_uninitialized _ _ _ Hi Hm). eauto.
Qed.

Lemma registered_fields h req :
  shutdown (registered h req) = shutdown h
  ∧ init (registered h req) = init h
  ∧ log (registered h req) = log h.
Proof.
  unfold registered. destruct (cancelManager h); [destruct (negb (Notif req))|];
    repeat split.
Qed.

Lemma released_fields h req h2 :
  shutdown (released h req h2) = shutdown h2
  ∧ init (released h req h2) = init h2
  ∧ log (released h req h2) = log h2.
Proof.
  unfold released. destruct (cancelManager h); [destruct (negb (Notif req))|];
    repeat split.
Qed.


(** C4, as the code has it.  An [exit] message is answered without an
    error in the states Initialized and ShuttingDown; sent to an
    initialized server that is not shutting down it also closes the
    connection when that is a [*jsonrpc2.Conn]; sent before
    [initialize] it is rejected with "languageserver must be
    initialized" and nothing is closed. *)
Theorem exit_by_lifecycle h conn req :
  Method req = "exit" →
  match lifecycle_of h with
  | Uninitialized =>
      Handle h conn req =
      (h, conn, Returned nil (Some errLanguageServerMustBeInitialized))
  | Initialized =>
      ∃ h', Handle h conn req =
            (h', if isConn conn then mkJSONRPC2 true true else conn,
             Returned nil None)
            ∧ lifecycle_of h' = Initialized
  | ShuttingDown =>
      ∃ h' conn', Handle h conn req = (h', conn', Returned nil None)
  end.
Proof.
  intros Hm. unfold lifecycle_of.
  destruct (init h) as [raw|] eqn:Hi.
  - destruct (shutdown h) eqn:Hs.
    + exists h, conn. rewrite Handle_of_body.
      rewrite (Handle_body_shut_down _ _ _ raw Hi Hs), Hm. reflexivity.
    + rewrite Handle_of_body, (Handle_body_ready _ _ _ raw Hi Hs).
      destruct (cancelManager h) as [c|] eqn:Hc.
      * destruct (negb (Notif req)).
        -- rewrite dispatch_exit by exact Hm. cbn.
           eexists. split; [reflexivity|]. cbn. rewrite Hi, Hs. reflexivity.
        -- rewrite dispatch_exit by exact Hm.
           exists h. split; [reflexivity|]. now rewrite Hi, Hs.
      * rewrite dispatch_exit by exact Hm.
        exists h. split; [reflexivity|]. now rewrite Hi, Hs.
  - rewrite Handle_of_body, Handle_body_uninitialized; [reflexivity|exact Hi|].
    rewrite Hm. discriminate.
Qed.

(** C5, as the code has it.  From the state Initialized a first
    [shutdown] request succeeds, logs nothing and moves the handler to
    ShuttingDown; a second one is stopped by the readiness gate: the
    client is answered "language server is shutting down", and neither
    the handler nor the log changes.  Only a direct second call of
    [ShutDown] is silent for the caller: it logs the repetition and
    leaves the handler shut down. *)
Theorem second_shutdown_by_gate h conn req1 req2 :
  lifecycle_of h = Initialized →
  Method req1 = "shutdown" →
  Method req2 = "shutdown" →
  ∃ h1,
    Handle h conn req1 = (h1, conn, Returned nil None)
    ∧ lifecycle_of h1 = ShuttingDown
    ∧ log h1 = log h
    ∧ Handle h1 conn req2 =
      (h1, conn, Returned nil (Some errLanguageServerIsShuttingDown))
    ∧ shutdown (ShutDown h1) = true
    ∧ log (ShutDown h1)
      = (log h1 ++ [log_Println errLanguageServerAlreadyShutdown])%list.
Proof.
  intros Hl Hm1 Hm2. unfold lifecycle_of in Hl.
  destruct (init h) as [raw|] eqn:Hi; [|discriminate].
  destruct (shutdown h) eqn:Hs; [discriminate|].
  assert (Hgate : ∀ h1, init h1 = Some raw → shutdown h1 = true →
            Handle h1 conn req2 =
            (h1, conn, Returned nil (Some errLanguageServerIsShuttingDown))).
  { intros h1 Hi1 Hs1. rewrite Handle_of_body.
    rewrite (Handle_body_shut_down _ _ _ raw Hi1 Hs1), Hm2. reflexivity. }
  rewrite Handle_of_body, (Handle_body_ready _ _ _ raw Hi Hs).
  destruct (cancelManager h) as [c|] eqn:Hc.
  - destruct (negb (Notif req1)).
    + rewrite dispatch_shutdown by exact Hm1. cbn. rewrite Hs, Hi.
      eexists. split; [reflexivity|]. cbn.
      repeat split; try reflexivity. now apply Hgate.
    + rewrite dispatch_shutdown by exact Hm1.
      exists (ShutDown h). unfold lifecycle_of, ShutDown. cbn. rewrite Hi, Hs.
      repeat split; try reflexivity. now apply Hgate.
  - rewrite dispatch_shutdown by exact Hm1.
    exists (ShutDown h). unfold lifecycle_of, ShutDown. cbn. rewrite Hi, Hs.
    repeat split; try reflexivity. now apply Hgate.
Qed.




End WithCollaborators.

(** C4, the claim as written fails: before [initialize] an [exit]
    notification is answered with an error and the connection stays open. *)
Lemma exit_rejected_when_uninitialized :
  lifecycle_of newLangHandler = Uninitialized
  ∧ Sample.Handle newLangHandler Sample.conn (Sample.notification "exit")
    = (newLangHandler, Sample.conn,
       Returned nil (Some errLanguageServerMustBeInitialized))
  ∧ closed Sample.conn = false.
Proof. repeat split. Qed.

Lemma exit_by_lifecycle_witness :
  Method (Sample.notification "exit") = "exit"
  ∧ ∃ h', Sample.Handle Sample.initialized Sample.conn (Sample.notification "exit")
          = (h', mkJSONRPC2 true true, Returned nil None)
          ∧ lifecycle_of h' = Initialized.
Proof.
  split; [reflexivity|].
  exact (exit_by_lifecycle Sample.Unmarshal Sample.handleQuery
           Sample.handleFileSystemRequest Sample.cancelParamsID
           Sample.RootPath Sample.IsURI Sample.PathToURI Sample.projectInit
           Sample.initialized Sample.conn (Sample.notification "exit") eq_refl).
Defined.

(** C5, the claim as written fails: the second [shutdown] request is
    answered with an error, and the server logs nothing. *)
Lemma second_shutdown_is_an_error :
  let first := Sample.Handle Sample.initialized Sample.conn
                             (Sample.request "shutdown" None) in
  let second := Sample.Handle first.1.1 first.1.2
                              (Sample.request "shutdown" None) in
  response first = Returned nil None
  ∧ response second = Returned nil (Some errLanguageServerIsShuttingDown)
  ∧ log second.1.1 = [].
Proof. repeat split. Qed.

Lemma second_shutdown_by_gate_witness :
  lifecycle_of Sample.initialized = Initialized
  ∧ Method (Sample.request "shutdown" None) = "shutdown"
  ∧ ∃ h1,
      Sample.Handle Sample.initialized Sample.conn (Sample.request "shutdown" None)
      = (h1, Sample.conn, Returned nil None)
      ∧ lifecycle_of h1 = ShuttingDown
      ∧ log h1 = log Sample.initialized
      ∧ Sample.Handle h1 Sample.conn (Sample.request "shutdown" None)
        = (h1, Sample.conn, Returned nil (Some errLanguageServerIsShuttingDown))
      ∧ shutdown (ShutDown h1) = true
      ∧ log (ShutDown h1)
        = (log h1 ++ [log_Println errLanguageServerAlreadyShutdown])%list.
Proof.
  split; [reflexivity|]. split; [reflexivity|].
  exact (second_shutdown_by_gate Sample.Unmarshal Sample.handleQuery
           Sample.handleFileSystemRequest Sample.cancelParamsID
           Sample.RootPath Sample.IsURI Sample.PathToURI Sample.projectInit
           Sample.initialized Sample.conn (Sample.request "shutdown" None)
           (Sample.request "shutdown" None) eq_refl eq_refl eq_refl).
Defined.


End LangserverProofs.


(** ** Further properties of the package cache *)

Module CacheExtra.
Import Go Cache CacheMore CacheProofs.
#[local] Open Scope list_scope.

(** *** What the operations leave alone *)

Lemma preserves_ret {A B} (f : world → B) (a : A) : preserves f (ret a).
Proof. intros σ a' σ' [= _ <-]. reflexivity. Qed.

Lemma preserves_bind {A B C} (f : world → C) (m : M A) (k : A → M B) :
  preserves f m → (∀ a, preserves f (k a)) → preserves f (m ≫= k).
Proof.
  intros Hm Hk σ b σ'. rewrite bind_run.
  destruct (m σ) as [a σ1| | |] eqn:E; try discriminate.
  intros H. rewrite (Hk a _ _ _ H). exact (Hm _ _ _ E).
Qed.

Lemma preserves_forEach {A C} (f : world → C) (l : list A) (body : A → M unit) :
  (∀ x, preserves f (body x)) → preserves f (forEach l body).
Proof.
  intros Hb. induction l as [|x l IH]; cbn [forEach].
  - apply preserves_ret.
  - apply preserves_bind; [apply Hb|intros _; exact IH].
Qed.

Lemma preserves_receiver {C} (f : world → C) : preserves f receiver.
Proof. intros σ a σ' [= _ <-]. reflexivity. Qed.

Lemma preserves_cache {C} (f : world → C) : preserves f cache.
Proof.
  intros σ a σ'. unfold cache. destruct (gc σ); [|discriminate].
  intros [= _ <-]. reflexivity.
Qed.

Lemma preserves_deref {C} (f : world → C) l : preserves f (deref l).
Proof.
  intros σ a σ'. unfold deref. destruct (heap σ !! l); [|discriminate].
  intros [= _ <-]. reflexivity.
Qed.

Lemma preserves_node_at {C} (f : world → C) G a : preserves f (node_at G a).
Proof.
  intros σ n σ'. unfold node_at. destruct (G !! a); [|discriminate].
  intros [= _ <-]. reflexivity.
Qed.

Lemma preserves_fault {A C} (f : world → C) : preserves f (@fault A).
Proof. intros σ a σ'. discriminate. Qed.

Lemma preserves_block {A C} (f : world → C) : preserves f (@block A).
Proof. intros σ a σ'. discriminate. Qed.

Lemma preserves_outOfFuel {A C} (f : world → C) : preserves f (@outOfFuel A).
Proof. intros σ a σ'. discriminate. Qed.

(** [setCache] changes the cache only, [alloc] and [setImport] the heap
    only, [os.Stat] the log only. *)
Lemma preserves_setCache {C} (f : world → C) c :
  (∀ h g e s g', f (mkWorld h g' e s) = f (mkWorld h g e s)) →
  preserves f (setCache c).
Proof.
  intros Hf σ a σ'. unfold setCache. destruct (gc σ); [|discriminate].
  intros [= _ <-]. destruct σ. apply Hf.
Qed.

Lemma preserves_alloc {C} (f : world → C) P :
  (∀ h g e s h', f (mkWorld h' g e s) = f (mkWorld h g e s)) →
  preserves f (alloc P).
Proof. intros Hf σ a σ' [= _ <-]. destruct σ. apply Hf. Qed.

Lemma preserves_setImport {C} (f : world → C) par path child :
  (∀ h g e s h', f (mkWorld h' g e s) = f (mkWorld h g e s)) →
  preserves f (setImport par path child).
Proof.
  intros Hf σ a σ'. unfold setImport. destruct (heap σ !! par); [|discriminate].
  intros [= _ <-]. destruct σ. apply Hf.
Qed.

Lemma preserves_os_Stat {C} (f : world → C) name :
  (∀ h g e s s', f (mkWorld h g e s') = f (mkWorld h g e s)) →
  preserves f (os_Stat name).
Proof. intros Hf σ a σ' [= _ <-]. destruct σ. apply Hf. Qed.

(** One step of a proof that an operation preserves a component the
    primitive in front does not write. *)
Ltac preserves_step :=
  lazymatch goal with
  | |- preserves _ (mret _) => apply preserves_ret
  | |- preserves _ (ret _) => apply preserves_ret
  | |- preserves _ fault => apply preserves_fault
  | |- preserves _ block => apply preserves_block
  | |- preserves _ outOfFuel => apply preserves_outOfFuel
  | |- preserves _ receiver => apply preserves_receiver
  | |- preserves _ cache => apply preserves_cache
  | |- preserves _ (deref _) => apply preserves_deref
  | |- preserves _ (node_at _ _) => apply preserves_node_at
  | |- preserves _ (setCache _) => apply preserves_setCache; reflexivity
  | |- preserves _ (alloc _) => apply preserves_alloc; reflexivity
  | |- preserves _ (setImport _ _ _) => apply preserves_setImport; reflexivity
  | |- preserves _ (os_Stat _) => apply preserves_os_Stat; reflexivity
  | |- preserves _ (_ ≫= _) => apply preserves_bind; [|intros ?]
  | |- preserves _ (forEach _ _) => apply preserves_forEach; intros ?
  | |- preserves _ (match ?x with _ => _ end) => destruct x
  | |- preserves _ _ => solve [auto]
  end.

Lemma preserves_heap_delete i : preserves heap (delete_ i).
Proof. unfold delete_. repeat preserves_step. Qed.

Lemma preserves_heap_getPackageModTime p : preserves heap (getPackageModTime p).
Proof. unfold getPackageModTime. repeat preserves_step. Qed.

Lemma preserves_heap_put l : preserves heap (put l).
Proof.
  unfold put. pose proof preserves_heap_delete. pose proof preserves_heap_getPackageModTime.
  repeat preserves_step.
Qed.

Lemma preserves_heap_Lock : preserves heap Lock.
Proof. unfold Lock, mu_Lock. repeat preserves_step. Qed.

Lemma preserves_heap_Unlock : preserves heap Unlock.
Proof. unfold Unlock, mu_Unlock. repeat preserves_step. Qed.

(** X1.  [Put], [Delete] and [clean] never make, change or drop a
    [Package]: when they return, the heap of packages is as it was.  [Put]
    stores the pointer it is given; only [Add] makes packages. *)
Theorem mutations_leave_packages_alone :
  (∀ l, preserves heap (Put l))
  ∧ (∀ i, preserves heap (Delete i))
  ∧ (∀ ids, preserves heap (clean ids)).
Proof.
  pose proof preserves_heap_delete. pose proof preserves_heap_put.
  pose proof preserves_heap_Lock. pose proof preserves_heap_Unlock.
  split; [|split].
  - intros l. unfold Put. repeat preserves_step.
  - intros i. unfold Delete. repeat preserves_step.
  - intros ids. unfold clean. repeat preserves_step.
Qed.

(** *** Lookups are read-only *)

Lemma Walk_blocked {S E} order (walkFunc : WalkFunc S E) ranks s σ c :
  gc σ = Some c → writer (mu c) = true →
  Walk order walkFunc ranks s σ = Blocked.
Proof.
  intros Hc Hw. unfold Walk, RLock, mu_RLock. mstep. rewrite Hc.
  rewrite !bind_run, receiver_run, Hc, !bind_run, (cache_run _ _ Hc), Hw.
  reflexivity.
Qed.

(** X2.  The lookups are read-only: whenever [Get], [GetByURI], [get] or
    [Walk] returns, the world is exactly as before the call, the mutex
    included; this holds on a nil cache, and also when [Walk] stops at an
    error of the visitor. *)
Theorem lookups_change_nothing σ :
  (∀ path p σ', Get path σ = Ok p σ' → σ' = σ)
  ∧ (∀ filename p σ', GetByURI filename σ = Ok p σ' → σ' = σ)
  ∧ (∀ i p σ', get i σ = Ok p σ' → σ' = σ)
  ∧ (∀ S E order (walkFunc : WalkFunc S E) ranks s r σ',
       Walk order walkFunc ranks s σ = Ok r σ' → σ' = σ).
Proof.
  destruct (gc σ) as [c|] eqn:Hc.
  - destruct (writer (mu c)) eqn:Hw.
    + split; [|split; [|split]].
      * intros path p σ'. rewrite (Get_blocked _ _ _ Hc Hw). discriminate.
      * intros filename p σ'. rewrite (GetByURI_blocked _ _ _ Hc Hw). discriminate.
      * intros i p σ'. rewrite get_run. intros [= _ <-]. reflexivity.
      * intros S E order walkFunc ranks s r σ'.
        rewrite (Walk_blocked _ _ _ _ _ _ Hc Hw). discriminate.
    + split; [|split; [|split]].
      * intros path p σ'. rewrite (Get_run _ _ _ Hc Hw). intros [= _ <-]. reflexivity.
      * intros filename p σ'. rewrite (GetByURI_run _ _ _ Hc Hw).
        intros [= _ <-]. reflexivity.
      * intros i p σ'. rewrite get_run. intros [= _ <-]. reflexivity.
      * intros S E order walkFunc ranks s r σ'.
        rewrite (Walk_run _ _ _ _ _ _ Hc Hw). intros [= _ <-]. reflexivity.
  - split; [|split; [|split]].
    + intros path p σ'. unfold Get. rewrite bind_run, receiver_run, Hc.
      intros [= _ <-]. reflexivity.
    + intros filename p σ'. unfold GetByURI. rewrite bind_run, receiver_run, Hc.
      intros [= _ <-]. reflexivity.
    + intros i p σ'. rewrite get_run. intros [= _ <-]. reflexivity.
    + intros S E order walkFunc ranks s r σ'. unfold Walk.
      rewrite bind_run, receiver_run, Hc. intros [= _ <-]. reflexivity.
Qed.

(** *** Storing and deleting a unit *)

Lemma withSrcUnit_wf : wf Cache.Sample.withSrcUnit.
Proof. exact (wf_empty_index Cache.Sample.withSrcUnit NewCache eq_refl eq_refl). Qed.

Lemma cached_wf : wf Sample.cached.
Proof.
  intros c i gp [= <-] Hi. cbn in Hi.
  apply lookup_insert_Some in Hi as [[<- <-]|[_ Hi]].
  - exists Cache.Sample.srcUnit. split; reflexivity.
  - rewrite lookup_empty in Hi. discriminate.
Qed.

(** What [Put] leaves, on a well-formed world with the mutex free. *)
Lemma Put_result σ c l P :
  gc σ = Some c → unlocked c → wf σ → heap σ !! l = Some P →
  ∃ c1,
    evicted (heap σ) (id P) c = Some c1
    ∧ Put l σ
      = Ok tt (mkWorld (heap σ)
                 (Some (stored (mkGlobalPackage l (statTime (fs σ) P)) P c1))
                 (fs σ) (statLog σ ++ statName P))
    ∧ unlocked (stored (mkGlobalPackage l (statTime (fs σ) P)) P c1).
Proof.
  intros Hc Hu Hwf Hl.
  destruct (put_wf σ c l P Hwf Hc Hl) as (c1 & σ' & Hev & Hput & -> & _).
  exists c1. split; [exact Hev|]. rewrite (Put_run _ _ _ _ Hc Hu Hl).
  split; [exact Hput|]. unfold unlocked. cbn.
  rewrite (evicted_mu _ _ _ _ Hev). exact Hu.
Qed.

Lemma unlocked_writer c : unlocked c → writer (mu c) = false.
Proof. unfold unlocked. intros ->. reflexivity. Qed.

(** X3.  After [Put] the unit is found through all three indices: [get]
    by its id and [GetByURI] by each of its files give the package that
    was put, [Get] by its path gives the entry of that package, stamped
    with the time [os.Stat] had for its first file. *)
Theorem Put_then_found σ c l P :
  gc σ = Some c → unlocked c → wf σ → heap σ !! l = Some P →
  ∃ σ',
    Put l σ = Ok tt σ'
    ∧ get (id P) σ' = Ok (Some l) σ'
    ∧ Get (pkgPath P) σ'
      = Ok (Some (mkGlobalPackage l (statTime (fs σ) P))) σ'
    ∧ ∀ file, file ∈ files P → GetByURI file σ' = Ok (Some l) σ'.
Proof.
  intros Hc Hu Hwf Hl.
  destruct (Put_result σ c l P Hc Hu Hwf Hl) as (c1 & Hev & Hput & Hu').
  eexists. split; [exact Hput|].
  split. { rewrite get_run. cbn. rewrite lookup_insert_eq. reflexivity. }
  split.
  { erewrite Get_run; [|reflexivity|exact (unlocked_writer _ Hu')].
    cbn. rewrite lookup_insert_eq. reflexivity. }
  intros file Hf.
  erewrite GetByURI_run; [|reflexivity|exact (unlocked_writer _ Hu')].
  cbn [fileMap stored]. rewrite (putFiles_lookup_file _ _ _ file Hf). reflexivity.
Qed.

Lemma Put_then_found_witness :
  unlocked NewCache ∧ wf Cache.Sample.withSrcUnit
  ∧ ∃ σ',
      Put 1%positive Cache.Sample.withSrcUnit = Ok tt σ'
      ∧ get "src" σ' = Ok (Some 1%positive) σ'
      ∧ Get "src" σ' = Ok (Some (mkGlobalPackage 1%positive 42%Z)) σ'
      ∧ ∀ file, file ∈ ["/Src/a.go"] → GetByURI file σ' = Ok (Some 1%positive) σ'.
Proof.
  split; [reflexivity|]. split; [exact withSrcUnit_wf|].
  exact (Put_then_found Cache.Sample.withSrcUnit NewCache 1%positive
           Cache.Sample.srcUnit eq_refl eq_refl withSrcUnit_wf eq_refl).
Defined.

(** X4.  [Put] of a unit whose id is cached replaces the old unit and
    leaves no stale entry of it: the old path, unless it is the new path,
    and every old file that is not a file of the new unit are gone from
    the path index and the file index; the entries of the id index under
    other ids are untouched. *)
Theorem Put_replaces_unit_of_same_id σ c l P gp0 Q :
  gc σ = Some c → unlocked c → heap σ !! l = Some P →
  idMap c !! id P = Some gp0 → heap σ !! pkg gp0 = Some Q →
  ∃ σ' c',
    Put l σ = Ok tt σ' ∧ gc σ' = Some c'
    ∧ idMap c' !! id P = Some (mkGlobalPackage l (statTime (fs σ) P))
    ∧ (pkgPath Q ≠ pkgPath P → pathMap c' !! pkgPath Q = None)
    ∧ (∀ file, file ∈ files Q →
         LowerDriver file ∉ map LowerDriver (files P) →
         fileMap c' !! LowerDriver file = None)
    ∧ (∀ j, j ≠ id P → idMap c' !! j = idMap c !! j).
Proof.
  intros Hc Hu Hl Hid HQ.
  assert (Hev : evicted (heap σ) (id P) c = Some (deleted (id P) Q c)).
  { unfold evicted. rewrite Hid, HQ. reflexivity. }
  eexists _, _. rewrite (Put_run _ _ _ _ Hc Hu Hl), (put_run _ _ _ _ Hc Hl), Hev.
  split; [reflexivity|]. split; [reflexivity|]. cbn [idMap pathMap fileMap stored deleted].
  split; [apply lookup_insert_eq|]. split.
  { intros Hne. rewrite lookup_insert_ne by congruence. apply lookup_delete_eq. }
  split.
  { intros file Hf Hnot. rewrite putFiles_lookup_other by exact Hnot.
    rewrite deleteFiles_lookup. rewrite decide_True; [reflexivity|].
    apply list_elem_of_fmap. exists file. split; [reflexivity|exact Hf]. }
  intros j Hj. rewrite lookup_insert_ne by congruence.
  apply lookup_delete_ne. congruence.
Qed.

Lemma Put_replaces_unit_of_same_id_witness :
  unlocked (stored Sample.srcEntry Cache.Sample.srcUnit NewCache)
  ∧ ∃ σ' c',
      Put 1%positive Sample.cached = Ok tt σ' ∧ gc σ' = Some c'
      ∧ idMap c' !! "src" = Some (mkGlobalPackage 1%positive 42%Z).
Proof.
  split; [reflexivity|].
  destruct (Put_replaces_unit_of_same_id Sample.cached _ 1%positive
              Cache.Sample.srcUnit Sample.srcEntry Cache.Sample.srcUnit
              eq_refl eq_refl eq_refl eq_refl eq_refl)
    as (σ' & c' & H1 & H2 & H3 & _).
  exists σ', c'. split; [exact H1|]. split; [exact H2|exact H3].
Defined.

(** X5.  [Delete] of a cached id removes the unit from all three indices:
    afterwards [get] by the id, [Get] by the path of the unit and
    [GetByURI] by each of its files find nothing, and the entries of the id
    index under other ids are untouched. *)
Theorem Delete_removes_every_key σ c i gp P :
  gc σ = Some c → unlocked c →
  idMap c !! i = Some gp → heap σ !! pkg gp = Some P →
  ∃ σ' c',
    Delete i σ = Ok tt σ' ∧ gc σ' = Some c'
    ∧ get i σ' = Ok None σ'
    ∧ Get (pkgPath P) σ' = Ok None σ'
    ∧ (∀ file, file ∈ files P → GetByURI file σ' = Ok None σ')
    ∧ (∀ j, j ≠ i → idMap c' !! j = idMap c !! j).
Proof.
  intros Hc Hu Hid HP.
  assert (Hev : evicted (heap σ) i c = Some (deleted i P c)).
  { unfold evicted. rewrite Hid, HP. reflexivity. }
  assert (Hw : writer (mu (deleted i P c)) = false).
  { cbn. exact (unlocked_writer _ Hu). }
  eexists _, _. rewrite (Delete_run _ _ _ Hc Hu), (delete_run _ _ _ Hc), Hev.
  split; [reflexivity|]. split; [reflexivity|].
  split. { rewrite get_run. cbn. rewrite lookup_delete_eq. reflexivity. }
  split.
  { erewrite Get_run; [|reflexivity|exact Hw]. cbn.
    rewrite lookup_delete_eq. reflexivity. }
  split.
  { intros file Hf. erewrite GetByURI_run; [|reflexivity|exact Hw].
    cbn [fileMap deleted]. rewrite deleteFiles_lookup, decide_True; [reflexivity|].
    apply list_elem_of_fmap. exists file. split; [reflexivity|exact Hf]. }
  intros j Hj. cbn. apply lookup_delete_ne. congruence.
Qed.

Lemma Delete_removes_every_key_witness :
  unlocked (stored Sample.srcEntry Cache.Sample.srcUnit NewCache)
  ∧ ∃ σ' c',
      Delete "src" Sample.cached = Ok tt σ' ∧ gc σ' = Some c'
      ∧ get "src" σ' = Ok None σ'
      ∧ Get "src" σ' = Ok None σ'
      ∧ (∀ file, file ∈ ["/Src/a.go"] → GetByURI file σ' = Ok None σ')
      ∧ (∀ j, j ≠ "src" →
           idMap c' !! j
           = idMap (stored Sample.srcEntry Cache.Sample.srcUnit NewCache) !! j).
Proof.
  split; [reflexivity|].
  exact (Delete_removes_every_key Sample.cached _ "src" Sample.srcEntry
           Cache.Sample.srcUnit eq_refl eq_refl eq_refl eq_refl).
Defined.

Lemma deleteFiles_putFiles p fl m :
  (∀ file, file ∈ fl → m !! LowerDriver file = None) →
  deleteFiles fl (putFiles p fl m) = m.
Proof.
  intros Hfree. apply map_eq. intros k. rewrite deleteFiles_lookup.
  destruct (decide (k ∈ map LowerDriver fl)) as [Hin|Hnin].
  - apply list_elem_of_fmap in Hin as (file & -> & Hin). symmetry. apply Hfree, Hin.
  - apply putFiles_lookup_other, Hnin.
Qed.

(** X6.  [Put] followed by [Delete] of the id, for a unit whose id, path
    and files were all free, gives back the cache as it was; what stays is
    the call of [os.Stat] in the log. *)
Theorem Put_then_Delete_restores σ c l P :
  gc σ = Some c → unlocked c → heap σ !! l = Some P → absent c P →
  ∃ σ1,
    Put l σ = Ok tt σ1
    ∧ Delete (id P) σ1
      = Ok tt (mkWorld (heap σ) (Some c) (fs σ) (statLog σ ++ statName P)).
Proof.
  intros Hc Hu Hl (Hid & Hpath & Hfiles).
  assert (Hev : evicted (heap σ) (id P) c = Some c).
  { unfold evicted. rewrite Hid. reflexivity. }
  eexists. rewrite (Put_run _ _ _ _ Hc Hu Hl), (put_run _ _ _ _ Hc Hl), Hev.
  split; [reflexivity|].
  set (gp := mkGlobalPackage l (statTime (fs σ) P)).
  erewrite Delete_run; [|reflexivity|exact Hu].
  erewrite delete_run by reflexivity. unfold evicted. cbn [idMap stored heap].
  rewrite lookup_insert_eq. cbn [pkg gp]. rewrite Hl.
  unfold withCache, deleted, stored. cbn.
  rewrite delete_insert_eq, (delete_id _ _ Hid).
  rewrite delete_insert_eq, (delete_id _ _ Hpath).
  rewrite (deleteFiles_putFiles _ _ _ Hfiles). destruct c; reflexivity.
Qed.

Lemma Put_then_Delete_restores_witness :
  unlocked NewCache ∧ absent NewCache Cache.Sample.srcUnit
  ∧ ∃ σ1,
      Put 1%positive Cache.Sample.withSrcUnit = Ok tt σ1
      ∧ Delete "src" σ1
        = Ok tt (mkWorld (heap Cache.Sample.withSrcUnit) (Some NewCache)
                   (fs Cache.Sample.withSrcUnit) ["/Src/a.go"]).
Proof.
  assert (Ha : absent NewCache Cache.Sample.srcUnit).
  { split; [reflexivity|]. split; [reflexivity|]. intros; reflexivity. }
  split; [reflexivity|]. split; [exact Ha|].
  exact (Put_then_Delete_restores Cache.Sample.withSrcUnit NewCache 1%positive
           Cache.Sample.srcUnit eq_refl eq_refl eq_refl Ha).
Defined.

(** X7.  [Delete] of an id that is not cached changes nothing, so
    deleting twice is deleting once: on a well-formed world with the mutex
    free [Delete] returns, and a second [Delete] of the same id returns the
    same world. *)
Theorem Delete_twice_is_Delete_once σ c i :
  gc σ = Some c → unlocked c → wf σ →
  ∃ σ',
    Delete i σ = Ok tt σ'
    ∧ Delete i σ' = Ok tt σ'
    ∧ (idMap c !! i = None → σ' = σ).
Proof.
  intros Hc Hu Hwf.
  destruct (wf_evicted σ c i Hwf Hc) as [c1 Hev].
  exists (withCache σ c1). rewrite (Delete_run _ _ _ Hc Hu), (delete_run _ _ _ Hc), Hev.
  split; [reflexivity|]. split.
  - assert (Hu1 : unlocked c1).
    { unfold unlocked. rewrite (evicted_mu _ _ _ _ Hev). exact Hu. }
    erewrite Delete_run; [|reflexivity|exact Hu1].
    apply (delete_absent _ c1); [reflexivity|].
    rewrite (evicted_idMap _ _ _ _ Hev). apply lookup_delete_eq.
  - intros Hnone. unfold evicted in Hev. rewrite Hnone in Hev.
    injection Hev as <-. apply withCache_id, Hc.
Qed.

Lemma Delete_twice_is_Delete_once_witness :
  unlocked (stored Sample.srcEntry Cache.Sample.srcUnit NewCache)
  ∧ wf Sample.cached
  ∧ ∃ σ', Delete "src" Sample.cached = Ok tt σ' ∧ Delete "src" σ' = Ok tt σ'.
Proof.
  split; [reflexivity|]. split; [exact cached_wf|].
  destruct (Delete_twice_is_Delete_once Sample.cached _ "src" eq_refl eq_refl
              cached_wf) as (σ' & H1 & H2 & _).
  exists σ'. split; assumption.
Defined.

(** *** [clean] and the mutex *)

Lemma forEach_delete_run ids σ c :
  gc σ = Some c →
  forEach ids delete_ σ =
  match evictedAll (heap σ) ids c with
  | Some c' => Ok tt (withCache σ c')
  | None => Fault
  end.
Proof.
  revert σ c. induction ids as [|i ids IH]; intros σ c Hc; cbn [forEach evictedAll].
  - rewrite (withCache_id _ _ Hc). reflexivity.
  - rewrite bind_run, (delete_run _ _ _ Hc).
    destruct (evicted (heap σ) i c) as [c'|]; [|reflexivity].
    erewrite IH by reflexivity. reflexivity.
Qed.

Lemma evictedAll_withMu h ids m c :
  evictedAll h ids (withMu m c) = withMu m <$> evictedAll h ids c.
Proof.
  revert c. induction ids as [|i ids IH]; intros c; cbn [evictedAll]; [reflexivity|].
  rewrite evicted_withMu. destruct (evicted h i c) as [c'|]; cbn; [apply IH|reflexivity].
Qed.

Lemma evictedAll_mu h ids c c' : evictedAll h ids c = Some c' → mu c' = mu c.
Proof.
  revert c. induction ids as [|i ids IH]; intros c; cbn [evictedAll].
  - intros [= <-]. reflexivity.
  - destruct (evicted h i c) as [c1|] eqn:He; [|discriminate].
    intros H. rewrite (IH _ H). exact (evicted_mu _ _ _ _ He).
Qed.

Lemma forEach_Delete_run ids σ c :
  gc σ = Some c → unlocked c →
  forEach ids Delete σ =
  match evictedAll (heap σ) ids c with
  | Some c' => Ok tt (withCache σ c')
  | None => Fault
  end.
Proof.
  revert σ c. induction ids as [|i ids IH]; intros σ c Hc Hu; cbn [forEach evictedAll].
  - rewrite (withCache_id _ _ Hc). reflexivity.
  - rewrite bind_run, (Delete_run _ _ _ Hc Hu), (delete_run _ _ _ Hc).
    destruct (evicted (heap σ) i c) as [c'|] eqn:He; [|reflexivity].
    erewrite IH; [reflexivity|reflexivity|].
    unfold unlocked. rewrite (evicted_mu _ _ _ _ He). exact Hu.
Qed.

Lemma clean_run ids σ c :
  gc σ = Some c → unlocked c →
  clean ids σ =
  match evictedAll (heap σ) ids c with
  | Some c' => Ok tt (withCache σ c')
  | None => Fault
  end.
Proof.
  intros Hc Hu. unfold clean. mstep. rewrite Hc.
  destruct ids as [|i ids].
  - cbn. rewrite (withCache_id _ _ Hc). reflexivity.
  - rewrite bind_run, (Lock_run _ _ Hc Hu), bind_run.
    erewrite forEach_delete_run by reflexivity. cbn [heap withCache].
    rewrite evictedAll_withMu.
    destruct (evictedAll (heap σ) (i :: ids) c) as [c'|] eqn:He; [|reflexivity].
    cbn [fmap option_fmap option_map]. erewrite Unlock_run by reflexivity.
    apply evictedAll_mu in He. rewrite Hu in He.
    unfold withCache, withMu. cbn. rewrite <- He. destruct c'; reflexivity.
Qed.

(** X8.  [clean] is the batch of [Delete]s: with the mutex free,
    [clean(ids)] leaves what deleting the ids one after the other, in the
    order of the list, leaves. *)
Theorem clean_is_Delete_of_each σ c ids :
  gc σ = Some c → unlocked c → clean ids σ = forEach ids Delete σ.
Proof.
  intros Hc Hu. rewrite (clean_run _ _ _ Hc Hu), (forEach_Delete_run _ _ _ Hc Hu).
  reflexivity.
Qed.

Lemma clean_is_Delete_of_each_witness :
  unlocked (stored Sample.srcEntry Cache.Sample.srcUnit NewCache)
  ∧ clean ["fmt"; "src"] Sample.cached = forEach ["fmt"; "src"] Delete Sample.cached.
Proof.
  split; [reflexivity|].
  exact (clean_is_Delete_of_each Sample.cached _ ["fmt"; "src"] eq_refl eq_refl).
Defined.

Lemma Lock_held σ c : gc σ = Some c → held c → Lock σ = Blocked.
Proof.
  intros Hc Hh. unfold Lock, mu_Lock. rewrite bind_run, receiver_run, Hc.
  rewrite bind_run, (cache_run _ _ Hc).
  destruct (writer (mu c)) eqn:Hw; [reflexivity|].
  destruct Hh as [Hh|Hh]; [congruence|].
  destruct (readers (mu c)); [contradiction|reflexivity].
Qed.

(** X9.  The mutations wait for the mutex: while a writer or a reader
    holds it, [Put], [Delete], [Add] and [clean] of a list that is not
    empty do not get past [Lock], so they touch nothing.  [clean] of the
    empty list returns before taking the mutex. *)
Theorem mutations_wait_for_the_mutex σ c :
  gc σ = Some c → held c →
  (∀ l, Put l σ = Blocked)
  ∧ (∀ i, Delete i σ = Blocked)
  ∧ (∀ fuel G a, Add fuel G a σ = Blocked)
  ∧ (∀ i ids, clean (i :: ids) σ = Blocked)
  ∧ clean [] σ = Ok tt σ.
Proof.
  intros Hc Hh. pose proof (Lock_held σ c Hc Hh) as HL.
  split; [|split; [|split; [|split]]].
  - intros l. unfold Put. rewrite bind_run, receiver_run, Hc, bind_run, HL. reflexivity.
  - intros i. unfold Delete. rewrite bind_run, receiver_run, Hc, bind_run, HL. reflexivity.
  - intros fuel G a. unfold Add. rewrite bind_run, receiver_run, Hc, bind_run, HL.
    reflexivity.
  - intros i ids. unfold clean. rewrite bind_run, receiver_run, Hc, bind_run, HL.
    reflexivity.
  - unfold clean. rewrite bind_run, receiver_run, Hc. reflexivity.
Qed.

Lemma mutations_wait_for_the_mutex_witness :
  held (mkGlobalCache (mkRWMutex false 1) ∅ ∅ ∅)
  ∧ Put 1%positive Sample.beingRead = Blocked
  ∧ clean [] Sample.beingRead = Ok tt Sample.beingRead.
Proof.
  assert (Hh : held (mkGlobalCache (mkRWMutex false 1) ∅ ∅ ∅)) by (right; discriminate).
  split; [exact Hh|].
  destruct (mutations_wait_for_the_mutex Sample.beingRead _ eq_refl Hh)
    as (HP & _ & _ & _ & Hc).
  split; [apply HP|exact Hc].
Defined.

Lemma preserves_mu_delete i : preserves muOf (delete_ i).
Proof.
  intros σ a σ'. destruct (gc σ) as [c|] eqn:Hc.
  - rewrite (delete_run _ _ _ Hc).
    destruct (evicted (heap σ) i c) as [c'|] eqn:He; [|discriminate].
    intros [= _ <-]. unfold muOf. cbn. rewrite Hc. cbn.
    rewrite (evicted_mu _ _ _ _ He). reflexivity.
  - rewrite (delete_nil _ _ Hc). intros [= _ <-]. reflexivity.
Qed.

Lemma preserves_mu_put l : preserves muOf (put l).
Proof.
  intros σ a σ'. destruct (gc σ) as [c|] eqn:Hc.
  - destruct (heap σ !! l) as [P|] eqn:Hl.
    + rewrite (put_run _ _ _ _ Hc Hl).
      destruct (evicted (heap σ) (id P) c) as [c'|] eqn:He; [|discriminate].
      intros [= _ <-]. unfold muOf. cbn. rewrite Hc. cbn.
      rewrite (evicted_mu _ _ _ _ He). reflexivity.
    + unfold put. rewrite bind_run, receiver_run, Hc, bind_run.
      unfold deref at 1. rewrite Hl. discriminate.
  - unfold put. rewrite bind_run, receiver_run, Hc.
    apply preserves_bind; [apply preserves_deref|intros ?; apply preserves_ret].
Qed.

Lemma preserves_mu_recusiveAdd fuel G :
  ∀ a parent, preserves muOf (recusiveAdd fuel G a parent).
Proof.
  pose proof preserves_mu_put as Hput.
  induction fuel as [|n IH]; intros a parent; cbn [recusiveAdd].
  - apply preserves_outOfFuel.
  - unfold create. repeat preserves_step.
Qed.

(** A critical section: [Lock], a body that leaves the mutex alone,
    [Unlock]. *)
Lemma locked_section (body : M unit) σ σ' c :
  gc σ = Some c → preserves muOf body →
  (Lock;; body;; Unlock) σ = Ok tt σ' →
  unlocked c ∧ ∃ c', gc σ' = Some c' ∧ unlocked c'.
Proof.
  intros Hc Hbody. rewrite bind_run.
  destruct (mu c) as [w r] eqn:Hmu.
  assert (Hcases : (w = false ∧ r = 0) ∨ held c).
  { unfold held. rewrite Hmu. cbn. destruct w; [right; left; reflexivity|].
    destruct r; [left; split; reflexivity|right; right; discriminate]. }
  destruct Hcases as [[-> ->]|Hh]; [|rewrite (Lock_held _ _ Hc Hh); discriminate].
  rewrite (Lock_run _ _ Hc Hmu), bind_run.
  destruct (body _) as [[] σ1| | |] eqn:Hb; try discriminate.
  pose proof (Hbody _ _ _ Hb) as Hm. unfold muOf in Hm. cbn in Hm.
  destruct (gc σ1) as [c1|] eqn:Hc1; [|discriminate]. cbn in Hm.
  injection Hm as Hm.
  erewrite Unlock_run by eassumption. intros [= <-].
  split; [exact Hmu|]. eexists. split; reflexivity.
Qed.

(** X10.  The mutations give the mutex back: whenever [Put], [Delete],
    [Add] or [clean] of a list that is not empty returns on a non-nil
    cache, the mutex was free before the call and is free after it. *)
Theorem mutations_release_the_mutex σ σ' c :
  gc σ = Some c →
  (∀ l, Put l σ = Ok tt σ' → unlocked c ∧ ∃ c', gc σ' = Some c' ∧ unlocked c')
  ∧ (∀ i, Delete i σ = Ok tt σ' → unlocked c ∧ ∃ c', gc σ' = Some c' ∧ unlocked c')
  ∧ (∀ fuel G a, Add fuel G a σ = Ok tt σ' →
       unlocked c ∧ ∃ c', gc σ' = Some c' ∧ unlocked c')
  ∧ (∀ i ids, clean (i :: ids) σ = Ok tt σ' →
       unlocked c ∧ ∃ c', gc σ' = Some c' ∧ unlocked c').
Proof.
  intros Hc. split; [|split; [|split]].
  - intros l. unfold Put. rewrite bind_run, receiver_run, Hc.
    apply locked_section; [exact Hc|apply preserves_mu_put].
  - intros i. unfold Delete. rewrite bind_run, receiver_run, Hc.
    apply locked_section; [exact Hc|apply preserves_mu_delete].
  - intros fuel G a. unfold Add. rewrite bind_run, receiver_run, Hc.
    apply locked_section; [exact Hc|apply preserves_mu_recusiveAdd].
  - intros i ids. unfold clean. rewrite bind_run, receiver_run, Hc.
    apply locked_section; [exact Hc|].
    apply preserves_forEach. intros j. apply preserves_mu_delete.
Qed.

Lemma Put_withSrcUnit :
  Put 1%positive Cache.Sample.withSrcUnit = Ok tt Sample.cached.
Proof. vm_compute. reflexivity. Qed.

Lemma mutations_release_the_mutex_witness :
  gc Cache.Sample.withSrcUnit = Some NewCache
  ∧ Put 1%positive Cache.Sample.withSrcUnit = Ok tt Sample.cached
  ∧ unlocked NewCache
  ∧ ∃ c', gc Sample.cached = Some c' ∧ unlocked c'.
Proof.
  split; [reflexivity|]. split; [exact Put_withSrcUnit|].
  exact (proj1 (mutations_release_the_mutex Cache.Sample.withSrcUnit Sample.cached
                  NewCache eq_refl) 1%positive Put_withSrcUnit).
Defined.

(** *** The invariant of the three indices *)

Lemma wf_evictedAll σ c ids :
  wf σ → consistent σ → gc σ = Some c → unlocked c →
  ∃ σ', forEach ids Delete σ = Ok tt σ' ∧ wf σ' ∧ consistent σ'.
Proof.
  revert σ c. induction ids as [|i ids IH]; intros σ c Hwf Hcons Hc Hu.
  - exists σ. split; [reflexivity|]. split; assumption.
  - destruct (Delete_keeps_consistent σ c i Hc Hu Hwf Hcons) as (σ1 & HD & Hwf1 & Hcons1).
    pose proof HD as HD'.
    rewrite (Delete_run _ _ _ Hc Hu), (delete_run _ _ _ Hc) in HD'.
    destruct (evicted (heap σ) i c) as [c1|] eqn:He; [|discriminate].
    injection HD' as <-.
    destruct (IH (withCache σ c1) c1 Hwf1 Hcons1 eq_refl) as (σ' & Hrest & Hwf' & Hcons').
    { unfold unlocked. rewrite (evicted_mu _ _ _ _ He). exact Hu. }
    exists σ'. cbn [forEach]. rewrite bind_run, HD. split; [exact Hrest|].
    split; assumption.
Qed.

(** X11.  The invariant of the three indices and how far the code keeps
    it.  In a world that is well formed and [consistent], with the mutex
    free: [Delete] and [clean] return and leave such a world; so does
    [Put] of a package whose path and files are free or held by a unit
    with the id of the package.  The empty cache is such a world. *)
Theorem mutations_keep_the_indices_consistent σ c :
  gc σ = Some c → unlocked c → wf σ → consistent σ →
  (∀ i, ∃ σ', Delete i σ = Ok tt σ' ∧ wf σ' ∧ consistent σ')
  ∧ (∀ ids, ∃ σ', clean ids σ = Ok tt σ' ∧ wf σ' ∧ consistent σ')
  ∧ (∀ l P, heap σ !! l = Some P → unoccupied σ P →
       ∃ σ', Put l σ = Ok tt σ' ∧ wf σ' ∧ consistent σ').
Proof.
  intros Hc Hu Hwf Hcons. split; [|split].
  - intros i. exact (Delete_keeps_consistent σ c i Hc Hu Hwf Hcons).
  - intros ids. rewrite (clean_run _ _ _ Hc Hu), <- (forEach_Delete_run _ _ _ Hc Hu).
    exact (wf_evictedAll σ c ids Hwf Hcons Hc Hu).
  - intros l P Hl Hfree. exact (Put_keeps_consistent σ c l P Hc Hu Hwf Hcons Hl Hfree).
Qed.

Lemma empty_index_consistent σ c :
  gc σ = Some c → idMap c = ∅ → pathMap c = ∅ → fileMap c = ∅ → consistent σ.
Proof.
  intros Hc H1 H2 H3 c' Hc'. rewrite Hc in Hc'. injection Hc' as <-.
  rewrite H1, H2, H3. split; [|split]; intros ? ? ? H; rewrite lookup_empty in H;
    discriminate.
Qed.

Lemma mutations_keep_the_indices_consistent_witness :
  unlocked NewCache ∧ wf Cache.Sample.withSrcUnit ∧ consistent Cache.Sample.withSrcUnit
  ∧ unoccupied Cache.Sample.withSrcUnit Cache.Sample.srcUnit
  ∧ ∃ σ', Put 1%positive Cache.Sample.withSrcUnit = Ok tt σ' ∧ wf σ' ∧ consistent σ'.
Proof.
  assert (Hcons : consistent Cache.Sample.withSrcUnit)
    by exact (empty_index_consistent Cache.Sample.withSrcUnit NewCache
                eq_refl eq_refl eq_refl eq_refl).
  assert (Hfree : unoccupied Cache.Sample.withSrcUnit Cache.Sample.srcUnit).
  { intros c gp Q [= <-] _. split; [|intros file _]; cbn; rewrite lookup_empty;
      discriminate. }
  split; [reflexivity|]. split; [exact withSrcUnit_wf|]. split; [exact Hcons|].
  split; [exact Hfree|].
  exact (proj2 (proj2 (mutations_keep_the_indices_consistent
                         Cache.Sample.withSrcUnit NewCache eq_refl eq_refl
                         withSrcUnit_wf Hcons))
               1%positive Cache.Sample.srcUnit eq_refl Hfree).
Defined.

(** *** The rank of an id *)

Lemma getRankFrom_range (ranks : list string) (i : nat) (id : string) :
  (i <= getRankFrom ranks i id ∧ getRankFrom ranks i id <= i + length ranks + 1)%nat
  ∧ (getRankFrom ranks i id < i + length ranks
     ↔ ∃ r, r ∈ ranks ∧ HasPrefix id r = true).
Proof.
  revert i. induction ranks as [|r0 ranks IH]; intros i; cbn [getRankFrom length].
  - split; [destruct (Contains id "."); lia|]. split.
    + destruct (Contains id "."); lia.
    + intros (r & Hr & _). inversion Hr.
  - destruct (HasPrefix id r0) eqn:Hp.
    + split; [lia|]. split; [|lia]. intros _. exists r0. split; [left|exact Hp].
    + destruct (IH (S i)) as [Hb Hiff]. split; [lia|]. split.
      * intros Hlt. destruct (proj1 Hiff) as (r & Hr & Hpr); [lia|].
        exists r. split; [right; exact Hr|exact Hpr].
      * intros (r & Hr & Hpr). apply elem_of_cons in Hr as [->|Hr]; [congruence|].
        assert (getRankFrom ranks (S i) id < S i + length ranks); [|lia].
        apply Hiff. exists r. split; assumption.
Qed.

(** X12.  The rank [Walk] sorts by lies between 0 and the number of
    prefixes plus one; it is below the number of prefixes exactly when the
    id starts with one of them, and then it is the position of a prefix
    the id starts with; it is the number of prefixes only for an id with a
    dot, and one more only for an id without. *)
Theorem getRank_range (ranks : list string) (id : string) :
  (getRank ranks id <= length ranks + 1)%nat
  ∧ (getRank ranks id < length ranks
     ↔ ∃ r, r ∈ ranks ∧ HasPrefix id r = true)
  ∧ (getRank ranks id < length ranks →
     ∃ r, ranks !! getRank ranks id = Some r ∧ HasPrefix id r = true)
  ∧ (getRank ranks id = length ranks → Contains id "." = true)
  ∧ (getRank ranks id = length ranks + 1 → Contains id "." = false).
Proof.
  unfold getRank. destruct (getRankFrom_range ranks 0 id) as [Hb Hiff].
  split; [lia|]. split; [exact Hiff|].
  assert (Hgen : ∀ rs i,
            (getRankFrom rs i id < i + length rs →
             ∃ r, rs !! (getRankFrom rs i id - i) = Some r ∧ HasPrefix id r = true)
            ∧ (getRankFrom rs i id = i + length rs → Contains id "." = true)
            ∧ (getRankFrom rs i id = i + length rs + 1 → Contains id "." = false)).
  { induction rs as [|r0 rs IH]; intros i; cbn [getRankFrom length].
    - destruct (Contains id "."); repeat split; intros; try lia; reflexivity.
    - destruct (HasPrefix id r0) eqn:Hp.
      + split; [|split]; [|lia|lia]. intros _. exists r0.
        rewrite Nat.sub_diag. split; [reflexivity|exact Hp].
      + destruct (IH (S i)) as (I1 & I2 & I3).
        destruct (getRankFrom_range rs (S i) id) as [[Hlo _] _].
        split; [|split].
        * intros Hlt. destruct I1 as (r & Hr & Hpr); [lia|]. exists r.
          split; [|exact Hpr].
          replace (getRankFrom rs (S i) id - i) with (S (getRankFrom rs (S i) id - S i))
            by lia.
          exact Hr.
        * intros Heq. apply I2. lia.
        * intros Heq. apply I3. lia. }
  destruct (Hgen ranks 0) as (G1 & G2 & G3). rewrite Nat.sub_0_r in G1.
  split; [exact G1|]. split; [exact G2|exact G3].
Qed.

(** *** Stale units stay until they are deleted *)

(** X13.  [Add] compares ids only: for a node whose id is cached, [Add]
    changes nothing, whatever the node holds by now; the unit that was
    cached is still what [Get] and [get] find. *)
Theorem Add_of_cached_id_changes_nothing σ c G a node gp fuel :
  gc σ = Some c → unlocked c →
  G !! a = Some node → idMap c !! ID node = Some gp →
  Add (S fuel) G a σ = Ok tt σ.
Proof.
  intros Hc Hu Ha Hid. unfold Add. mstep. rewrite Hc.
  rewrite bind_run, (Lock_run _ _ Hc Hu), bind_run.
  erewrite recusiveAdd_cached; [|exact Ha|reflexivity|exact Hid].
  erewrite Unlock_run by reflexivity.
  rewrite withCache_twice. unfold withMu at 1. cbn [idMap pathMap fileMap withMu].
  fold (withMu (mkRWMutex false 0) c).
  rewrite (withMu_unlocked _ Hu), (withCache_id _ _ Hc). reflexivity.
Qed.

Lemma Add_of_cached_id_changes_nothing_witness :
  unlocked (stored Sample.srcEntry Cache.Sample.srcUnit NewCache)
  ∧ Sample.changed !! 1%positive
    = Some (mkPackages_Package "src" "src" "src/v2" ["/Src/b.go"] [])
  ∧ Add 1 Sample.changed 1%positive Sample.cached = Ok tt Sample.cached.
Proof.
  split; [reflexivity|]. split; [reflexivity|].
  exact (Add_of_cached_id_changes_nothing Sample.cached _ Sample.changed 1%positive
           _ Sample.srcEntry 0 eq_refl eq_refl eq_refl eq_refl).
Defined.

Lemma wf_withCache σ c c1 :
  wf σ → gc σ = Some c → (∀ i gp, idMap c1 !! i = Some gp → idMap c !! i = Some gp) →
  wf (withCache σ c1).
Proof.
  intros Hwf Hc Hsub c' i gp [= <-] Hi. exact (Hwf c i gp Hc (Hsub i gp Hi)).
Qed.

(** X14.  [Delete] makes room for a reload: on a graph without a cycle,
    [Add] of a node after [Delete] of its id stores a new unit made of the
    node as it is now; [Get] by the path of the node finds that unit, a
    package that did not exist before. *)
Theorem Delete_then_Add_stores_the_new_unit σ c G rk fuel a node :
  gc σ = Some c → unlocked c → wf σ →
  acyclic G rk → G !! a = Some node → rk a < fuel →
  ∃ σ1 σ2 gp P,
    Delete (ID node) σ = Ok tt σ1
    ∧ Add fuel G a σ1 = Ok tt σ2
    ∧ Get (PkgPath node) σ2 = Ok (Some gp) σ2
    ∧ get (ID node) σ2 = Ok (Some (pkg gp)) σ2
    ∧ heap σ2 !! pkg gp = Some P
    ∧ heap σ !! pkg gp = None
    ∧ id P = ID node ∧ pkgPath P = PkgPath node
    ∧ files P = CompiledGoFiles node.
Proof.
  intros Hc Hu Hwf Hacyc Ha Hrk.
  destruct (wf_evicted σ c (ID node) Hwf Hc) as [c1 Hev].
  assert (Hu1 : unlocked c1).
  { unfold unlocked. rewrite (evicted_mu _ _ _ _ Hev). exact Hu. }
  assert (Hid1 : idMap c1 !! ID node = None).
  { rewrite (evicted_idMap _ _ _ _ Hev). apply lookup_delete_eq. }
  assert (Hwf1 : wf (withCache σ c1)).
  { apply (wf_withCache σ c c1 Hwf Hc). intros i gp.
    rewrite (evicted_idMap _ _ _ _ Hev). intros H.
    apply lookup_delete_Some in H as [_ H]. exact H. }
  destruct (Add_acyclic G rk fuel a node (withCache σ c1) c1 Hacyc Ha Hrk eq_refl
              Hu1 Hwf1) as (σ2 & Hadd & Hpost).
  destruct Hpost as (c0 & c2 & gp & P & [= <-] & Hc2 & Hmu & _ & _ & Hid2 & HP
                     & HidP & _ & Hnew & _).
  destruct (Hnew Hid1) as (Hfresh & Hpath & Hfiles & HpathMap & _).
  exists (withCache σ c1), σ2, gp, P.
  split. { rewrite (Delete_run _ _ _ Hc Hu), (delete_run _ _ _ Hc), Hev. reflexivity. }
  split; [exact Hadd|].
  split.
  { erewrite Get_run; [|exact Hc2|rewrite Hmu; exact (unlocked_writer _ Hu1)].
    rewrite HpathMap. reflexivity. }
  split. { rewrite get_run, Hc2, Hid2. reflexivity. }
  split; [exact HP|]. split; [exact Hfresh|].
  split; [exact HidP|]. split; [exact Hpath|exact Hfiles].
Qed.

Lemma changed_acyclic : acyclic Sample.changed (λ _, 0).
Proof.
  intros a n k b Ha Hin. unfold Sample.changed, graph, ploc in *.
  apply lookup_singleton_Some in Ha as [_ <-]. inversion Hin.
Qed.

Lemma Delete_then_Add_stores_the_new_unit_witness :
  unlocked (stored Sample.srcEntry Cache.Sample.srcUnit NewCache)
  ∧ wf Sample.cached ∧ acyclic Sample.changed (λ _, 0)
  ∧ ∃ σ1 σ2 gp P,
      Delete "src" Sample.cached = Ok tt σ1
      ∧ Add 1 Sample.changed 1%positive σ1 = Ok tt σ2
      ∧ Get "src/v2" σ2 = Ok (Some gp) σ2
      ∧ files P = ["/Src/b.go"]
      ∧ heap σ2 !! pkg gp = Some P.
Proof.
  split; [reflexivity|]. split; [exact cached_wf|]. split; [exact changed_acyclic|].
  destruct (Delete_then_Add_stores_the_new_unit Sample.cached _ Sample.changed
              (λ _, 0) 1 1%positive _ eq_refl eq_refl cached_wf changed_acyclic
              eq_refl (le_n 1))
    as (σ1 & σ2 & gp & P & H1 & H2 & H3 & _ & H5 & _ & _ & _ & H9).
  exists σ1, σ2, gp, P. repeat split; assumption.
Defined.

End CacheExtra.


(** ** Further properties of the dispatcher *)

Module LangserverExtra.
Import Langserver LangserverMore LangserverProofs.

Lemma queryMethods_are_no_lifecycle_methods m :
  isMethod m queryMethods = true →
  String.eqb m "initialize" = false ∧ String.eqb m "initialized" = false
  ∧ String.eqb m "shutdown" = false ∧ String.eqb m "exit" = false
  ∧ String.eqb m "$/cancelRequest" = false.
Proof.
  unfold isMethod. intros H. apply existsb_exists in H as (k & Hin & Heq).
  apply String.eqb_eq in Heq. subst k. cbn in Hin.
  repeat (destruct Hin as [<-|Hin]; [repeat split; reflexivity|]).
  contradiction.
Qed.

Lemma fileSystemMethods_are_no_other_methods m :
  isMethod m fileSystemMethods = true →
  String.eqb m "initialize" = false ∧ String.eqb m "initialized" = false
  ∧ String.eqb m "shutdown" = false ∧ String.eqb m "exit" = false
  ∧ String.eqb m "$/cancelRequest" = false ∧ isMethod m queryMethods = false.
Proof.
  unfold isMethod at 1. intros H. apply existsb_exists in H as (k & Hin & Heq).
  apply String.eqb_eq in Heq. subst k. cbn in Hin.
  repeat (destruct Hin as [<-|Hin]; [repeat split; reflexivity|]).
  contradiction.
Qed.

Lemma unknown_method m :
  m ∉ knownMethods →
  String.eqb m "initialize" = false ∧ String.eqb m "initialized" = false
  ∧ String.eqb m "shutdown" = false ∧ String.eqb m "exit" = false
  ∧ String.eqb m "$/cancelRequest" = false
  ∧ isMethod m queryMethods = false ∧ isMethod m fileSystemMethods = false.
Proof.
  intros H.
  assert (Hk : ∀ k, In k knownMethods → String.eqb m k = false).
  { intros k Hin. apply String.eqb_neq. intros ->. apply H, list_elem_of_In, Hin. }
  assert (Hl : ∀ l, (∀ k, In k l → In k knownMethods) → isMethod m l = false).
  { intros l Hsub. unfold isMethod. destruct (existsb (String.eqb m) l) eqn:E; [|reflexivity].
    apply existsb_exists in E as (k & Hin & Heq). rewrite (Hk k (Hsub k Hin)) in Heq.
    discriminate. }
  repeat split; try (apply Hk; cbn; tauto); apply Hl; intros k Hin;
    unfold knownMethods; apply in_or_app; right; apply in_or_app; tauto.
Qed.

Section WithCollaborators.

Variable Unmarshal : string → RawMessage → option error.
Variable handleQuery : Request → RawMessage → effect.
Variable handleFileSystemRequest : Request → effect.
Variable cancelParamsID : RawMessage → ID.
Variable RootPath : RawMessage → string.
Variable IsURI : string → bool.
Variable PathToURI : string → string.
Variable projectInit
  : RawMessage → string → JSONRPC2 → list logLine * JSONRPC2 * outcome.

Abbreviation Handle :=
  (Handle Unmarshal handleQuery handleFileSystemRequest cancelParamsID
          RootPath IsURI PathToURI projectInit).
Abbreviation Handle_body :=
  (Handle_body Unmarshal handleQuery handleFileSystemRequest cancelParamsID
               RootPath IsURI PathToURI projectInit).
Abbreviation dispatch :=
  (dispatch Unmarshal handleQuery handleFileSystemRequest cancelParamsID
            RootPath IsURI PathToURI projectInit).

Lemma Handle_recovered h conn req :
  Handle h conn req =
  ((Handle_body h conn req).1, recovered (Method req) (Handle_body h conn req).2).
Proof.
  rewrite (Handle_of_body Unmarshal handleQuery handleFileSystemRequest
             cancelParamsID RootPath IsURI PathToURI projectInit).
  destruct (Handle_body h conn req) as [[h' conn'] [v e|r]]; reflexivity.
Qed.

(** Past the two gates a request is the [switch] on the handler with
    the request registered, the deferred [cancel()], and the
    recovery. *)
Lemma Handle_served h conn req :
  Method req = "initialize" ∨ init h ≠ None → shutdown h = false →
  Handle h conn req
  = (released h req (dispatch (registered h req) conn req).1.1,
     (dispatch (registered h req) conn req).1.2,
     recovered (Method req) (dispatch (registered h req) conn req).2).
Proof.
  intros Hgate Hs. rewrite Handle_recovered.
  rewrite (Handle_body_served Unmarshal handleQuery handleFileSystemRequest
             cancelParamsID RootPath IsURI PathToURI projectInit
             h conn req Hgate Hs).
  reflexivity.
Qed.

(** The same, read field by field, for an initialized handler. *)
Lemma Handle_ready h conn req raw :
  init h = Some raw → shutdown h = false →
  ∃ h0,
    h0 = registered h req
    ∧ shutdown h0 = false ∧ init h0 = Some raw ∧ log h0 = log h
    ∧ response (Handle h conn req) = recovered (Method req) (dispatch h0 conn req).2
    ∧ (Handle h conn req).1.2 = (dispatch h0 conn req).1.2
    ∧ shutdown (Handle h conn req).1.1 = shutdown (dispatch h0 conn req).1.1
    ∧ init (Handle h conn req).1.1 = init (dispatch h0 conn req).1.1
    ∧ log (Handle h conn req).1.1 = log (dispatch h0 conn req).1.1.
Proof.
  intros Hi Hs. exists (registered h req).
  destruct (registered_fields h req) as (Rs & Ri & Rl).
  rewrite Handle_served by (first [right; congruence|exact Hs]).
  destruct (released_fields h req (dispatch (registered h req) conn req).1.1)
    as (Ls & Li & Ll).
  unfold response. cbn [fst snd].
  split; [reflexivity|]. split; [congruence|]. split; [congruence|].
  split; [exact Rl|]. repeat split; assumption.
Qed.

(** X15.  Before [initialize] nothing but [initialize] is served: every
    other method, [exit] and [shutdown] included, is answered with
    "languageserver must be initialized", no handler runs, and the
    handler and the connection stay as they are. *)
Theorem only_initialize_is_served_first h conn req :
  init h = None → Method req ≠ "initialize" →
  Handle h conn req
  = (h, conn, Returned nil (Some errLanguageServerMustBeInitialized)).
Proof.
  intros Hi Hm. rewrite Handle_recovered.
  rewrite (Handle_body_uninitialized Unmarshal handleQuery handleFileSystemRequest
             cancelParamsID RootPath IsURI PathToURI projectInit h conn req Hi Hm).
  reflexivity.
Qed.

(** X16.  After [shutdown] nothing but [exit] is served: every other
    method, [initialize] included, is answered with "language server is
    shutting down", no handler runs, and the handler and the connection
    stay as they are. *)
Theorem only_exit_is_served_after_shutdown h conn req :
  lifecycle_of h = ShuttingDown → Method req ≠ "exit" →
  Handle h conn req
  = (h, conn, Returned nil (Some errLanguageServerIsShuttingDown)).
Proof.
  intros Hl Hm. unfold lifecycle_of in Hl.
  destruct (init h) as [raw|] eqn:Hi; [|discriminate].
  destruct (shutdown h) eqn:Hs; [|discriminate].
  rewrite Handle_recovered.
  rewrite (Handle_body_shut_down Unmarshal handleQuery handleFileSystemRequest
             cancelParamsID RootPath IsURI PathToURI projectInit
             h conn req raw Hi Hs).
  apply String.eqb_neq in Hm. rewrite Hm. reflexivity.
Qed.

Lemma Handle_initialize h conn req :
  init h = None → shutdown h = false → cancelManager h = None →
  Method req = "initialize" →
  Handle h conn req
  = ((dispatch h conn req).1, recovered "initialize" (dispatch h conn req).2).
Proof.
  intros Hi Hs Hc Hm. rewrite Handle_served by (first [left; exact Hm|exact Hs]).
  unfold registered, released. rewrite Hc, Hm.
  destruct (dispatch h conn req) as [[h2 c2] o]. reflexivity.
Qed.

(** X17.  [initialize] checks before it initializes: without
    parameters it is answered with the invalid-parameters error, with
    parameters that do not decode with the error of the decoder, and on
    a connection that is not a [*jsonrpc2.Conn] the failed type assertion
    is recovered into an error; in all three cases the handler stays
    uninitialized. *)
Theorem initialize_checks_first h conn req :
  init h = None → shutdown h = false → cancelManager h = None →
  Method req = "initialize" →
  (Params req = None →
     Handle h conn req = (h, conn, Returned nil (Some errCodeInvalidParams)))
  ∧ (∀ raw e, Params req = Some raw → Unmarshal "initialize" raw = Some e →
       Handle h conn req = (h, conn, Returned nil (Some e)))
  ∧ (∀ raw, Params req = Some raw → Unmarshal "initialize" raw = None →
       isConn conn = false →
       Handle h conn req
       = (h, conn,
          Returned nil (Some (panicError "initialize" "interface conversion")))).
Proof.
  intros Hi Hs Hc Hm. rewrite (Handle_initialize h conn req Hi Hs Hc Hm).
  unfold Langserver.dispatch. rewrite Hm, Hi. cbn [String.eqb Ascii.eqb Bool.eqb].
  split; [|split].
  - intros ->. reflexivity.
  - intros raw e -> ->. reflexivity.
  - intros raw -> -> ->. reflexivity.
Qed.

(** X18.  Once the parameters are accepted, [initialize] makes the
    handler initialized before the project is set up, and it stays so
    whatever the set-up does.  The root path handed on is the root path
    of the parameters, made a URI if it is not empty and not one; if it
    is a URI, [doInit] writes the deprecation line to the log; then the
    set-up runs, with the connection, and what it logs and what it
    leaves of the connection stay.  On success the fixed capabilities
    are answered; when the set-up fails, its error is answered, and when
    it panics, the recovered error, yet the handler is initialized, with
    the parameters stored and a new registry. *)
Theorem initialize_sets_up_before_the_project h conn req raw :
  init h = None → shutdown h = false → cancelManager h = None →
  Method req = "initialize" →
  Params req = Some raw → Unmarshal "initialize" raw = None →
  isConn conn = true →
  let root := rootPathURI RootPath IsURI PathToURI raw in
  let setUp := projectInit raw root conn in
  Handle h conn req
  = (mkLangHandler false (Some raw) (Some NewCancel)
       (log h ++ (if IsURI root then [log_Printf deprecatedRootPath root] else [])
              ++ setUp.1.1)%list,
     setUp.1.2,
     match setUp.2 with
     | Returned _ None => Returned InitializeResult None
     | Returned _ (Some e) => Returned nil (Some e)
     | Panicked r => Returned nil (Some (panicError "initialize" r))
     end)
  ∧ lifecycle_of (Handle h conn req).1.1 = Initialized
  ∧ (RootPath raw = "" → root = "")
  ∧ (RootPath raw ≠ "" → IsURI (RootPath raw) = true → root = RootPath raw)
  ∧ (RootPath raw ≠ "" → IsURI (RootPath raw) = false →
     root = PathToURI (RootPath raw)).
Proof.
  intros Hi Hs Hc Hm Hp Hu Hconn root setUp.
  assert (HH : Handle h conn req
               = (mkLangHandler false (Some raw) (Some NewCancel)
                    (log h ++ (if IsURI root
                               then [log_Printf deprecatedRootPath root] else [])
                           ++ setUp.1.1)%list,
                  setUp.1.2,
                  match setUp.2 with
                  | Returned _ None => Returned InitializeResult None
                  | Returned _ (Some e) => Returned nil (Some e)
                  | Panicked r => Returned nil (Some (panicError "initialize" r))
                  end)).
  { rewrite (Handle_initialize h conn req Hi Hs Hc Hm).
    unfold Langserver.dispatch, doInit.
    rewrite Hm, Hi, Hp, Hs. cbn [String.eqb Ascii.eqb Bool.eqb]. rewrite Hu, Hconn.
    fold root. fold setUp.
    destruct setUp as [[lines c'] [v [e|]|r]]; cbn [fst snd recovered];
      destruct (IsURI root); rewrite <- ?app_assoc; reflexivity. }
  split; [exact HH|]. split; [rewrite HH; reflexivity|].
  unfold root, rootPathURI.
  split; [intros ->; reflexivity|].
  split; intros Hne Huri; apply String.eqb_neq in Hne; rewrite Hne, Huri;
    reflexivity.
Qed.

Lemma dispatch_known h conn req m :
  Method req = m →
  String.eqb m "initialize" = false → String.eqb m "initialized" = false →
  String.eqb m "shutdown" = false → String.eqb m "exit" = false →
  String.eqb m "$/cancelRequest" = false →
  dispatch h conn req =
  if isMethod m queryMethods then
    match Params req with
    | None => (h, conn, Returned nil (Some errCodeInvalidParams))
    | Some raw =>
        match Unmarshal m raw with
        | Some err => (h, conn, Returned nil (Some err))
        | None => handleQuery req raw h conn
        end
    end
  else if isMethod m fileSystemMethods then
    match handleFileSystemRequest req h conn with
    | (h', conn', Returned _ err) => (h', conn', Returned nil err)
    | (h', conn', Panicked r) => (h', conn', Panicked r)
    end
  else
    (h, conn,
     Returned nil (Some (jsonrpc2_Error CodeMethodNotFound
                                        ("method not supported: " ++ m)%string))).
Proof.
  intros Hm H1 H2 H3 H4 H5. unfold Langserver.dispatch.
  rewrite Hm, H1, H2, H3, H4, H5. reflexivity.
Qed.

(** X19.  [initialize] is accepted once: sent to an initialized
    handler it is answered with "language server is already
    initialized", and the stored parameters, the shutdown flag, the log
    and the connection stay as they are. *)
Theorem initialize_is_accepted_once h conn req :
  lifecycle_of h = Initialized → Method req = "initialize" →
  response (Handle h conn req)
  = Returned nil (Some errLanguageServerAlreadyInitialized)
  ∧ init (Handle h conn req).1.1 = init h
  ∧ shutdown (Handle h conn req).1.1 = false
  ∧ log (Handle h conn req).1.1 = log h
  ∧ (Handle h conn req).1.2 = conn.
Proof.
  intros Hl Hm. unfold lifecycle_of in Hl.
  destruct (init h) as [raw|] eqn:Hi; [|discriminate].
  destruct (shutdown h) eqn:Hs; [discriminate|].
  destruct (Handle_ready h conn req raw Hi Hs)
    as (h0 & _ & Hs0 & Hi0 & Hl0 & Hr & Hc & Hs' & Hi' & Hl').
  assert (Hd : dispatch h0 conn req
               = (h0, conn, Returned nil (Some errLanguageServerAlreadyInitialized))).
  { unfold Langserver.dispatch. rewrite Hm, Hi0. reflexivity. }
  rewrite Hd in *. cbn [fst snd] in *.
  rewrite Hr, Hc, Hs', Hi', Hl', Hs0, Hi0, Hl0. repeat split.
Qed.

(** X20.  A method the [switch] has no case for is answered, by an
    initialized handler, with the JSON-RPC error "method not found"
    naming the method; nothing else happens. *)
Theorem unknown_method_is_not_found h conn req :
  lifecycle_of h = Initialized → Method req ∉ knownMethods →
  response (Handle h conn req)
  = Returned nil (Some (jsonrpc2_Error CodeMethodNotFound
                          ("method not supported: " ++ Method req)%string))
  ∧ lifecycle_of (Handle h conn req).1.1 = Initialized
  ∧ log (Handle h conn req).1.1 = log h
  ∧ (Handle h conn req).1.2 = conn.
Proof.
  intros Hl Hm. unfold lifecycle_of in Hl |- *.
  destruct (init h) as [raw|] eqn:Hi; [|discriminate].
  destruct (shutdown h) eqn:Hs; [discriminate|].
  destruct (Handle_ready h conn req raw Hi Hs)
    as (h0 & _ & Hs0 & Hi0 & Hl0 & Hr & Hc & Hs' & Hi' & Hl').
  destruct (unknown_method _ Hm) as (H1 & H2 & H3 & H4 & H5 & H6 & H7).
  rewrite (dispatch_known h0 conn req _ eq_refl H1 H2 H3 H4 H5), H6, H7 in *.
  cbn [fst snd] in *.
  rewrite Hr, Hc, Hs', Hi', Hl', Hs0, Hi0, Hl0. repeat split.
Qed.

(** X21.  The contract of the query methods ([textDocument/hover] and
    the fourteen others), on an initialized handler: without parameters
    the invalid-parameters error; with parameters that do not decode the
    error of the decoder; in both cases the lifecycle, the log and the
    connection are untouched.  Otherwise the handler of the method runs,
    on the handler with the request registered and on the connection:
    the answer is whatever it returns, a panic being answered as an
    error, and the handler and the connection are as it left them, the
    registration released. *)
Theorem query_methods_contract h conn req :
  lifecycle_of h = Initialized → isMethod (Method req) queryMethods = true →
  match Params req with
  | None =>
      response (Handle h conn req) = Returned nil (Some errCodeInvalidParams)
      ∧ lifecycle_of (Handle h conn req).1.1 = Initialized
      ∧ log (Handle h conn req).1.1 = log h
      ∧ (Handle h conn req).1.2 = conn
  | Some raw =>
      match Unmarshal (Method req) raw with
      | Some err =>
          response (Handle h conn req) = Returned nil (Some err)
          ∧ lifecycle_of (Handle h conn req).1.1 = Initialized
          ∧ log (Handle h conn req).1.1 = log h
          ∧ (Handle h conn req).1.2 = conn
      | None =>
          Handle h conn req
          = (released h req (handleQuery req raw (registered h req) conn).1.1,
             (handleQuery req raw (registered h req) conn).1.2,
             recovered (Method req)
               (handleQuery req raw (registered h req) conn).2)
      end
  end.
Proof.
  intros Hl Hm. unfold lifecycle_of in Hl |- *.
  destruct (init h) as [raw0|] eqn:Hi; [|discriminate].
  destruct (shutdown h) eqn:Hs; [discriminate|].
  destruct (queryMethods_are_no_lifecycle_methods _ Hm) as (H1 & H2 & H3 & H4 & H5).
  destruct (registered_fields h req) as (Rs & Ri & Rl).
  pose proof (released_fields h req (registered h req)) as (Ls & Li & Ll).
  rewrite Handle_served by (first [right; congruence|exact Hs]).
  rewrite (dispatch_known (registered h req) conn req _ eq_refl H1 H2 H3 H4 H5), Hm.
  unfold response.
  destruct (Params req) as [raw|].
  - destruct (Unmarshal (Method req) raw).
    + cbn [fst snd recovered]. rewrite Ls, Li, Ll, Rs, Ri, Rl, Hi, Hs.
      repeat split.
    + reflexivity.
  - cbn [fst snd recovered]. rewrite Ls, Li, Ll, Rs, Ri, Rl, Hi, Hs.
    repeat split.
Qed.

(** X22.  The document-synchronisation methods ([textDocument/didOpen],
    [didChange], [didClose], [didSave]) hand the request to
    [handleFileSystemRequest] without looking at the parameters, and
    answer with a nil result and the error of that handler (its panic, if
    it panics, as an error); the handler and the connection are as it
    left them, the registration released. *)
Theorem file_system_methods_contract h conn req :
  lifecycle_of h = Initialized → isMethod (Method req) fileSystemMethods = true →
  Handle h conn req
  = (released h req (handleFileSystemRequest req (registered h req) conn).1.1,
     (handleFileSystemRequest req (registered h req) conn).1.2,
     match (handleFileSystemRequest req (registered h req) conn).2 with
     | Returned _ err => Returned nil err
     | Panicked r => Returned nil (Some (panicError (Method req) r))
     end).
Proof.
  intros Hl Hm. unfold lifecycle_of in Hl.
  destruct (init h) as [raw0|] eqn:Hi; [|discriminate].
  destruct (shutdown h) eqn:Hs; [discriminate|].
  destruct (fileSystemMethods_are_no_other_methods _ Hm)
    as (H1 & H2 & H3 & H4 & H5 & H6).
  rewrite Handle_served by (first [right; congruence|exact Hs]).
  rewrite (dispatch_known (registered h req) conn req _ eq_refl H1 H2 H3 H4 H5),
    H6, Hm.
  destruct (handleFileSystemRequest req (registered h req) conn)
    as [[h2 c2] [v e|r]]; reflexivity.
Qed.

(** X23.  [initialized] and [$/cancelRequest] never fail on an
    initialized handler: the answer is [(nil, nil)] whether or not the
    cancellation carries parameters and whether or not they decode, and
    the lifecycle, the log and the connection are untouched. *)
Theorem initialized_and_cancel_never_fail h conn req :
  lifecycle_of h = Initialized →
  Method req = "initialized" ∨ Method req = "$/cancelRequest" →
  response (Handle h conn req) = Returned nil None
  ∧ lifecycle_of (Handle h conn req).1.1 = Initialized
  ∧ log (Handle h conn req).1.1 = log h
  ∧ (Handle h conn req).1.2 = conn.
Proof.
  intros Hl Hm. unfold lifecycle_of in Hl |- *.
  destruct (init h) as [raw|] eqn:Hi; [|discriminate].
  destruct (shutdown h) eqn:Hs; [discriminate|].
  destruct (Handle_ready h conn req raw Hi Hs)
    as (h0 & _ & Hs0 & Hi0 & Hl0 & Hr & Hc & Hs' & Hi' & Hl').
  assert (Hd : ∃ h1, dispatch h0 conn req = (h1, conn, Returned nil None)
                     ∧ shutdown h1 = shutdown h0 ∧ init h1 = init h0
                     ∧ log h1 = log h0).
  { unfold Langserver.dispatch. destruct Hm as [Hm|Hm]; rewrite Hm;
      cbn [String.eqb Ascii.eqb Bool.eqb].
    - exists h0. repeat split.
    - destruct (Params req) as [raw0|]; [|exists h0; repeat split].
      destruct (Unmarshal _ raw0); [exists h0; repeat split|].
      destruct (cancelManager h0); eexists; repeat split. }
  destruct Hd as (h1 & Hd & Hs1 & Hi1 & Hl1). rewrite Hd in *. cbn [fst snd] in *.
  rewrite Hr, Hc, Hs', Hi', Hl', Hs1, Hi1, Hl1, Hs0, Hi0, Hl0. repeat split.
Qed.

(** What the cases of the [switch] that call no handler may change. *)
Lemma dispatch_frame h conn req :
  isMethod (Method req) queryMethods = false →
  isMethod (Method req) fileSystemMethods = false →
  (shutdown h = false →
   ∃ lines, log (dispatch h conn req).1.1 = (log h ++ lines)%list
            ∧ (Method req ≠ "initialize" → lines = []))
  ∧ (shutdown (dispatch h conn req).1.1 = shutdown h
     ∨ Method req = "shutdown" ∧ shutdown (dispatch h conn req).1.1 = true)
  ∧ (init (dispatch h conn req).1.1 = init h
     ∨ Method req = "initialize" ∧ init h = None
       ∧ init (dispatch h conn req).1.1 ≠ None)
  ∧ (Method req ≠ "initialize" →
     (dispatch h conn req).1.2 = conn
     ∨ Method req = "exit" ∧ isConn conn = true
       ∧ (dispatch h conn req).1.2 = mkJSONRPC2 true true).
Proof.
  intros Hq Hf. unfold Langserver.dispatch, doInit, ShutDown. cbv zeta.
  rewrite Hq, Hf.
  assert (Hnil : ∀ l : list logLine, ∃ lines, l = (l ++ lines)%list
                   ∧ (Method req ≠ "initialize" → lines = [])).
  { intros l. exists []. split; [symmetry; apply app_nil_r|reflexivity]. }
  destruct (String.eqb (Method req) "initialize") eqn:E1.
  { apply String.eqb_eq in E1.
    assert (Hc : ∀ c : JSONRPC2, Method req ≠ "initialize" →
                  c = conn ∨ Method req = "exit" ∧ isConn conn = true
                             ∧ c = mkJSONRPC2 true true)
      by (intros c Hne; contradiction).
    destruct (init h) eqn:Hi; [cbn; auto|].
    destruct (Params req) as [raw|]; [|cbn; auto].
    destruct (Unmarshal _ raw); [cbn; auto|].
    destruct (isConn conn); [|cbn; auto].
    destruct (projectInit raw _ conn) as [[lines c'] [v [e|]|r]]; cbn;
      (split; [intros _; destruct (IsURI _);
               [exists ([log_Printf deprecatedRootPath
                           (rootPathURI RootPath IsURI PathToURI raw)] ++ lines)%list
               |exists lines];
               (split; [rewrite <- ?app_assoc; reflexivity|intros Hne; contradiction])|]);
      (split; [auto|]); (split; [|auto]);
      right; repeat split; auto; discriminate. }
  destruct (String.eqb (Method req) "initialized"); [cbn; auto|].
  destruct (String.eqb (Method req) "shutdown") eqn:E3.
  { apply String.eqb_eq in E3. cbn.
    split; [intros ->; apply Hnil|]. auto. }
  destruct (String.eqb (Method req) "exit") eqn:E4.
  { apply String.eqb_eq in E4. cbn. destruct conn as [[|] cl]; cbn;
      (split; [auto|]); (split; [auto|]); (split; [auto|]); auto. }
  destruct (String.eqb (Method req) "$/cancelRequest").
  { destruct (Params req) as [raw|]; [|cbn; auto].
    destruct (Unmarshal _ raw); [cbn; auto|].
    destruct (cancelManager h); cbn; auto. }
  cbn; auto.
Qed.

(** X24.  What a request that the dispatcher serves itself (any method
    but the query and document-synchronisation methods, whose handlers
    may do what they like) can do to the server, whatever the state.
    The log only grows, and only on [initialize]: the "already shut
    down" entry of [ShutDown] cannot be reached through [Handle].  The
    lifecycle only moves forward, from uninitialized to initialized to
    shutting down.  The stored parameters change only on [initialize],
    the shutdown flag only on [shutdown]; the connection is touched only
    on [exit], which closes it, and on [initialize], where the set-up of
    the project has it; otherwise a closed connection stays closed. *)
Theorem one_request_frame h conn req :
  isMethod (Method req) queryMethods = false →
  isMethod (Method req) fileSystemMethods = false →
  (∃ lines, log (Handle h conn req).1.1 = (log h ++ lines)%list
            ∧ (Method req ≠ "initialize" → lines = []))
  ∧ lifecycleLe (lifecycle_of h) (lifecycle_of (Handle h conn req).1.1) = true
  ∧ (Method req ≠ "initialize" → init (Handle h conn req).1.1 = init h)
  ∧ (Method req ≠ "shutdown" → shutdown (Handle h conn req).1.1 = shutdown h)
  ∧ (Method req ≠ "initialize" → Method req ≠ "exit" →
     (Handle h conn req).1.2 = conn)
  ∧ (Method req ≠ "initialize" →
     isConn (Handle h conn req).1.2 = isConn conn
     ∧ (closed conn = true → closed (Handle h conn req).1.2 = true)).
Proof.
  intros Hq Hf. rewrite Handle_recovered. cbn [fst].
  destruct (Handle_body_cases Unmarshal handleQuery handleFileSystemRequest
              cancelParamsID RootPath IsURI PathToURI projectInit h conn req)
    as [[e He]|(Hgate & Hs & Hd)].
  - rewrite He. cbn [fst snd]. unfold lifecycle_of.
    split; [exists []; split; [symmetry; apply app_nil_r|reflexivity]|].
    split; [destruct (init h); [destruct (shutdown h)|]; reflexivity|].
    repeat split; intros; solve [reflexivity|assumption].
  - rewrite Hd. cbn [fst snd].
    destruct (registered_fields h req) as (Rs & Ri & Rl).
    destruct (released_fields h req (dispatch (registered h req) conn req).1.1)
      as (Ls & Li & Ll).
    destruct (dispatch_frame (registered h req) conn req Hq Hf)
      as (Fl & Fs & Fi & Fc).
    rewrite Rs in Fl, Fs. rewrite Ri in Fi. rewrite Rl in Fl.
    destruct (Fl Hs) as (lines & Hlines & Hnone).
    split; [exists lines; split; [rewrite Ll; exact Hlines|exact Hnone]|].
    split.
    { unfold lifecycle_of. rewrite Li, Ls, Hs.
      destruct Fi as [->|(_ & -> & Hne)]; [|reflexivity].
      destruct (init h); [|reflexivity].
      destruct (shutdown (dispatch (registered h req) conn req).1.1); reflexivity. }
    split; [intros Hm; rewrite Li; destruct Fi as [?|(? & _)]; congruence|].
    split; [intros Hm; rewrite Ls; destruct Fs as [?|(? & _)]; congruence|].
    split; [intros Hm Hm'; destruct (Fc Hm) as [?|(? & _)]; congruence|].
    intros Hm. destruct (Fc Hm) as [->|(_ & Hconn & ->)].
    + split; [reflexivity|tauto].
    + rewrite Hconn. split; reflexivity.
Qed.

End WithCollaborators.

Lemma only_initialize_is_served_first_witness :
  Langserver.Sample.Handle newLangHandler Langserver.Sample.conn
    (Langserver.Sample.request "textDocument/hover" (Some "{}"))
  = (newLangHandler, Langserver.Sample.conn,
     Returned nil (Some errLanguageServerMustBeInitialized)).
Proof.
  apply (only_initialize_is_served_first Langserver.Sample.Unmarshal
           Langserver.Sample.handleQuery Langserver.Sample.handleFileSystemRequest
           Langserver.Sample.cancelParamsID Langserver.Sample.RootPath
           Langserver.Sample.IsURI Langserver.Sample.PathToURI
           Langserver.Sample.projectInit);
    [reflexivity|discriminate].
Defined.

Lemma only_exit_is_served_after_shutdown_witness :
  Langserver.Sample.Handle (ShutDown Langserver.Sample.initialized)
    Langserver.Sample.conn
    (Langserver.Sample.request "textDocument/hover" (Some "{}"))
  = (ShutDown Langserver.Sample.initialized, Langserver.Sample.conn,
     Returned nil (Some errLanguageServerIsShuttingDown)).
Proof.
  apply (only_exit_is_served_after_shutdown Langserver.Sample.Unmarshal
           Langserver.Sample.handleQuery Langserver.Sample.handleFileSystemRequest
           Langserver.Sample.cancelParamsID Langserver.Sample.RootPath
           Langserver.Sample.IsURI Langserver.Sample.PathToURI
           Langserver.Sample.projectInit);
    [reflexivity|discriminate].
Defined.

Lemma initialize_checks_first_witness :
  Langserver.Sample.Handle newLangHandler Langserver.Sample.conn
    (Langserver.Sample.request "initialize" None)
  = (newLangHandler, Langserver.Sample.conn,
     Returned nil (Some errCodeInvalidParams))
  ∧ Langserver.Sample.Handle newLangHandler (mkJSONRPC2 false false)
      (Langserver.Sample.request "initialize" (Some "{}"))
    = (newLangHandler, mkJSONRPC2 false false,
       Returned nil (Some (panicError "initialize" "interface conversion"))).
Proof.
  split.
  - exact (proj1 (initialize_checks_first Langserver.Sample.Unmarshal
             Langserver.Sample.handleQuery Langserver.Sample.handleFileSystemRequest
             Langserver.Sample.cancelParamsID Langserver.Sample.RootPath
             Langserver.Sample.IsURI Langserver.Sample.PathToURI
             Langserver.Sample.projectInit
             newLangHandler Langserver.Sample.conn
             (Langserver.Sample.request "initialize" None)
             eq_refl eq_refl eq_refl eq_refl) eq_refl).
  - exact (proj2 (proj2 (initialize_checks_first Langserver.Sample.Unmarshal
             Langserver.Sample.handleQuery Langserver.Sample.handleFileSystemRequest
             Langserver.Sample.cancelParamsID Langserver.Sample.RootPath
             Langserver.Sample.IsURI Langserver.Sample.PathToURI
             Langserver.Sample.projectInit
             newLangHandler (mkJSONRPC2 false false)
             (Langserver.Sample.request "initialize" (Some "{}"))
             eq_refl eq_refl eq_refl eq_refl)) "{}" eq_refl eq_refl eq_refl).
Defined.

Lemma initialize_sets_up_before_the_project_witness :
  Sample.HandleBroken newLangHandler Langserver.Sample.conn
    (Langserver.Sample.request "initialize" (Some "/work"))
  = (mkLangHandler false (Some "/work") (Some NewCancel)
       [log_Printf deprecatedRootPath "file:///work"],
     Langserver.Sample.conn,
     Returned nil (Some (externalError "no go.mod")))
  ∧ lifecycle_of (Sample.HandleBroken newLangHandler Langserver.Sample.conn
                    (Langserver.Sample.request "initialize" (Some "/work"))).1.1
    = Initialized.
Proof.
  pose proof (initialize_sets_up_before_the_project Langserver.Sample.Unmarshal
                Langserver.Sample.handleQuery Langserver.Sample.handleFileSystemRequest
                Langserver.Sample.cancelParamsID Langserver.Sample.RootPath
                Langserver.Sample.IsURI Langserver.Sample.PathToURI
                Sample.brokenProject
                newLangHandler Langserver.Sample.conn
                (Langserver.Sample.request "initialize" (Some "/work")) "/work"
                eq_refl eq_refl eq_refl eq_refl eq_refl eq_refl eq_refl) as H.
  cbv zeta in H. destruct H as (H1 & H2 & _). split; [exact H1|exact H2].
Defined.

Lemma initialize_is_accepted_once_witness :
  response (Langserver.Sample.Handle Langserver.Sample.initialized
              Langserver.Sample.conn
              (Langserver.Sample.request "initialize" (Some "{}")))
  = Returned nil (Some errLanguageServerAlreadyInitialized).
Proof.
  exact (proj1 (initialize_is_accepted_once Langserver.Sample.Unmarshal
           Langserver.Sample.handleQuery Langserver.Sample.handleFileSystemRequest
           Langserver.Sample.cancelParamsID Langserver.Sample.RootPath
           Langserver.Sample.IsURI Langserver.Sample.PathToURI
           Langserver.Sample.projectInit
           Langserver.Sample.initialized Langserver.Sample.conn
           (Langserver.Sample.request "initialize" (Some "{}")) eq_refl eq_refl)).
Defined.

Lemma unknown_method_is_not_found_witness :
  response (Langserver.Sample.Handle Langserver.Sample.initialized
              Langserver.Sample.conn
              (Langserver.Sample.request "workspace/executeCommand" (Some "{}")))
  = Returned nil (Some (jsonrpc2_Error CodeMethodNotFound
                          "method not supported: workspace/executeCommand")).
Proof.
  refine (proj1 (unknown_method_is_not_found Langserver.Sample.Unmarshal
           Langserver.Sample.handleQuery Langserver.Sample.handleFileSystemRequest
           Langserver.Sample.cancelParamsID Langserver.Sample.RootPath
           Langserver.Sample.IsURI Langserver.Sample.PathToURI
           Langserver.Sample.projectInit
           Langserver.Sample.initialized Langserver.Sample.conn
           (Langserver.Sample.request "workspace/executeCommand" (Some "{}"))
           eq_refl _)).
  rewrite list_elem_of_In. cbn. intuition discriminate.
Defined.

Lemma query_methods_contract_witness :
  Langserver.Sample.Handle Langserver.Sample.initialized Langserver.Sample.conn
    (Langserver.Sample.request "textDocument/hover" (Some "boom"))
  = (Langserver.Sample.initialized, Langserver.Sample.conn,
     Returned nil (Some (panicError "textDocument/hover" "index out of range")))
  ∧ response (Langserver.Sample.Handle Langserver.Sample.initialized
                Langserver.Sample.conn
                (Langserver.Sample.request "textDocument/hover" None))
    = Returned nil (Some errCodeInvalidParams).
Proof.
  split.
  - exact (query_methods_contract Langserver.Sample.Unmarshal
             Langserver.Sample.handleQuery Langserver.Sample.handleFileSystemRequest
             Langserver.Sample.cancelParamsID Langserver.Sample.RootPath
             Langserver.Sample.IsURI Langserver.Sample.PathToURI
             Langserver.Sample.projectInit
             Langserver.Sample.initialized Langserver.Sample.conn
             (Langserver.Sample.request "textDocument/hover" (Some "boom"))
             eq_refl eq_refl).
  - exact (proj1 (query_methods_contract Langserver.Sample.Unmarshal
             Langserver.Sample.handleQuery Langserver.Sample.handleFileSystemRequest
             Langserver.Sample.cancelParamsID Langserver.Sample.RootPath
             Langserver.Sample.IsURI Langserver.Sample.PathToURI
             Langserver.Sample.projectInit
             Langserver.Sample.initialized Langserver.Sample.conn
             (Langserver.Sample.request "textDocument/hover" None)
             eq_refl eq_refl)).
Defined.

Lemma file_system_methods_contract_witness :
  Langserver.Sample.Handle Langserver.Sample.initialized Langserver.Sample.conn
    (Langserver.Sample.notification "textDocument/didOpen")
  = (Langserver.Sample.initialized, Langserver.Sample.conn, Returned nil None).
Proof.
  exact (file_system_methods_contract Langserver.Sample.Unmarshal
           Langserver.Sample.handleQuery Langserver.Sample.handleFileSystemRequest
           Langserver.Sample.cancelParamsID Langserver.Sample.RootPath
           Langserver.Sample.IsURI Langserver.Sample.PathToURI
           Langserver.Sample.projectInit
           Langserver.Sample.initialized Langserver.Sample.conn
           (Langserver.Sample.notification "textDocument/didOpen")
           eq_refl eq_refl).
Defined.

Lemma initialized_and_cancel_never_fail_witness :
  response (Langserver.Sample.Handle Langserver.Sample.initialized
              Langserver.Sample.conn
              (Langserver.Sample.notification "$/cancelRequest"))
  = Returned nil None.
Proof.
  exact (proj1 (initialized_and_cancel_never_fail Langserver.Sample.Unmarshal
           Langserver.Sample.handleQuery Langserver.Sample.handleFileSystemRequest
           Langserver.Sample.cancelParamsID Langserver.Sample.RootPath
           Langserver.Sample.IsURI Langserver.Sample.PathToURI
           Langserver.Sample.projectInit
           Langserver.Sample.initialized Langserver.Sample.conn
           (Langserver.Sample.notification "$/cancelRequest")
           eq_refl (or_intror eq_refl))).
Defined.

Lemma one_request_frame_witness :
  isMethod "shutdown" queryMethods = false
  ∧ isMethod "shutdown" fileSystemMethods = false
  ∧ ∃ lines,
      log (Langserver.Sample.Handle Langserver.Sample.initialized
             Langserver.Sample.conn
             (Langserver.Sample.request "shutdown" None)).1.1
      = (log Langserver.Sample.initialized ++ lines)%list
      ∧ lines = [].
Proof.
  split; [reflexivity|]. split; [reflexivity|].
  destruct (one_request_frame Langserver.Sample.Unmarshal
              Langserver.Sample.handleQuery Langserver.Sample.handleFileSystemRequest
              Langserver.Sample.cancelParamsID Langserver.Sample.RootPath
              Langserver.Sample.IsURI Langserver.Sample.PathToURI
              Langserver.Sample.projectInit
              Langserver.Sample.initialized Langserver.Sample.conn
              (Langserver.Sample.request "shutdown" None) eq_refl eq_refl)
    as ((lines & Hlog & Hnone) & _).
  exists lines. split; [exact Hlog|]. apply Hnone. discriminate.
Defined.

End LangserverExtra.


(** ** Properties of the standard stream *)

Module ConnExtra.
Import Conn.

(** X25.  [Close] closes standard input first and standard output only
    when that went well: it returns nil exactly when both files were
    open; when standard input was already closed it returns that error
    and leaves standard output as it was, open if it was open; standard
    input is closed afterwards in every case, so a second [Close] always
    returns an error.  ([os.File.Close] fails when the file is closed
    already; failures of the operating system are outside the model.) *)
Theorem Close_stops_at_the_first_error (p : stdio) :
  closed (Stdin (Close p).1) = true
  ∧ ((Close p).2 = None ↔ closed (Stdin p) = false ∧ closed (Stdout p) = false)
  ∧ ((Close p).2 = None → closed (Stdout (Close p).1) = true)
  ∧ (closed (Stdin p) = true → Close p = (p, Some ErrClosed))
  ∧ (Close (Close p).1).2 = Some ErrClosed.
Proof.
  destruct p as [[[|]] [[|]]]; cbn; repeat split; intros; try reflexivity;
    try discriminate; try tauto; intuition discriminate.
Qed.

End ConnExtra.
